(** * IR generation context and reasoning-based simplifier

    A shallow embedding of

      - libsolidity/codegen/ir/IRGenerationContext.{h,cpp}
      - libyul/optimiser/ReasoningBasedSimplifier.{h,cpp}

    Member functions become functions on an explicit record of the
    member variables they touch.  A failed [solAssert], a failed
    [solUnimplementedAssert] and the exception of [std::vector::at] are
    values of [Error]; a member function that can raise one returns a
    [Result].  [std::map] and [std::set] are finite maps and sets; where
    the code iterates over one, the embedding iterates over the sorted
    list of its entries, in the order of the container's comparator.

    What the two classes use of code outside these four files (AST nodes,
    the function collector, the template engine, the solver interface,
    the AST walker) is either a parameter of a section or a definition
    whose comment says that it is modelled. *)

From Stdlib Require Import ZArith NArith String Ascii List Lia.
From stdpp Require Import base option numbers list strings pretty sorting gmap.

Set Warnings "-register-all".

Local Open Scope string_scope.
Local Open Scope N_scope.

(** ** Exceptions *)

Inductive Error : Type :=
| InternalCompilerError (message : string)      (* solAssert, yulAssert *)
| UnimplementedFeatureError (message : string)  (* solUnimplementedAssert *)
| WhiskersError (message : string)              (* the template engine *)
| OutOfRange                                    (* std::out_of_range *)
| SolverError.                                  (* the solver refuses the call *)

Inductive Result (A : Type) : Type :=
| Ok (a : A)
| Throw (e : Error).
Arguments Ok {A} a.
Arguments Throw {A} e.

Definition bindR {A B : Type} (m : Result A) (k : A → Result B) : Result B :=
  match m with
  | Ok a => k a
  | Throw e => Throw e
  end.

Notation "'let*' x ':=' m 'in' k" := (bindR m (fun x => k))
  (at level 10, x pattern, m at level 100, k at level 200).

Definition solAssert (condition : bool) (message : string) : Result unit :=
  if condition then Ok tt else Throw (InternalCompilerError message).

Definition solUnimplementedAssert (condition : bool) (message : string) : Result unit :=
  if condition then Ok tt else Throw (UnimplementedFeatureError message).

(** A loop over a vector that maps each element and threads a state, from
    the first element to the last; it stops at the first exception. *)
Definition traverse {A B S : Type} (f : A → S → Result (B * S))
    : list A → S → Result (list B * S) :=
  fix traverse (l : list A) (s : S) : Result (list B * S) :=
    match l with
    | [] => Ok ([], s)
    | x :: rest =>
        let* first := f x s in
        let* others := traverse rest first.2 in
        Ok (first.1 :: others.1, others.2)
    end.

Definition isOk {A : Type} (r : Result A) : bool :=
  match r with Ok _ => true | Throw _ => false end.

(** ** Machine integers and [std::to_string] *)

(** [size_t] is a 64-bit unsigned integer; [wrap64] is its overflow. *)
Definition wrap64 (n : N) : N := n mod 2 ^ 64.

(** [unsigned] is a 32-bit unsigned integer. *)
Definition wrap32 (n : N) : N := n mod 2 ^ 32.

(** [std::to_string] on an unsigned and on a signed integer: the decimal
    digits, with a leading minus sign for a negative number. *)
Definition to_string_N (n : N) : string := pretty n.
Definition to_string_Z (z : Z) : string := pretty z.

(** Whether the character [c] occurs in [s]. *)
Fixpoint occurs (c : ascii) (s : string) : bool :=
  match s with
  | EmptyString => false
  | String d s' => bool_decide (c = d) || occurs c s'
  end.

(** ** Iteration order of [std::set] and [std::map] *)

(** Pointers to AST nodes are addresses; [nullptr] is address 0. *)
Definition ptr : Type := N.
Definition nullptr : ptr := 0.

(** A [std::set<T const*>] is ordered by address: iterating over it
    yields the addresses in ascending order. *)
Definition iterate (X : gset ptr) : list ptr := merge_sort N.le (elements X).

(** * The code generation context (libsolidity/codegen/ir) *)

Module frontend.

(** ** Arity (IRGenerationContext.h) *)

(** Number of input and output parameters of a function.  The field [in]
    of the source is [in_] here. *)
Record Arity : Type := { in_ : N; out : N }.

Global Instance Arity_eq_dec : EqDecision Arity.
Proof. solve_decision. Defined.

Global Instance Arity_countable : Countable Arity.
Proof.
  refine (inj_countable' (λ a, (in_ a, out a))
                         (λ p, {| in_ := p.1; out := p.2 |}) _).
  by intros [].
Defined.

(** [Arity::operator==] *)
Definition Arity_eqb (a _other : Arity) : bool :=
  (in_ a =? in_ _other) && (out a =? out _other).

(** [std::less<Arity>::operator()] *)
Definition Arity_less (_lhs _rhs : Arity) : bool :=
  (in_ _lhs <? in_ _rhs) || ((in_ _lhs =? in_ _rhs) && (out _lhs <? out _rhs)).

Abbreviation InternalDispatchMap := (gmap Arity (gset ptr)).

(** The order of the entries of a [std::map<Arity, _>]: an entry comes
    before another when the other's key is not less than its own. *)
Definition entryOrder {V : Type} (x y : Arity * V) : Prop :=
  Arity_less y.1 x.1 = false.

Global Instance entryOrder_dec {V : Type} (x y : Arity * V) :
  Decision (entryOrder x y).
Proof. unfold entryOrder. apply _. Defined.

(** Iteration over a [std::map<Arity, _>]: the entries in the order of
    [std::less<Arity>]. *)
Definition entries {V : Type} (m : gmap Arity V) : list (Arity * V) :=
  merge_sort entryOrder (map_to_list m).

(** The order of the entries of a map keyed by pointers. *)
Definition addressOrder {V : Type} (x y : ptr * V) : Prop := x.1 ≤ y.1.

Global Instance addressOrder_dec {V : Type} (x y : ptr * V) :
  Decision (addressOrder x y).
Proof. unfold addressOrder. apply _. Defined.

(** Iteration over a map keyed by pointers: the entries by ascending
    address of the key. *)
Definition entriesByAddress {V : Type} (m : gmap ptr V) : list (ptr * V) :=
  merge_sort addressOrder (map_to_list m).

(** ** AST nodes

    The headers of the AST and of the types are not among the files
    embedded here.  The records below carry the members that
    IRGenerationContext.cpp reads. *)

(** Modelled from the spec: a type, as far as the context asks: whether it
    is a value type, its width in memory and the number of stack slots it
    takes (section 3, "32-byte-wide scalar values"; "number of stack slots
    consumed/produced"). *)
Record Type_ : Type := {
  isValueType : bool;
  memoryHeadSize : N;
  sizeOnStack : N
}.

(** Modelled from the spec: [TupleType(components).sizeOnStack()] adds the
    stack slots of the components, in [unsigned] arithmetic. *)
Definition TupleType_sizeOnStack (components : list Type_) : N :=
  foldl (λ size t, wrap32 (size + sizeOnStack t)) 0 components.

Record FunctionType : Type := {
  parameterTypes : list Type_;
  returnParameterTypes : list Type_
}.

Module FunctionDefinition.
(** [callableFunctionType] is the result of
    [TypeProvider::function(_function)->asCallableFunction(false)], a
    pointer that may be null. *)
Record t : Type := {
  name : string;
  id : Z;
  isConstructor : bool;
  callableFunctionType : option FunctionType
}.
End FunctionDefinition.

Module VariableDeclaration.
Record t : Type := {
  name : string;
  id : Z;
  immutable : bool;
  type : Type_      (* annotation().type *)
}.
End VariableDeclaration.

(** ** MultiUseYulFunctionCollector

    Its source is not among the files embedded here. *)

Record MultiUseYulFunctionCollector : Type := {
  m_requestedFunctions : gset string;
  m_code : string
}.

(** Modelled from the spec: the collector's membership test on the names
    requested so far (section 3: "tracked via name-allocation records"). *)
Definition contains (_name : string) (c : MultiUseYulFunctionCollector) : bool :=
  bool_decide (_name ∈ m_requestedFunctions c).

(** Modelled from the spec: [createFunction] of the collector (section 4.1:
    "memoized by name so that repeated requests for the same arity emit only
    one definition"): the creator runs only for a name not requested before,
    and its text is appended to the collected code; the name is returned. *)
Definition createFunction (_name : string) (_creator : unit → Result string)
    (c : MultiUseYulFunctionCollector) : Result (string * MultiUseYulFunctionCollector) :=
  if contains _name c then Ok (_name, c)
  else
    let* fun_ := _creator tt in
    Ok (_name, {| m_requestedFunctions := {[_name]} ∪ m_requestedFunctions c;
                  m_code := m_code c +:+ fun_ |}).

(** ** Whiskers templates and StringUtils

    Their sources (libsolutil) are not among the files embedded here. *)

(** A template, cut at its tags: plain text, a tag [<name>] that stands
    for a parameter, and a list [<#name>] ... [</name>] whose body is
    rendered once per row. *)
Inductive TemplateItem : Type :=
| Text (text : string)
| Tag (name : string)
| ListTag (name : string) (body : list TemplateItem).

(** Modelled from the spec: the rendering of a template (section 4.1, "one
    case per function"): a tag is replaced by the value of its parameter,
    a list by the renderings of its body, one per row, in which the row's
    parameters are joined to the enclosing ones and no list is set; a tag
    or list without a value is an error of the template engine. *)
Fixpoint renderItem (item : TemplateItem) (_parameters : gmap string string)
    (_listParameters : gmap string (list (gmap string string))) : Result string :=
  match item with
  | Text text => Ok text
  | Tag name =>
      match _parameters !! name with
      | Some value => Ok value
      | None => Throw (WhiskersError ("Value for tag " +:+ name +:+ " not provided."))
      end
  | ListTag name body =>
      match _listParameters !! name with
      | None => Throw (WhiskersError ("List parameter " +:+ name +:+ " not set."))
      | Some rows =>
          (fix eachRow (rows : list (gmap string string)) : Result string :=
             match rows with
             | [] => Ok ""
             | row :: rest =>
                 let* replacement :=
                   (fix eachItem (items : list TemplateItem) : Result string :=
                      match items with
                      | [] => Ok ""
                      | item :: more =>
                          let* first := renderItem item (row ∪ _parameters) ∅ in
                          let* others := eachItem more in
                          Ok (first +:+ others)
                      end) body in
                 let* replacements := eachRow rest in
                 Ok (replacement +:+ replacements)
             end) rows
      end
  end.

Fixpoint render (template : list TemplateItem) (_parameters : gmap string string)
    (_listParameters : gmap string (list (gmap string string))) : Result string :=
  match template with
  | [] => Ok ""
  | item :: more =>
      let* first := renderItem item _parameters _listParameters in
      let* others := render more _parameters _listParameters in
      Ok (first +:+ others)
  end.

(** The rows of a list, rendered one after the other. *)
Definition renderRows (body : list TemplateItem) (parameters : gmap string string)
    (rows : list (gmap string string)) : Result string :=
  foldr (λ row rest,
           let* replacement := render body (row ∪ parameters) ∅ in
           let* replacements := rest in
           Ok (replacement +:+ replacements))
        (Ok "") rows.

(** A list of strings with a separator between neighbours. *)
Fixpoint joinStrings (separator : string) (l : list string) : string :=
  match l with
  | [] => ""
  | [s] => s
  | s :: rest => s +:+ separator +:+ joinStrings separator rest
  end.

(** Modelled from the spec: [suffixedVariableNameList] of StringUtils, as
    the dispatcher uses it (section 4.1, "plus [arity.in] arguments and
    yielding [arity.out] results"): the names [_baseName] followed by the
    numbers from [_startSuffix] up to, and without, [_endSuffix],
    separated by a comma and a blank. *)
Definition suffixedVariableNameList (_baseName : string) (_startSuffix _endSuffix : N)
    : string :=
  joinStrings ", "
    (map (λ i, _baseName +:+ to_string_N (_startSuffix + N.of_nat i))
         (seq 0 (N.to_nat (_endSuffix - _startSuffix)))).

(** ** The member variables of IRGenerationContext

    The members that the functions of the queue, the immutables and the
    internal dispatch read or write.  The registries of local and state
    variables, the most derived contract and the counter of Yul variables
    are the record [Registries] further down; the sub-objects and the
    configuration are left out. *)

Record Context : Type := {
  m_immutableVariables : gmap ptr N;
  m_reservedMemory : option N;
  m_functions : MultiUseYulFunctionCollector;
  m_functionGenerationQueue : gset ptr;
  m_internalDispatch : InternalDispatchMap;
  m_internalDispatchCandidates : InternalDispatchMap;
  m_dispatchableInternalFunctionReferences : gmap ptr ptr
}.

(** The state set up by the constructor and the member initialisers. *)
Definition initialContext : Context := {|
  m_immutableVariables := ∅;
  m_reservedMemory := Some 0;
  m_functions := {| m_requestedFunctions := ∅; m_code := "" |};
  m_functionGenerationQueue := ∅;
  m_internalDispatch := ∅;
  m_internalDispatchCandidates := ∅;
  m_dispatchableInternalFunctionReferences := ∅
|}.

Definition set_immutableVariables (v : gmap ptr N) (c : Context) : Context :=
  {| m_immutableVariables := v;
     m_reservedMemory := m_reservedMemory c;
     m_functions := m_functions c;
     m_functionGenerationQueue := m_functionGenerationQueue c;
     m_internalDispatch := m_internalDispatch c;
     m_internalDispatchCandidates := m_internalDispatchCandidates c;
     m_dispatchableInternalFunctionReferences := m_dispatchableInternalFunctionReferences c |}.

Definition set_reservedMemory (v : option N) (c : Context) : Context :=
  {| m_immutableVariables := m_immutableVariables c;
     m_reservedMemory := v;
     m_functions := m_functions c;
     m_functionGenerationQueue := m_functionGenerationQueue c;
     m_internalDispatch := m_internalDispatch c;
     m_internalDispatchCandidates := m_internalDispatchCandidates c;
     m_dispatchableInternalFunctionReferences := m_dispatchableInternalFunctionReferences c |}.

Definition set_functions (v : MultiUseYulFunctionCollector) (c : Context) : Context :=
  {| m_immutableVariables := m_immutableVariables c;
     m_reservedMemory := m_reservedMemory c;
     m_functions := v;
     m_functionGenerationQueue := m_functionGenerationQueue c;
     m_internalDispatch := m_internalDispatch c;
     m_internalDispatchCandidates := m_internalDispatchCandidates c;
     m_dispatchableInternalFunctionReferences := m_dispatchableInternalFunctionReferences c |}.

Definition set_functionGenerationQueue (v : gset ptr) (c : Context) : Context :=
  {| m_immutableVariables := m_immutableVariables c;
     m_reservedMemory := m_reservedMemory c;
     m_functions := m_functions c;
     m_functionGenerationQueue := v;
     m_internalDispatch := m_internalDispatch c;
     m_internalDispatchCandidates := m_internalDispatchCandidates c;
     m_dispatchableInternalFunctionReferences := m_dispatchableInternalFunctionReferences c |}.

Definition set_internalDispatch (v : InternalDispatchMap) (c : Context) : Context :=
  {| m_immutableVariables := m_immutableVariables c;
     m_reservedMemory := m_reservedMemory c;
     m_functions := m_functions c;
     m_functionGenerationQueue := m_functionGenerationQueue c;
     m_internalDispatch := v;
     m_internalDispatchCandidates := m_internalDispatchCandidates c;
     m_dispatchableInternalFunctionReferences := m_dispatchableInternalFunctionReferences c |}.

Definition set_internalDispatchCandidates (v : InternalDispatchMap) (c : Context) : Context :=
  {| m_immutableVariables := m_immutableVariables c;
     m_reservedMemory := m_reservedMemory c;
     m_functions := m_functions c;
     m_functionGenerationQueue := m_functionGenerationQueue c;
     m_internalDispatch := m_internalDispatch c;
     m_internalDispatchCandidates := v;
     m_dispatchableInternalFunctionReferences := m_dispatchableInternalFunctionReferences c |}.

Definition set_dispatchableInternalFunctionReferences (v : gmap ptr ptr) (c : Context) : Context :=
  {| m_immutableVariables := m_immutableVariables c;
     m_reservedMemory := m_reservedMemory c;
     m_functions := m_functions c;
     m_functionGenerationQueue := m_functionGenerationQueue c;
     m_internalDispatch := m_internalDispatch c;
     m_internalDispatchCandidates := m_internalDispatchCandidates c;
     m_dispatchableInternalFunctionReferences := v |}.

(** ** The member functions of IRGenerationContext *)

Section IRGenerationContext.

(** The AST is built before code generation and is read-only during it:
    [functionAt p] is the function definition at address [p],
    [variableAt p] the variable declaration at address [p]. *)
Variable functionAt : ptr → FunctionDefinition.t.
Variable variableAt : ptr → VariableDeclaration.t.

(** [CompilerUtils::generalPurposeMemoryStart], a constant declared in
    CompilerUtils.h. *)
Variable generalPurposeMemoryStart : N.

Definition functionName (_function : FunctionDefinition.t) : string :=
  "fun_" +:+ FunctionDefinition.name _function +:+ "_" +:+
  to_string_Z (FunctionDefinition.id _function).

Definition enqueueFunctionForCodeGeneration (_function : ptr) (c : Context)
    : string * Context :=
  let name := functionName (functionAt _function) in
  (name,
   if contains name (m_functions c) then c
   else set_functionGenerationQueue
          ({[_function]} ∪ m_functionGenerationQueue c) c).

Definition dequeueFunctionForCodeGeneration (c : Context) : Result (ptr * Context) :=
  match iterate (m_functionGenerationQueue c) with
  | [] => Throw (InternalCompilerError "")
  | result :: _ =>
      Ok (result,
          set_functionGenerationQueue (m_functionGenerationQueue c ∖ {[result]}) c)
  end.

Definition functionGenerationQueueEmpty (c : Context) : bool :=
  bool_decide (m_functionGenerationQueue c = ∅).

Definition registerImmutableVariable (_variable : ptr) (c : Context) : Result Context :=
  let type := VariableDeclaration.type (variableAt _variable) in
  let* _ := solAssert (VariableDeclaration.immutable (variableAt _variable))
              "Attempted to register a non-immutable variable as immutable." in
  let* _ := solUnimplementedAssert (isValueType type)
              "Only immutable variables of value type are supported." in
  let* _ := solAssert (bool_decide (is_Some (m_reservedMemory c)))
              "Reserved memory has already been reset." in
  let reserved := default 0 (m_reservedMemory c) in
  let c1 := set_immutableVariables
              (<[_variable := wrap64 (generalPurposeMemoryStart + reserved)]>
                 (m_immutableVariables c)) c in
  let* _ := solAssert (memoryHeadSize type =? 32) "Memory writes might overlap." in
  Ok (set_reservedMemory (Some (wrap64 (reserved + memoryHeadSize type))) c1).

Definition immutableMemoryOffset (_variable : ptr) (c : Context) : Result N :=
  match m_immutableVariables c !! _variable with
  | Some offset => Ok offset
  | None =>
      Throw (InternalCompilerError
               ("Unknown immutable variable: " +:+
                VariableDeclaration.name (variableAt _variable)))
  end.

Definition reservedMemory (c : Context) : Result (N * Context) :=
  let* _ := solAssert (bool_decide (is_Some (m_reservedMemory c)))
              "Reserved memory was used before." in
  let reservedMemory := default 0 (m_reservedMemory c) in
  Ok (reservedMemory, set_reservedMemory None c).

Definition internalDispatchClean (c : Context) : bool :=
  bool_decide (m_internalDispatch c = ∅) &&
  bool_decide (m_internalDispatchCandidates c = ∅) &&
  bool_decide (m_dispatchableInternalFunctionReferences c = ∅).

Definition setInternalDispatchCandidates
    (_internalDispatchCandidates : InternalDispatchMap) (c : Context) : Result Context :=
  let* _ := solAssert (internalDispatchClean c) "" in
  Ok (set_internalDispatchCandidates _internalDispatchCandidates c).

Definition consumeInternalDispatchMap (c : Context)
    : Result (InternalDispatchMap * InternalDispatchMap * Context) :=
  let* _ := solAssert
              (bool_decide (m_dispatchableInternalFunctionReferences c = ∅))
              "You must call moveCollectedReferencesToDispatch() before constructing internal dispatch map." in
  let internalDispatch := m_internalDispatch c in
  let internalDispatchCandidates := m_internalDispatchCandidates c in
  Ok (internalDispatch, internalDispatchCandidates,
      set_internalDispatchCandidates ∅ (set_internalDispatch ∅ c)).

Definition functionArity_type (_functionType : FunctionType) : Arity :=
  {| in_ := TupleType_sizeOnStack (parameterTypes _functionType);
     out := TupleType_sizeOnStack (returnParameterTypes _functionType) |}.

Definition functionArity (_function : FunctionDefinition.t) : Result Arity :=
  match FunctionDefinition.callableFunctionType _function with
  | None => Throw (InternalCompilerError "")
  | Some functionType => Ok (functionArity_type functionType)
  end.

Definition internalDispatchFunctionName (_arity : Arity) : string :=
  "dispatch_internal" +:+
  "_in_" +:+ to_string_N (in_ _arity) +:+
  "_out_" +:+ to_string_N (out _arity).

(** The loop that queues every function of a set, in the set's order. *)
Definition enqueueAll (functions : gset ptr) (c : Context) : Context :=
  foldl (λ c function, (enqueueFunctionForCodeGeneration function c).2)
        c (iterate functions).

(** The body of the first loop of [moveCollectedReferencesToDispatch],
    at the dispatch entry of key [arity]. *)
Definition promoteCandidates (arity : Arity) (c : Context) : Result Context :=
  let dispatchSet := default ∅ (m_internalDispatch c !! arity) in
  let candidateIt := m_internalDispatchCandidates c !! arity in
  let* _ := solAssert (bool_decide (dispatchSet = ∅) ||
                       bool_decide (candidateIt = None)) "" in
  match candidateIt with
  | Some candidates =>
      let c1 := enqueueAll candidates c in
      Ok (set_internalDispatchCandidates
            (delete arity (m_internalDispatchCandidates c1))
            (set_internalDispatch
               (<[arity := candidates]> (m_internalDispatch c1)) c1))
  | None => Ok c
  end.

(** The body of the second loop, at the reference to [function]. *)
Definition fileReference (function : ptr) (c : Context) : Result Context :=
  let* _ := solAssert (negb (bool_decide (function = nullptr))) "" in
  let* arity := functionArity (functionAt function) in
  let dispatchIt := m_internalDispatch c !! arity in
  let candidateIt := m_internalDispatchCandidates c !! arity in
  let* _ := solAssert (bool_decide (dispatchIt = None) ||
                       bool_decide (candidateIt = None)) "" in
  match dispatchIt, candidateIt with
  | Some functions, _ =>
      let c1 := set_internalDispatch
                  (<[arity := {[function]} ∪ functions]> (m_internalDispatch c)) c in
      Ok (enqueueFunctionForCodeGeneration function c1).2
  | None, Some candidates =>
      Ok (set_internalDispatchCandidates
            (<[arity := {[function]} ∪ candidates]> (m_internalDispatchCandidates c)) c)
  | None, None =>
      Ok (set_internalDispatchCandidates
            (<[arity := {[function]}]> (m_internalDispatchCandidates c)) c)
  end.

(** A loop whose body can throw. *)
Fixpoint forEach {A S : Type} (body : A → S → Result S) (l : list A) (s : S) : Result S :=
  match l with
  | [] => Ok s
  | x :: rest => let* s1 := body x s in forEach body rest s1
  end.

Definition moveCollectedReferencesToDispatch (c : Context) : Result Context :=
  let* c1 := forEach promoteCandidates (entries (m_internalDispatch c)).*1 c in
  let* c2 := forEach fileReference
               (entriesByAddress (m_dispatchableInternalFunctionReferences c1)).*2 c1 in
  Ok (set_dispatchableInternalFunctionReferences ∅ c2).

Definition collectDispatchableReference (_expression _function : ptr) (c : Context)
    : Result (string * Context) :=
  let* _ := solAssert
              (bool_decide (m_dispatchableInternalFunctionReferences c !! _expression = None))
              "" in
  let c1 := set_dispatchableInternalFunctionReferences
              (<[_expression := _function]> (m_dispatchableInternalFunctionReferences c)) c in
  let* arity := functionArity (functionAt _function) in
  Ok (internalDispatchFunctionName arity, c1).

Definition forgetDispatchableReference (_expression : ptr) (c : Context) : Result Context :=
  let* _ := solAssert
              (bool_decide (is_Some (m_dispatchableInternalFunctionReferences c !! _expression)))
              "" in
  Ok (set_dispatchableInternalFunctionReferences
        (delete _expression (m_dispatchableInternalFunctionReferences c)) c).

(** [std::map::try_emplace] with no value arguments: a missing key gets a
    default-constructed (empty) set, a present key keeps its entry. *)
Definition try_emplace (_arity : Arity) (m : InternalDispatchMap) : InternalDispatchMap :=
  match m !! _arity with
  | Some _ => m
  | None => <[_arity := ∅]> m
  end.

Definition registerInternalDispatch (_arity : Arity) (c : Context) : string * Context :=
  (internalDispatchFunctionName _arity,
   set_internalDispatch (try_emplace _arity (m_internalDispatch c)) c).

(** The template of the dispatcher, as [internalDispatch] has it. *)
Definition dispatchTemplate : list TemplateItem :=
  [ Text "
			function "; Tag "functionName"; Text "(fun "; Tag "comma"; Text " ";
    Tag "in"; Text ") "; Tag "arrow"; Text " "; Tag "out"; Text " {
				switch fun
				";
    ListTag "cases"
      [ Text "
				case "; Tag "funID"; Text "
				{
					"; Tag "out"; Text " "; Tag "assignment_op"; Text " "; Tag "name";
        Text "("; Tag "in"; Text ")
				}
				" ];
    Text "
				default { invalid() }
			}
		" ].

(** The row of the list [cases] for one function. *)
Definition caseRow (f : FunctionDefinition.t) : gmap string string :=
  {[ "funID" := to_string_Z (FunctionDefinition.id f); "name" := functionName f ]}.

(** The body of the loop of [internalDispatch]: the assertions on one
    function of the set, and its row of the list [cases]. *)
Definition dispatchCase (_arity : Arity) (function : ptr) : Result (gmap string string) :=
  let* _ := solAssert (negb (bool_decide (function = nullptr))) "" in
  let* arity := functionArity (functionAt function) in
  let* _ := solAssert (Arity_eqb arity _arity)
              "A single dispatch function can only handle functions of one arity" in
  let* _ := solAssert (negb (FunctionDefinition.isConstructor (functionAt function))) "" in
  let* _ := solAssert (negb (FunctionDefinition.id (functionAt function) =? 0)%Z)
              "Unexpected function ID: 0" in
  Ok (caseRow (functionAt function)).

(** A loop that appends one result per element, and can throw. *)
Fixpoint collect {A B : Type} (body : A → Result B) (l : list A) : Result (list B) :=
  match l with
  | [] => Ok []
  | x :: rest =>
      let* y := body x in
      let* ys := collect body rest in
      Ok (y :: ys)
  end.

(** The parameters that the creator sets on the template. *)
Definition dispatchParameters (funName : string) (_arity : Arity) : gmap string string :=
  {[ "functionName" := funName;
     "comma" := if 0 <? in_ _arity then "," else "";
     "in" := suffixedVariableNameList "in_" 0 (in_ _arity);
     "arrow" := if 0 <? out _arity then "->" else "";
     "assignment_op" := if 0 <? out _arity then ":=" else "";
     "out" := suffixedVariableNameList "out_" 0 (out _arity) ]}.

Definition internalDispatch (_arity : Arity) (_functions : gset ptr) (c : Context)
    : Result (string * Context) :=
  let* cases := collect (dispatchCase _arity) (iterate _functions) in
  let funName := internalDispatchFunctionName _arity in
  let* created :=
    createFunction funName
      (λ _, render dispatchTemplate (dispatchParameters funName _arity)
                   {[ "cases" := cases ]})
      (m_functions c) in
  Ok (created.1, set_functions created.2 c).

End IRGenerationContext.

(** ** The registries of IRGenerationContext

    The members behind the local variables, the state variables, the most
    derived contract and the names of Yul variables.  No member function
    touches both these members and those of [Context], so they are a
    record of their own. *)

Module ContractDefinition.
Record t : Type := {
  name : string;
  id : Z
}.
End ContractDefinition.

Module Expression.
(** [tryCall] is the member of the annotation that
    [trySuccessConditionVariable] reads through its cast to
    [FunctionCallAnnotation]. *)
Record t : Type := {
  id : Z;
  tryCall : bool
}.
End Expression.

(** [IRVariable] is declared in IRVariable.h, which is not among the
    files embedded here: the type is a parameter. *)
Record Registries (IRVariable : Type) : Type := {
  m_mostDerivedContract : ptr;
  m_localVariables : gmap ptr IRVariable;
  m_stateVariables : gmap ptr (N * N);     (* std::pair<u256, unsigned> *)
  m_varCounter : N
}.
Arguments m_mostDerivedContract {IRVariable} _.
Arguments m_localVariables {IRVariable} _.
Arguments m_stateVariables {IRVariable} _.
Arguments m_varCounter {IRVariable} _.

(** [std::map::at] *)
Definition map_at {V : Type} (m : gmap ptr V) (key : ptr) : Result V :=
  match m !! key with
  | Some value => Ok value
  | None => Throw OutOfRange
  end.

(** [std::map::emplace]: a missing key gets the value, a present key
    keeps its own; the result is the entry at the key and whether the
    insertion took place. *)
Definition emplace {V : Type} (key : ptr) (value : V) (m : gmap ptr V)
    : V * bool * gmap ptr V :=
  match m !! key with
  | Some present => (present, false, m)
  | None => (value, true, <[key := value]> m)
  end.

Section Registries.

Variable IRVariable : Type.

(** [IRVariable{_varDecl}], the constructor of IRVariable.h. *)
Variable newIRVariable : ptr → IRVariable.

Variable variableAt : ptr → VariableDeclaration.t.
Variable expressionAt : ptr → Expression.t.

(** The state set up by the member initialisers. *)
Definition initialRegistries : Registries IRVariable := {|
  m_mostDerivedContract := nullptr;
  m_localVariables := ∅;
  m_stateVariables := ∅;
  m_varCounter := 0
|}.

Definition set_mostDerivedContract (v : ptr) (r : Registries IRVariable)
    : Registries IRVariable :=
  {| m_mostDerivedContract := v;
     m_localVariables := m_localVariables r;
     m_stateVariables := m_stateVariables r;
     m_varCounter := m_varCounter r |}.

Definition set_localVariables (v : gmap ptr IRVariable) (r : Registries IRVariable)
    : Registries IRVariable :=
  {| m_mostDerivedContract := m_mostDerivedContract r;
     m_localVariables := v;
     m_stateVariables := m_stateVariables r;
     m_varCounter := m_varCounter r |}.

Definition set_stateVariables (v : gmap ptr (N * N)) (r : Registries IRVariable)
    : Registries IRVariable :=
  {| m_mostDerivedContract := m_mostDerivedContract r;
     m_localVariables := m_localVariables r;
     m_stateVariables := v;
     m_varCounter := m_varCounter r |}.

Definition set_varCounter (v : N) (r : Registries IRVariable) : Registries IRVariable :=
  {| m_mostDerivedContract := m_mostDerivedContract r;
     m_localVariables := m_localVariables r;
     m_stateVariables := m_stateVariables r;
     m_varCounter := v |}.

Definition setMostDerivedContract (_mostDerivedContract : ptr) (r : Registries IRVariable)
    : Registries IRVariable :=
  set_mostDerivedContract _mostDerivedContract r.

Definition mostDerivedContract (r : Registries IRVariable) : Result ptr :=
  let* _ := solAssert (negb (bool_decide (m_mostDerivedContract r = nullptr)))
              "Most derived contract requested but not set." in
  Ok (m_mostDerivedContract r).

Definition addLocalVariable (_varDecl : ptr) (r : Registries IRVariable)
    : Result (IRVariable * Registries IRVariable) :=
  let '(it, didInsert, localVariables) :=
    emplace _varDecl (newIRVariable _varDecl) (m_localVariables r) in
  let* _ := solAssert didInsert "Local variable added multiple times." in
  Ok (it, set_localVariables localVariables r).

Definition isLocalVariable (_varDecl : ptr) (r : Registries IRVariable) : bool :=
  bool_decide (is_Some (m_localVariables r !! _varDecl)).

Definition localVariable (_varDecl : ptr) (r : Registries IRVariable) : Result IRVariable :=
  let* _ := solAssert (bool_decide (is_Some (m_localVariables r !! _varDecl)))
              ("Unknown variable: " +:+ VariableDeclaration.name (variableAt _varDecl)) in
  map_at (m_localVariables r) _varDecl.

Definition addStateVariable (_declaration : ptr) (_storageOffset _byteOffset : N)
    (r : Registries IRVariable) : Registries IRVariable :=
  set_stateVariables
    (<[_declaration := (_storageOffset, _byteOffset)]> (m_stateVariables r)) r.

Definition isStateVariable (_varDecl : ptr) (r : Registries IRVariable) : bool :=
  bool_decide (is_Some (m_stateVariables r !! _varDecl)).

Definition storageLocationOfVariable (_varDecl : ptr) (r : Registries IRVariable)
    : Result (N * N) :=
  map_at (m_stateVariables r) _varDecl.

(** [functionName], the overload for the getter of a variable. *)
Definition functionName_VariableDeclaration (_varDecl : VariableDeclaration.t) : string :=
  "getter_fun_" +:+ VariableDeclaration.name _varDecl +:+ "_" +:+
  to_string_Z (VariableDeclaration.id _varDecl).

(** [toString] of libsolutil writes the id to a stream: its decimal
    digits, as [std::to_string] gives them. *)
Definition creationObjectName (_contract : ContractDefinition.t) : string :=
  ContractDefinition.name _contract +:+ "_" +:+
  to_string_Z (ContractDefinition.id _contract).

Definition runtimeObjectName (_contract : ContractDefinition.t) : string :=
  ContractDefinition.name _contract +:+ "_" +:+
  to_string_Z (ContractDefinition.id _contract) +:+ "_deployed".

(** The counter is incremented first; the name is made of its new
    value. *)
Definition newYulVariable (r : Registries IRVariable) : string * Registries IRVariable :=
  let varCounter := wrap64 (m_varCounter r + 1) in
  ("_" +:+ to_string_N varCounter, set_varCounter varCounter r).

Definition trySuccessConditionVariable (_expression : ptr) : Result string :=
  let* _ := solAssert (Expression.tryCall (expressionAt _expression))
              "Parameter must be a FunctionCall with tryCall-annotation set." in
  Ok ("trySuccessCondition_" +:+ to_string_Z (Expression.id (expressionAt _expression))).

End Registries.

Arguments set_mostDerivedContract {IRVariable} v r.
Arguments set_localVariables {IRVariable} v r.
Arguments set_stateVariables {IRVariable} v r.
Arguments set_varCounter {IRVariable} v r.
Arguments setMostDerivedContract {IRVariable} _mostDerivedContract r.
Arguments mostDerivedContract {IRVariable} r.
Arguments addLocalVariable {IRVariable} newIRVariable _varDecl r.
Arguments isLocalVariable {IRVariable} _varDecl r.
Arguments localVariable {IRVariable} variableAt _varDecl r.
Arguments addStateVariable {IRVariable} _declaration _storageOffset _byteOffset r.
Arguments isStateVariable {IRVariable} _varDecl r.
Arguments storageLocationOfVariable {IRVariable} _varDecl r.
Arguments newYulVariable {IRVariable} r.

(** ** The vocabulary of the statements *)

(** No arity is a key of both the dispatch map and the candidates. *)
Definition partitioned (c : Context) : Prop :=
  ∀ arity, ¬ (is_Some (m_internalDispatch c !! arity) ∧
              is_Some (m_internalDispatchCandidates c !! arity)).



(** Two contexts with the same dispatch map, candidates and pending
    references. *)
Definition sameDispatchState (c c' : Context) : Prop :=
  m_internalDispatch c' = m_internalDispatch c ∧
  m_internalDispatchCandidates c' = m_internalDispatchCandidates c ∧
  m_dispatchableInternalFunctionReferences c'
    = m_dispatchableInternalFunctionReferences c.

(** A 32-byte immutable of value type. *)
Definition immutableWord (variableAt : ptr → VariableDeclaration.t) (v : ptr) : Prop :=
  VariableDeclaration.immutable (variableAt v) = true ∧
  isValueType (VariableDeclaration.type (variableAt v)) = true ∧
  memoryHeadSize (VariableDeclaration.type (variableAt v)) = 32.

(** What [internalDispatch] asks of a function of its set: the pointer is
    not null, the function has the dispatcher's arity, is no constructor
    and has an id other than 0. *)
Definition dispatchable (functionAt : ptr → FunctionDefinition.t) (arity : Arity)
    (function : ptr) : Prop :=
  function ≠ nullptr ∧
  functionArity (functionAt function) = Ok arity ∧
  FunctionDefinition.isConstructor (functionAt function) = false ∧
  FunctionDefinition.id (functionAt function) ≠ 0%Z.

(** The dispatcher in the spec's words: one case per function, on the
    function's id, that forwards to the function's generated name ... *)
Definition dispatcherCase (arity : Arity) (f : FunctionDefinition.t) : string :=
  "
				case " +:+ to_string_Z (FunctionDefinition.id f) +:+ "
				{
					" +:+ suffixedVariableNameList "out_" 0 (out arity) +:+ " " +:+
  (if 0 <? out arity then ":=" else "") +:+ " " +:+ functionName f +:+
  "(" +:+ suffixedVariableNameList "in_" 0 (in_ arity) +:+ ")
				}
				".

Definition dispatcherCases (arity : Arity) (fs : list FunctionDefinition.t) : string :=
  foldr (λ f rest, dispatcherCase arity f +:+ rest) "" fs.

(** ... in a function that takes the selector and the arguments, switches
    on the selector and ends in a default case that fails. *)
Definition dispatcher (arity : Arity) (fs : list FunctionDefinition.t) : string :=
  "
			function " +:+ internalDispatchFunctionName arity +:+ "(fun " +:+
  (if 0 <? in_ arity then "," else "") +:+ " " +:+
  suffixedVariableNameList "in_" 0 (in_ arity) +:+ ") " +:+
  (if 0 <? out arity then "->" else "") +:+ " " +:+
  suffixedVariableNameList "out_" 0 (out arity) +:+ " {
				switch fun
				" +:+ dispatcherCases arity fs +:+ "
				default { invalid() }
			}
		".

(** [n] calls of [dequeueFunctionForCodeGeneration] in a row: the
    functions returned, the first one first. *)
Fixpoint dequeueFunctions (n : nat) (c : Context) : Result (list ptr * Context) :=
  match n with
  | O => Ok ([], c)
  | S n =>
      let* first := dequeueFunctionForCodeGeneration c in
      let* rest := dequeueFunctions n first.2 in
      Ok (first.1 :: rest.1, rest.2)
  end.

(** [n] calls of [newYulVariable] in a row: the names returned, the
    first one first. *)
Fixpoint newYulVariables {IRVariable : Type} (n : nat) (r : Registries IRVariable)
    : list string * Registries IRVariable :=
  match n with
  | O => ([], r)
  | S n =>
      let (name, r1) := newYulVariable r in
      let (names, r2) := newYulVariables n r1 in
      (name :: names, r2)
  end.

(** The functions on record under an arity: those of its dispatch entry
    and its candidates. *)
Definition members (arity : Arity) (c : Context) : gset ptr :=
  default ∅ (m_internalDispatch c !! arity) ∪
  default ∅ (m_internalDispatchCandidates c !! arity).

(** A function that is queued for code generation, or whose name the
    collector holds already. *)
Definition scheduled (functionAt : ptr → FunctionDefinition.t) (function : ptr)
    (c : Context) : Prop :=
  function ∈ m_functionGenerationQueue c ∨
  contains (functionName (functionAt function)) (m_functions c) = true.

(** From [c] to [c'] no function on record is lost, no dispatch entry is
    removed, the queue only grows, the collector and the immutables are
    left alone, and a function that has joined a dispatch entry is
    scheduled. *)
Definition advances (functionAt : ptr → FunctionDefinition.t) (c c' : Context) : Prop :=
  (∀ arity, members arity c ⊆ members arity c') ∧
  (∀ arity, is_Some (m_internalDispatch c !! arity) →
            is_Some (m_internalDispatch c' !! arity)) ∧
  m_functionGenerationQueue c ⊆ m_functionGenerationQueue c' ∧
  m_functions c' = m_functions c ∧
  m_immutableVariables c' = m_immutableVariables c ∧
  m_reservedMemory c' = m_reservedMemory c ∧
  (∀ arity functions function,
     m_internalDispatch c' !! arity = Some functions → function ∈ functions →
     function ∈ default ∅ (m_internalDispatch c !! arity) ∨
     scheduled functionAt function c').

(** A function that is filed under its arity: in the dispatch entry, and
    then scheduled, or else among the candidates. *)
Definition filed (functionAt : ptr → FunctionDefinition.t) (function : ptr)
    (c : Context) : Prop :=
  ∃ arity,
    functionArity (functionAt function) = Ok arity ∧
    match m_internalDispatch c !! arity with
    | Some functions => function ∈ functions ∧ scheduled functionAt function c
    | None =>
        ∃ candidates,
          m_internalDispatchCandidates c !! arity = Some candidates ∧
          function ∈ candidates
    end.

End frontend.

(** * The reasoning-based simplifier (libyul/optimiser) *)

(** ** The solver interface (libsolidity/formal)

    SolverInterface.h and Z3Interface are not among the files embedded
    here. *)

Module smt.

(** Modelled from the spec: the answers of a satisfiability query
    (section 6: "check(assumptions) -> SATISFIABLE, UNSATISFIABLE,
    UNKNOWN"). *)
Inductive CheckResult : Type := SATISFIABLE | UNSATISFIABLE | UNKNOWN.

Global Instance CheckResult_eq_dec : EqDecision CheckResult.
Proof. solve_decision. Defined.

(** The formulas that the simplifier builds with the operators of
    [smt::Expression]: an integer constant, a variable of the integer sort,
    [==], [!] (of which [a != b] is [!(a == b)]), [<], [>], [+] and
    [Expression::ite]. *)
Inductive Expression : Type :=
| Constant (value : Z)
| Var (name : string)
| Equal (a b : Expression)
| Not (a : Expression)
| LessThan (a b : Expression)
| GreaterThan (a b : Expression)
| Plus (a b : Expression)
| Ite (condition trueValue falseValue : Expression).

Definition NotEqual (a b : Expression) : Expression := Not (Equal a b).

(** Modelled from the spec: the state of the prover session (section 6:
    "new_variable, assert, push, pop, check"; section 5: "assumptions are
    a stack"): the variables declared, the scopes opened by [push] and
    not yet closed, innermost first, each with the assertions made in it,
    newest first, and the assertions made outside every scope. *)
Record Solver : Type := {
  declared : list string;
  scopes : list (list Expression);
  ground : list Expression
}.

Definition newSolver : Solver := {| declared := []; scopes := []; ground := [] |}.

Definition newVariable (_name : string) (solver : Solver) : Expression * Solver :=
  (Var _name,
   {| declared := _name :: declared solver;
      scopes := scopes solver;
      ground := ground solver |}).

Definition addAssertion (_expr : Expression) (solver : Solver) : Solver :=
  match scopes solver with
  | [] =>
      {| declared := declared solver;
         scopes := [];
         ground := _expr :: ground solver |}
  | innermost :: outer =>
      {| declared := declared solver;
         scopes := (_expr :: innermost) :: outer;
         ground := ground solver |}
  end.

Definition push (solver : Solver) : Solver :=
  {| declared := declared solver;
     scopes := [] :: scopes solver;
     ground := ground solver |}.

(** The prover refuses a [pop] without a [push]. *)
Definition pop (solver : Solver) : Result Solver :=
  match scopes solver with
  | [] => Throw SolverError
  | _ :: outer =>
      Ok {| declared := declared solver;
            scopes := outer;
            ground := ground solver |}
  end.

(** The assertions in force, newest first. *)
Definition assertions (solver : Solver) : list Expression :=
  (concat (scopes solver) ++ ground solver)%list.

(** [check] with no further assumptions: the prover's answer on the
    assertions in force.  The prover itself is a parameter, [decide]. *)
Definition check (decide : list Expression → CheckResult) (solver : Solver)
    : CheckResult :=
  decide (assertions solver).

End smt.

(** ** The Yul AST (libyul/AsmData.h) *)

Module yul.

Abbreviation YulString := string.

Inductive LiteralKind : Type := Number | Boolean | String_.

(** Modelled from the spec: expressions (section 4.2: "literals, reads of
    single-assignment variables, ... builtin operations") and statements
    (section 2: "control-flow constructs").  Source locations and types
    are left out. *)
Inductive Expression : Type :=
| FunctionCall (functionName : YulString) (arguments : list Expression)
| Identifier (name : YulString)
| Literal (kind : LiteralKind) (value : YulString).

Inductive Statement : Type :=
| ExpressionStatement (expression : Expression)
| Assignment (variableNames : list YulString) (value : Expression)
| VariableDeclaration (variables : list YulString) (value : option Expression)
| FunctionDefinition (name : YulString) (parameters returnVariables : list YulString)
    (body : list Statement)
| If (condition : Expression) (body : list Statement)
| Switch (expression : Expression)
    (cases : list (option (LiteralKind * YulString) * list Statement))
| ForLoop (pre : list Statement) (condition : Expression) (post body : list Statement)
| Break
| Continue
| Leave
| Block (statements : list Statement).

(** [evmasm::Instruction] is an enumeration over [uint8_t]: the opcodes of
    the EVM.  The three that [encodeBuiltin] names: *)
Definition Instruction : Type := N.
Definition ADD : Instruction := 0x01.
Definition LT : Instruction := 0x10.
Definition GT : Instruction := 0x11.

(** A builtin function of the EVM dialect; [instruction] is optional. *)
Record BuiltinFunctionForEVM : Type := {
  instruction : option Instruction
}.

(** A dialect: the EVM dialect with its table of builtins, or another
    one, on which the [dynamic_cast] of [encodeExpression] yields null. *)
Inductive Dialect : Type :=
| EVMDialect (builtin : YulString → option BuiltinFunctionForEVM)
| OtherDialect.

(** ** The simplifier's members *)

Record ReasoningBasedSimplifier : Type := {
  m_solver : smt.Solver;
  m_variables : gmap YulString smt.Expression;
  m_varCounter : N
}.

Definition set_solver (solver : smt.Solver) (s : ReasoningBasedSimplifier)
    : ReasoningBasedSimplifier :=
  {| m_solver := solver;
     m_variables := m_variables s;
     m_varCounter := m_varCounter s |}.

(** [std::vector::at] *)
Definition at_ {A : Type} (v : list A) (i : nat) : Result A :=
  match v !! i with
  | Some x => Ok x
  | None => Throw OutOfRange
  end.

Section ReasoningBasedSimplifier.

Variable m_dialect : Dialect.
Variable m_ssaVariables : gset YulString.

(** The prover behind [m_solver]. *)
Variable decide : list smt.Expression → smt.CheckResult.

(** [valueOfLiteral] of libyul/Utilities.h: the 256-bit value of a
    literal, taken as a function that returns. *)
Variable valueOfLiteral : LiteralKind → YulString → Z.

(** The state that the constructor sets up: a new solver, no variable. *)
Definition newSimplifier : ReasoningBasedSimplifier :=
  {| m_solver := smt.newSolver; m_variables := ∅; m_varCounter := 0 |}.

(** [uniqueName] and [newVariable]: the name is made of the counter, which
    is then incremented. *)
Definition uniqueName (s : ReasoningBasedSimplifier) : string * ReasoningBasedSimplifier :=
  ("expr_" +:+ to_string_N (m_varCounter s),
   {| m_solver := m_solver s;
      m_variables := m_variables s;
      m_varCounter := wrap64 (m_varCounter s + 1) |}).

Definition newVariable (s : ReasoningBasedSimplifier)
    : smt.Expression * ReasoningBasedSimplifier :=
  let (name, s1) := uniqueName s in
  let (variable, solver) := smt.newVariable name (m_solver s1) in
  (variable, set_solver solver s1).

(** The [switch] of [encodeBuiltin], on the encoded arguments. *)
Definition encodeInstruction (_instruction : Instruction)
    (arguments : list smt.Expression) (s : ReasoningBasedSimplifier)
    : Result (smt.Expression * ReasoningBasedSimplifier) :=
  if _instruction =? LT then
    let* a := at_ arguments 0 in
    let* b := at_ arguments 1 in
    Ok (smt.Ite (smt.LessThan a b) (smt.Constant 1) (smt.Constant 0), s)
  else if _instruction =? GT then
    let* a := at_ arguments 0 in
    let* b := at_ arguments 1 in
    Ok (smt.Ite (smt.GreaterThan a b) (smt.Constant 1) (smt.Constant 0), s)
  else if _instruction =? ADD then
    let* a := at_ arguments 0 in
    let* b := at_ arguments 1 in
    Ok (smt.Plus a b, s)
  else Ok (newVariable s).

(** [encodeExpression]; the [applyMap] of [encodeBuiltin] over the
    arguments is [traverse]. *)
Fixpoint encodeExpression (_expression : Expression) (s : ReasoningBasedSimplifier)
    {struct _expression} : Result (smt.Expression * ReasoningBasedSimplifier) :=
  match _expression with
  | FunctionCall functionName arguments =>
      match m_dialect with
      | EVMDialect builtin =>
          match builtin functionName with
          | Some b =>
              match instruction b with
              | Some _instruction =>
                  let* encoded := traverse encodeExpression arguments s in
                  encodeInstruction _instruction encoded.1 encoded.2
              | None => Ok (newVariable s)
              end
          | None => Ok (newVariable s)
          end
      | OtherDialect => Ok (newVariable s)
      end
  | Identifier name =>
      if bool_decide (name ∈ m_ssaVariables) &&
         bool_decide (is_Some (m_variables s !! name))
      then Ok (default (smt.Constant 0) (m_variables s !! name), s)
      else Ok (newVariable s)
  | Literal kind value => Ok (smt.Constant (valueOfLiteral kind value), s)
  end.

Definition encodeBuiltin (_instruction : Instruction) (_arguments : list Expression)
    (s : ReasoningBasedSimplifier) : Result (smt.Expression * ReasoningBasedSimplifier) :=
  let* encoded := traverse encodeExpression _arguments s in
  encodeInstruction _instruction encoded.1 encoded.2.

(** [std::map::insert]: a present key keeps its value. *)
Definition insertIfAbsent (name : YulString) (variable : smt.Expression)
    (m : gmap YulString smt.Expression) : gmap YulString smt.Expression :=
  match m !! name with
  | Some _ => m
  | None => <[name := variable]> m
  end.

(** [operator()(VariableDeclaration&)] *)
Definition visitVariableDeclaration (variables : list YulString)
    (value : option Expression) (s : ReasoningBasedSimplifier)
    : Result ReasoningBasedSimplifier :=
  match variables, value with
  | [varName], Some value =>
      if negb (bool_decide (varName ∈ m_ssaVariables)) then Ok s
      else
        let (variable, solver) := smt.newVariable ("yul_" +:+ varName) (m_solver s) in
        let s1 := {| m_solver := solver;
                     m_variables := insertIfAbsent varName variable (m_variables s);
                     m_varCounter := m_varCounter s |} in
        let* encoded := encodeExpression value s1 in
        let bound := default (smt.Constant 0) (m_variables encoded.2 !! varName) in
        Ok (set_solver
              (smt.addAssertion (smt.Equal bound encoded.1) (m_solver encoded.2))
              encoded.2)
  | _, _ => Ok s
  end.

(** The two queries of [operator()(If&)] and the condition they leave:
    the hypothetical scope "condition == 0", then the hypothetical scope
    "condition != 0", each pushed, checked and popped. *)
Definition simplifyCondition (condition : smt.Expression) (_condition : Expression)
    (solver : smt.Solver) : Result (Expression * smt.Solver) :=
  let solver := smt.push solver in
  let solver := smt.addAssertion (smt.Equal condition (smt.Constant 0)) solver in
  let result := smt.check decide solver in
  let* solver := smt.pop solver in
  let _condition :=
    if bool_decide (result = smt.UNSATISFIABLE) then Literal Number "1"
    else _condition in
  let solver := smt.push solver in
  let solver := smt.addAssertion (smt.NotEqual condition (smt.Constant 0)) solver in
  let result2 := smt.check decide solver in
  let* solver := smt.pop solver in
  let _condition :=
    if bool_decide (result2 = smt.UNSATISFIABLE) then Literal Number "0"
    else _condition in
  Ok (_condition, solver).

(** The scope in which the body of an [If] is visited. *)
Definition enterBody (condition : smt.Expression) (solver : smt.Solver) : smt.Solver :=
  smt.addAssertion (smt.NotEqual condition (smt.Constant 0)) (smt.push solver).

(** Modelled from the spec: the walk of [ASTModifier] (section 4.2:
    "pre-order walk, single pass"), with the two overrides of the
    simplifier, [VariableDeclaration] and [If].  The walk leaves
    expressions as they are; a vector of statements is walked by
    [traverse]. *)
Fixpoint visit (statement : Statement) (s : ReasoningBasedSimplifier)
    {struct statement} : Result (Statement * ReasoningBasedSimplifier) :=
  match statement with
  | ExpressionStatement _ => Ok (statement, s)
  | Assignment _ _ => Ok (statement, s)
  | VariableDeclaration variables value =>
      let* s1 := visitVariableDeclaration variables value s in
      Ok (statement, s1)
  | FunctionDefinition name parameters returnVariables body =>
      let* walked := traverse visit body s in
      Ok (FunctionDefinition name parameters returnVariables walked.1, walked.2)
  | If _condition body =>
      let* encoded := encodeExpression _condition s in
      let condition := encoded.1 in
      let* simplified := simplifyCondition condition _condition (m_solver encoded.2) in
      let s1 := set_solver (enterBody condition simplified.2) encoded.2 in
      let* walked := traverse visit body s1 in
      let* solver := smt.pop (m_solver walked.2) in
      Ok (If simplified.1 walked.1, set_solver solver walked.2)
  | Switch expression cases =>
      let* walked :=
        traverse
          (λ _case s,
             let* body := traverse visit _case.2 s in
             Ok ((_case.1, body.1), body.2))
          cases s in
      Ok (Switch expression walked.1, walked.2)
  | ForLoop pre condition post body =>
      let* walkedPre := traverse visit pre s in
      let* walkedPost := traverse visit post walkedPre.2 in
      let* walkedBody := traverse visit body walkedPost.2 in
      Ok (ForLoop walkedPre.1 condition walkedPost.1 walkedBody.1, walkedBody.2)
  | Break => Ok (statement, s)
  | Continue => Ok (statement, s)
  | Leave => Ok (statement, s)
  | Block statements =>
      let* walked := traverse visit statements s in
      Ok (Block walked.1, walked.2)
  end.

(** The walk of a vector of statements, [ASTModifier::operator()(Block&)]. *)
Definition visitBlock (statements : list Statement) (s : ReasoningBasedSimplifier)
    : Result (list Statement * ReasoningBasedSimplifier) :=
  traverse visit statements s.

(** ** The vocabulary of the statements *)

(** The instruction behind a function name, if the dialect is the EVM
    dialect and the name is a builtin with an instruction. *)
Definition instructionOf (functionName : YulString) : option Instruction :=
  match m_dialect with
  | EVMDialect builtin =>
      match builtin functionName with
      | Some b => instruction b
      | None => None
      end
  | OtherDialect => None
  end.

(** The instructions of which [encodeBuiltin] reads two arguments. *)
Definition readsTwoArguments (i : Instruction) : bool :=
  (i =? LT) || (i =? GT) || (i =? ADD).

(** An expression as the analysis of Yul code leaves it, as far as the
    encoding goes: a call of [lt], [gt] or [add] has two arguments or
    more, in every call whose arguments get encoded. *)
Fixpoint wellFormed (e : Expression) : bool :=
  match e with
  | FunctionCall functionName arguments =>
      match instructionOf functionName with
      | Some i =>
          forallb wellFormed arguments &&
          (negb (readsTwoArguments i) || (2 <=? length arguments)%nat)
      | None => true
      end
  | Identifier _ => true
  | Literal _ _ => true
  end.

(** A statement in which the expressions that the simplifier encodes, the
    conditions of [if] and the values of declarations, are well formed. *)
Fixpoint wellFormedStatement (statement : Statement) : bool :=
  match statement with
  | VariableDeclaration _ (Some value) => wellFormed value
  | FunctionDefinition _ _ _ body => forallb wellFormedStatement body
  | If condition body => wellFormed condition && forallb wellFormedStatement body
  | Switch _ cases => forallb (λ _case, forallb wellFormedStatement _case.2) cases
  | ForLoop pre _ post body =>
      forallb wellFormedStatement pre && forallb wellFormedStatement post &&
      forallb wellFormedStatement body
  | Block statements => forallb wellFormedStatement statements
  | _ => true
  end.

End ReasoningBasedSimplifier.

(** The assertions of [solver'] are those of [solver] and, in the
    innermost scope (or outside every scope if none is open), some more;
    the scopes are the same in number. *)
Definition extends (solver solver' : smt.Solver) : Prop :=
  match smt.scopes solver, smt.scopes solver' with
  | [], [] => ∃ added, smt.ground solver' = (added ++ smt.ground solver)%list
  | innermost :: outer, innermost' :: outer' =>
      (∃ added, innermost' = (added ++ innermost)%list) ∧
      outer' = outer ∧ smt.ground solver' = smt.ground solver
  | _, _ => False
  end.

Definition grows (s s' : ReasoningBasedSimplifier) : Prop :=
  extends (m_solver s) (m_solver s').

(** Two states of the simplifier with the same assertions, scope by
    scope, and the same bindings of variables. *)
Definition sameAssertions (s s' : ReasoningBasedSimplifier) : Prop :=
  smt.scopes (m_solver s') = smt.scopes (m_solver s) ∧
  smt.ground (m_solver s') = smt.ground (m_solver s) ∧
  m_variables s' = m_variables s.

(** The condition that [operator()(If&)] leaves, from the answers to its
    two queries: the rewrite to "0" is the later of the two. *)
Definition rewritten (ifZero ifNotZero : smt.CheckResult) (_condition : Expression)
    : Expression :=
  if bool_decide (ifNotZero = smt.UNSATISFIABLE) then Literal Number "0"
  else if bool_decide (ifZero = smt.UNSATISFIABLE) then Literal Number "1"
  else _condition.

(** The names [expr_<k>] that are declared to the solver were made of
    values of the counter below its present value. *)
Definition namesBelowCounter (s : ReasoningBasedSimplifier) : Prop :=
  ∀ k, ("expr_" +:+ to_string_N k) ∈ smt.declared (m_solver s) → k < m_varCounter s.

(** The number of calls, identifiers and literals of an expression. *)
Fixpoint size (e : Expression) : N :=
  match e with
  | FunctionCall _ arguments => 1 + foldr (λ a n, size a + n) 0 arguments
  | Identifier _ => 1
  | Literal _ _ => 1
  end.

(** The same count over the expressions of a statement that the
    simplifier encodes. *)
Fixpoint encodedSize (statement : Statement) : N :=
  match statement with
  | VariableDeclaration _ (Some value) => size value
  | FunctionDefinition _ _ _ body => foldr (λ x n, encodedSize x + n) 0 body
  | If condition body => size condition + foldr (λ x n, encodedSize x + n) 0 body
  | Switch _ cases =>
      foldr (λ _case n, foldr (λ x n, encodedSize x + n) 0 _case.2 + n) 0 cases
  | ForLoop pre _ post body =>
      foldr (λ x n, encodedSize x + n) 0 pre +
      foldr (λ x n, encodedSize x + n) 0 post +
      foldr (λ x n, encodedSize x + n) 0 body
  | Block statements => foldr (λ x n, encodedSize x + n) 0 statements
  | _ => 0
  end.

(** [run]: the single-assignment variables are those that
    [SSAValueTracker] finds in the block. *)
Definition run (dialect : Dialect) (ssaVars : gset YulString)
    (decide : list smt.Expression → smt.CheckResult)
    (valueOfLiteral : LiteralKind → YulString → Z) (_ast : list Statement)
    : Result (list Statement) :=
  let* walked := visitBlock dialect ssaVars decide valueOfLiteral _ast newSimplifier in
  Ok walked.1.

(** A statement with the condition of every [if] blanked. *)
Fixpoint skeleton (statement : Statement) : Statement :=
  match statement with
  | FunctionDefinition name parameters returnVariables body =>
      FunctionDefinition name parameters returnVariables (map skeleton body)
  | If _ body => If (Literal Number "") (map skeleton body)
  | Switch expression cases =>
      Switch expression (map (λ _case, (_case.1, map skeleton _case.2)) cases)
  | ForLoop pre condition post body =>
      ForLoop (map skeleton pre) condition (map skeleton post) (map skeleton body)
  | Block statements => Block (map skeleton statements)
  | _ => statement
  end.

(** The conditions of the [if]s of a statement, in the order of the
    walk. *)
Fixpoint conditions (statement : Statement) : list Expression :=
  match statement with
  | FunctionDefinition _ _ _ body => flat_map conditions body
  | If condition body => condition :: flat_map conditions body
  | Switch _ cases => flat_map (λ _case, flat_map conditions _case.2) cases
  | ForLoop pre _ post body =>
      (flat_map conditions pre ++ flat_map conditions post ++
       flat_map conditions body)%list
  | Block statements => flat_map conditions statements
  | _ => []
  end.

(** A condition as the simplifier can leave it: itself, or one of the
    two literals. *)
Definition decided (_condition condition' : Expression) : Prop :=
  condition' = _condition ∨
  condition' = Literal Number "0" ∨
  condition' = Literal Number "1".

(** [statement'] is [statement] but for conditions of [if]s that are
    decided. *)
Definition simplified (statement statement' : Statement) : Prop :=
  skeleton statement' = skeleton statement ∧
  Forall2 decided (conditions statement) (conditions statement').

(** Every binding is of a single-assignment variable [x] to the solver's
    variable [yul_x]. *)
Definition namedBindings (m_ssaVariables : gset YulString)
    (s : ReasoningBasedSimplifier) : Prop :=
  ∀ name variable,
    m_variables s !! name = Some variable →
    name ∈ m_ssaVariables ∧ variable = smt.Var ("yul_" +:+ name).

(** The bindings of [s] are bindings of [s'], and stay named. *)
Definition keepsBindings (m_ssaVariables : gset YulString)
    (s s' : ReasoningBasedSimplifier) : Prop :=
  m_variables s ⊆ m_variables s' ∧
  (namedBindings m_ssaVariables s → namedBindings m_ssaVariables s').

(** No name [expr_<k>] is declared to the solver twice. *)
Definition distinctNames (s : ReasoningBasedSimplifier) : Prop :=
  ∀ i j k,
    smt.declared (m_solver s) !! i = Some ("expr_" +:+ to_string_N k) →
    smt.declared (m_solver s) !! j = Some ("expr_" +:+ to_string_N k) →
    i = j.

Definition freshNames (s : ReasoningBasedSimplifier) : Prop :=
  namesBelowCounter s ∧ distinctNames s.

(** The solver of [s'] has the variables of the solver of [s] and, declared
    after them, variables of names [expr_<k>] only. *)
Definition declares (s s' : ReasoningBasedSimplifier) : Prop :=
  ∃ names,
    smt.declared (m_solver s') = (names ++ smt.declared (m_solver s))%list ∧
    Forall (λ name, ∃ k, name = "expr_" +:+ to_string_N k) names.

End yul.

(** ** A small program for the examples *)

Module example.
Import frontend.

Definition uint256 : Type_ :=
  {| isValueType := true; memoryHeadSize := 32; sizeOnStack := 1 |}.

Definition unary : FunctionType :=
  {| parameterTypes := [uint256]; returnParameterTypes := [uint256] |}.

Definition binary : FunctionType :=
  {| parameterTypes := [uint256; uint256]; returnParameterTypes := [uint256] |}.

(** Three functions: [f] at address 100 with id 7, [g] at address 200
    with id 3, and [h] with id 11 everywhere else. *)
Definition functionAt (p : ptr) : FunctionDefinition.t :=
  if p =? 100 then
    {| FunctionDefinition.name := "f"; FunctionDefinition.id := 7;
       FunctionDefinition.isConstructor := false;
       FunctionDefinition.callableFunctionType := Some unary |}
  else if p =? 200 then
    {| FunctionDefinition.name := "g"; FunctionDefinition.id := 3;
       FunctionDefinition.isConstructor := false;
       FunctionDefinition.callableFunctionType := Some unary |}
  else
    {| FunctionDefinition.name := "h"; FunctionDefinition.id := 11;
       FunctionDefinition.isConstructor := false;
       FunctionDefinition.callableFunctionType := Some binary |}.

(** Every variable is an immutable [uint256]. *)
Definition variableAt (p : ptr) : VariableDeclaration.t :=
  {| VariableDeclaration.name := "x"; VariableDeclaration.id := Z.of_N p;
     VariableDeclaration.immutable := true;
     VariableDeclaration.type := uint256 |}.

(** A context in which a pointer call of arity (1, 1) was seen, [h] is a
    candidate, and [f] and [g] are referenced by name. *)
Definition collected : Context :=
  set_dispatchableInternalFunctionReferences {[ 1000 := 100; 1001 := 200 ]}
    (set_internalDispatchCandidates {[ {| in_ := 2; out := 1 |} := {[ 300 ]} ]}
       (set_internalDispatch {[ {| in_ := 1; out := 1 |} := ∅ ]} initialContext)).

(** What the promotion makes of it: [f] and [g] are in the dispatch of
    arity (1, 1) and queued, [h] stays a candidate. *)
Definition promoted : Context :=
  set_dispatchableInternalFunctionReferences ∅
    (set_functionGenerationQueue {[ 100; 200 ]}
       (set_internalDispatch {[ {| in_ := 1; out := 1 |} := {[ 100; 200 ]} ]} collected)).

(** A context whose queue holds [f] and [g]. *)
Definition queued : Context :=
  set_functionGenerationQueue {[ 100; 200 ]} initialContext.

(** Every expression is the call of a [try] statement. *)
Definition expressionAt (p : ptr) : Expression.t :=
  {| Expression.id := Z.of_N p; Expression.tryCall := true |}.

(** A decimal literal's value. *)
Definition digitValue (c : ascii) : Z := Z.of_N (N_of_ascii c) - 48.

Fixpoint decimalValue (acc : Z) (digits : string) : Z :=
  match digits with
  | EmptyString => acc
  | String c rest => decimalValue (10 * acc + digitValue c) rest
  end.

Definition valueOfLiteral (kind : yul.LiteralKind) (value : string) : Z :=
  match kind with
  | yul.Number => decimalValue 0 value
  | yul.Boolean => if bool_decide (value = "true") then 1 else 0
  | yul.String_ => 0
  end.

(** A few builtins of the EVM dialect; [datasize] is one without an
    instruction. *)
Definition builtin (name : string) : option yul.BuiltinFunctionForEVM :=
  if bool_decide (name = "lt") then Some {| yul.instruction := Some yul.LT |}
  else if bool_decide (name = "gt") then Some {| yul.instruction := Some yul.GT |}
  else if bool_decide (name = "add") then Some {| yul.instruction := Some yul.ADD |}
  else if bool_decide (name = "mul") then Some {| yul.instruction := Some 0x02 |}
  else if bool_decide (name = "datasize") then Some {| yul.instruction := None |}
  else None.

Definition dialect : yul.Dialect := yul.EVMDialect builtin.

(** A small prover.  It reads the assertions from the oldest to the
    newest and takes a variable's value from an assertion [x == e] whose
    right side it can evaluate.  An assertion that evaluates to false
    refutes the whole; when every assertion evaluates to true the whole is
    satisfiable; otherwise the prover does not know. *)
Fixpoint evaluate (env : gmap string Z) (e : smt.Expression) : option Z :=
  match e with
  | smt.Constant value => Some value
  | smt.Var name => env !! name
  | smt.Equal a b =>
      match evaluate env a, evaluate env b with
      | Some x, Some y => Some (if (x =? y)%Z then 1 else 0)%Z
      | _, _ => None
      end
  | smt.Not a =>
      match evaluate env a with
      | Some x => Some (if (x =? 0)%Z then 1 else 0)%Z
      | None => None
      end
  | smt.LessThan a b =>
      match evaluate env a, evaluate env b with
      | Some x, Some y => Some (if (x <? y)%Z then 1 else 0)%Z
      | _, _ => None
      end
  | smt.GreaterThan a b =>
      match evaluate env a, evaluate env b with
      | Some x, Some y => Some (if (y <? x)%Z then 1 else 0)%Z
      | _, _ => None
      end
  | smt.Plus a b =>
      match evaluate env a, evaluate env b with
      | Some x, Some y => Some (x + y)%Z
      | _, _ => None
      end
  | smt.Ite c t f =>
      match evaluate env c with
      | Some x => if (x =? 0)%Z then evaluate env f else evaluate env t
      | None => None
      end
  end.

(** The value of a formula when the variables have the values that
    [model] gives them; a truth value is 1 or 0. *)
Fixpoint value (model : string → Z) (e : smt.Expression) : Z :=
  match e with
  | smt.Constant value => value
  | smt.Var name => model name
  | smt.Equal a b => if (value model a =? value model b)%Z then 1 else 0
  | smt.Not a => if (value model a =? 0)%Z then 1 else 0
  | smt.LessThan a b => if (value model a <? value model b)%Z then 1 else 0
  | smt.GreaterThan a b => if (value model b <? value model a)%Z then 1 else 0
  | smt.Plus a b => value model a + value model b
  | smt.Ite c t f => if (value model c =? 0)%Z then value model f else value model t
  end%Z.

(** The bindings [env] hold in [model]. *)
Definition agrees (env : gmap string Z) (model : string → Z) : Prop :=
  ∀ name v, env !! name = Some v → model name = v.

Definition learn (env : gmap string Z) (assertion : smt.Expression) : gmap string Z :=
  match assertion with
  | smt.Equal (smt.Var name) e =>
      match env !! name, evaluate env e with
      | None, Some value => <[name := value]> env
      | _, _ => env
      end
  | _ => env
  end.

Definition decide (assertions : list smt.Expression) : smt.CheckResult :=
  let oldestFirst := reverse assertions in
  let env := foldl learn ∅ oldestFirst in
  let values := evaluate env <$> oldestFirst in
  if existsb (λ v, bool_decide (v = Some 0%Z)) values then smt.UNSATISFIABLE
  else if forallb (λ v, bool_decide (is_Some v)) values then smt.SATISFIABLE
  else smt.UNKNOWN.

(** A prover that never decides. *)
Definition undecided (assertions : list smt.Expression) : smt.CheckResult :=
  smt.UNKNOWN.

Definition lt (a b : yul.Expression) : yul.Expression := yul.FunctionCall "lt" [a; b].
Definition gt (a b : yul.Expression) : yul.Expression := yul.FunctionCall "gt" [a; b].
Definition number (digits : string) : yul.Expression := yul.Literal yul.Number digits.

(** [let x := 5] followed by an [if] on [condition] with an empty body. *)
Definition branchOn (condition : yul.Expression) : list yul.Statement :=
  [ yul.VariableDeclaration ["x"] (Some (number "5"));
    yul.If condition [] ].

(** [let x := 5  if gt(x, 10) { if lt(x, 10) { } }]: the inner [if] is
    visited under an assumption that the outer query has refuted. *)
Definition innerIf : yul.Statement := yul.If (lt (yul.Identifier "x") (number "10")) [].

Definition nested : list yul.Statement :=
  [ yul.VariableDeclaration ["x"] (Some (number "5"));
    yul.If (gt (yul.Identifier "x") (number "10")) [ innerIf ] ].

(** [if lt(x) { }]: a call of [lt] with one argument, which the analysis
    of Yul code would refuse. *)
Definition malformedIf : yul.Statement :=
  yul.If (yul.FunctionCall "lt" [yul.Identifier "x"]) [].

Definition outerIf : yul.Statement :=
  yul.If (gt (yul.Identifier "x") (number "10")) [ innerIf ].

(** The simplifier after [let x := 5]: [x] is bound to [yul_x], which is
    asserted to be 5. *)
Definition afterDeclaration : yul.ReasoningBasedSimplifier :=
  {| yul.m_solver :=
       {| smt.declared := ["yul_x"];
          smt.scopes := [];
          smt.ground := [ smt.Equal (smt.Var "yul_x") (smt.Constant 5) ] |};
     yul.m_variables := {[ "x" := smt.Var "yul_x" ]};
     yul.m_varCounter := 0 |}.

(** [if gt(x, 3) { let y := x }], and the simplifier after its visit from
    [afterDeclaration], with [x] and [y] single-assignment variables. *)
Definition declaringIf : yul.Statement :=
  yul.If (gt (yul.Identifier "x") (number "3"))
    [ yul.VariableDeclaration ["y"] (Some (yul.Identifier "x")) ].

Definition afterBody : yul.ReasoningBasedSimplifier :=
  {| yul.m_solver :=
       {| smt.declared := ["yul_y"; "yul_x"];
          smt.scopes := [];
          smt.ground := [ smt.Equal (smt.Var "yul_x") (smt.Constant 5) ] |};
     yul.m_variables := {[ "x" := smt.Var "yul_x"; "y" := smt.Var "yul_y" ]};
     yul.m_varCounter := 0 |}.

(** The simplifier when it reaches [innerIf]: [x] is bound to [yul_x],
    which is 5, and the scope of the outer body holds the assumption
    that [gt(x, 10)] is not zero. *)
Definition atInnerIf : yul.ReasoningBasedSimplifier :=
  {| yul.m_solver :=
       {| smt.declared := ["yul_x"];
          smt.scopes :=
            [[ smt.NotEqual
                 (smt.Ite (smt.GreaterThan (smt.Var "yul_x") (smt.Constant 10))
                          (smt.Constant 1) (smt.Constant 0))
                 (smt.Constant 0) ]];
          smt.ground := [ smt.Equal (smt.Var "yul_x") (smt.Constant 5) ] |};
     yul.m_variables := {[ "x" := smt.Var "yul_x" ]};
     yul.m_varCounter := 0 |}.

End example.

(** * Properties *)

(** ** Lemmas on strings and iteration *)

Lemma app_empty_l s : "" +:+ s = s.
Proof. reflexivity. Qed.

Lemma app_String c s t : String c s +:+ t = String c (s +:+ t).
Proof. reflexivity. Qed.

Lemma occurs_app c s t : occurs c (s +:+ t) = occurs c s || occurs c t.
Proof.
  induction s as [|d s IH]; [done|].
  rewrite app_String. simpl. rewrite IH. by rewrite orb_assoc.
Qed.

Lemma pretty_N_char_not_underscore x : pretty_N_char x ≠ "_"%char.
Proof. unfold pretty_N_char. by repeat case_match. Qed.

Lemma pretty_N_go_no_underscore x s :
  occurs "_" s = false → occurs "_" (pretty_N_go x s) = false.
Proof.
  revert s. induction (N.lt_wf_0 x) as [x _ IH]; intros s Hs.
  assert (x = 0 ∨ 0 < x) as [->|Hpos] by lia.
  - by rewrite pretty_N_go_0.
  - rewrite pretty_N_go_step by done. apply IH.
    + by apply N.div_lt.
    + simpl. rewrite Hs, orb_false_r.
      apply bool_decide_eq_false. intros Heq. symmetry in Heq.
      by apply pretty_N_char_not_underscore in Heq.
Qed.

Lemma to_string_N_no_underscore n : occurs "_" (to_string_N n) = false.
Proof.
  unfold to_string_N, pretty, pretty_N. case_decide; [done|].
  by apply pretty_N_go_no_underscore.
Qed.

Lemma to_string_Z_no_underscore z : occurs "_" (to_string_Z z) = false.
Proof.
  unfold to_string_Z, pretty, pretty_Z. destruct z as [|p|p]; [done|..].
  - apply (to_string_N_no_underscore (N.pos p)).
  - rewrite occurs_app. simpl.
    apply (to_string_N_no_underscore (N.pos p)).
Qed.

(** The text after the last underscore of a string determines the split:
    a name followed by an underscore and an underscore-free suffix can be
    read back in one way only. *)
Lemma underscore_suffix_inj n1 n2 d1 d2 :
  occurs "_" d1 = false → occurs "_" d2 = false →
  n1 +:+ "_" +:+ d1 = n2 +:+ "_" +:+ d2 → n1 = n2 ∧ d1 = d2.
Proof.
  intros H1 H2. revert n2.
  induction n1 as [|c n1 IH]; intros [|c' n2] Heq;
    repeat (rewrite app_empty_l in Heq || rewrite app_String in Heq).
  - by injection Heq as ->.
  - injection Heq as <- ->. rewrite occurs_app in H1. simpl in H1.
    by rewrite orb_true_r in H1.
  - injection Heq as -> <-. rewrite occurs_app in H2. simpl in H2.
    by rewrite orb_true_r in H2.
  - injection Heq as -> Heq. by destruct (IH _ Heq) as [-> ->].
Qed.
Lemma iterate_perm (X : gset ptr) : iterate X ≡ₚ elements X.
Proof. apply merge_sort_Permutation. Qed.

Lemma elem_of_iterate (X : gset ptr) p : p ∈ iterate X ↔ p ∈ X.
Proof. by rewrite iterate_perm, elem_of_elements. Qed.

Lemma iterate_nil (X : gset ptr) : iterate X = [] ↔ X = ∅.
Proof.
  split.
  - intros Hnil. apply set_eq. intros p.
    rewrite <-elem_of_iterate, Hnil. set_solver.
  - intros ->. done.
Qed.

Lemma iterate_NoDup (X : gset ptr) : NoDup (iterate X).
Proof. rewrite iterate_perm. apply NoDup_elements. Qed.

Lemma iterate_sorted (X : gset ptr) : StronglySorted N.le (iterate X).
Proof. apply StronglySorted_merge_sort; apply _. Qed.


Lemma bindR_Ok {A B : Type} (m : Result A) (k : A → Result B) b :
  bindR m k = Ok b → ∃ a, m = Ok a ∧ k a = Ok b.
Proof. destruct m as [a|e]; simpl; [eauto|done]. Qed.

Lemma Ok_inj {A : Type} (a b : A) : Ok a = Ok b → a = b.
Proof. by intros [= ->]. Qed.

Lemma solAssert_Ok condition message u :
  solAssert condition message = Ok u → condition = true.
Proof. by destruct condition. Qed.

Lemma solAssert_true message : solAssert true message = Ok tt.
Proof. done. Qed.

(** ** Promotion of the collected references *)

(** Reduce the projections of an updated context, and nothing else. *)
Ltac fields :=
  cbn [frontend.m_immutableVariables frontend.m_reservedMemory
       frontend.m_functions frontend.m_functionGenerationQueue
       frontend.m_internalDispatch frontend.m_internalDispatchCandidates
       frontend.m_dispatchableInternalFunctionReferences
       frontend.set_immutableVariables frontend.set_reservedMemory
       frontend.set_functions frontend.set_functionGenerationQueue
       frontend.set_internalDispatch frontend.set_internalDispatchCandidates
       frontend.set_dispatchableInternalFunctionReferences] in *.

Section Promotion.
Import frontend.

Variable functionAt : ptr → FunctionDefinition.t.

Lemma elem_of_entries_keys {V : Type} (m : gmap Arity V) k :
  k ∈ (entries m).*1 ↔ is_Some (m !! k).
Proof.
  unfold entries. rewrite merge_sort_Permutation.
  rewrite list_elem_of_fmap. split.
  - intros [[k' v] [-> Hin]]. apply elem_of_map_to_list in Hin. by exists v.
  - intros [v Hv]. exists (k, v). split; [done|]. by apply elem_of_map_to_list.
Qed.

(** Queueing a function touches the queue only. *)
Lemma enqueue_frame p c :
  sameDispatchState c (enqueueFunctionForCodeGeneration functionAt p c).2.
Proof.
  unfold sameDispatchState, enqueueFunctionForCodeGeneration. simpl.
  by case_match.
Qed.

Lemma enqueueAll_frame functions c :
  sameDispatchState c (enqueueAll functionAt functions c).
Proof.
  unfold enqueueAll. generalize (iterate functions) as l.
  intros l. revert c. induction l as [|p l IH]; intros c; [done|].
  destruct (IH (enqueueFunctionForCodeGeneration functionAt p c).2) as (Hd & Hc & Hr).
  destruct (enqueue_frame p c) as (Hd' & Hc' & Hr').
  repeat split; etrans; eauto.
Qed.

(** One step of the first loop: the candidates lose the key visited and
    gain none, the dispatch map gains at most the key visited. *)
Lemma promoteCandidates_step k c c' :
  promoteCandidates functionAt k c = Ok c' →
  m_internalDispatchCandidates c' !! k = None ∧
  (∀ j, m_internalDispatchCandidates c !! j = None →
        m_internalDispatchCandidates c' !! j = None) ∧
  (∀ j, is_Some (m_internalDispatch c' !! j) →
        is_Some (m_internalDispatch c !! j) ∨ j = k) ∧
  m_dispatchableInternalFunctionReferences c'
    = m_dispatchableInternalFunctionReferences c.
Proof.
  unfold promoteCandidates. intros H.
  apply bindR_Ok in H as ([] & _ & H).
  destruct (m_internalDispatchCandidates c !! k) as [candidates|] eqn:Hcand.
  - injection H as <-. fields.
    destruct (enqueueAll_frame candidates c) as (Hd & Hc & Hr).
    rewrite Hd, Hc, Hr. repeat split.
    + apply lookup_delete_eq.
    + intros j Hj. destruct (decide (k = j)) as [->|Hne].
      * apply lookup_delete_eq.
      * by rewrite lookup_delete_ne.
    + intros j Hj. destruct (decide (k = j)) as [->|Hne]; [by right|].
      left. by rewrite lookup_insert_ne in Hj.
  - injection H as <-. repeat split; auto.
Qed.

Lemma promoteCandidates_loop l c c' :
  forEach (promoteCandidates functionAt) l c = Ok c' →
  (∀ k, k ∈ l → m_internalDispatchCandidates c' !! k = None) ∧
  (∀ j, m_internalDispatchCandidates c !! j = None →
        m_internalDispatchCandidates c' !! j = None) ∧
  (∀ j, is_Some (m_internalDispatch c' !! j) →
        is_Some (m_internalDispatch c !! j) ∨ j ∈ l) ∧
  m_dispatchableInternalFunctionReferences c'
    = m_dispatchableInternalFunctionReferences c.
Proof.
  revert c. induction l as [|k l IH]; intros c H; simpl in H.
  - injection H as <-. repeat split; auto. intros k Hk. by apply elem_of_nil in Hk.
  - apply bindR_Ok in H as (c1 & Hstep & Hrest).
    apply promoteCandidates_step in Hstep as (Hk & Hshrink & Hdisp & Hrefs).
    apply IH in Hrest as (Hl & Hshrink' & Hdisp' & Hrefs').
    repeat split.
    + intros j Hj. apply elem_of_cons in Hj as [->|Hj]; auto.
    + auto.
    + intros j Hj. destruct (Hdisp' j Hj) as [Hj'|Hj'].
      * destruct (Hdisp j Hj') as [?| ->]; [by left|right; left].
      * right. by right.
    + congruence.
Qed.

Lemma partitioned_frame c c' :
  sameDispatchState c c' → partitioned c → partitioned c'.
Proof. intros (Hd & Hc & _) Hpart j. rewrite Hd, Hc. apply Hpart. Qed.

Lemma fileReference_step p c c' :
  fileReference functionAt p c = Ok c' → partitioned c → partitioned c'.
Proof.
  unfold fileReference. intros H Hpart.
  apply bindR_Ok in H as ([] & _ & H).
  apply bindR_Ok in H as (arity & _ & H).
  apply bindR_Ok in H as ([] & _ & H).
  destruct (m_internalDispatch c !! arity) as [functions|] eqn:Hd.
  - apply Ok_inj in H as <-.
    apply (partitioned_frame _ _ (enqueue_frame p _)).
    intros j. fields. intros [Hj1 Hj2].
    apply (Hpart j). split; [|done].
    destruct (decide (arity = j)) as [<-|Hne]; [by rewrite Hd|].
    by rewrite lookup_insert_ne in Hj1.
  - destruct (m_internalDispatchCandidates c !! arity) as [candidates|] eqn:Hc;
      injection H as <-; intros j; fields; intros [Hj1 Hj2];
      (destruct (decide (arity = j)) as [<-|Hne];
       [rewrite Hd in Hj1; by destruct Hj1
       |rewrite lookup_insert_ne in Hj2 by done; by apply (Hpart j)]).
Qed.

Lemma fileReference_loop l c c' :
  forEach (fileReference functionAt) l c = Ok c' → partitioned c → partitioned c'.
Proof.
  revert c. induction l as [|p l IH]; intros c H Hpart; simpl in H.
  - by injection H as <-.
  - apply bindR_Ok in H as (c1 & Hstep & Hrest).
    eauto using fileReference_step.
Qed.

(** *** When the promotion runs to its end *)

Lemma promoteCandidates_others k c c' :
  promoteCandidates functionAt k c = Ok c' →
  ∀ j, j ≠ k →
    m_internalDispatch c' !! j = m_internalDispatch c !! j ∧
    m_internalDispatchCandidates c' !! j = m_internalDispatchCandidates c !! j.
Proof.
  unfold promoteCandidates. intros H j Hne.
  apply bindR_Ok in H as ([] & _ & H).
  destruct (m_internalDispatchCandidates c !! k) as [candidates|] eqn:Hcand.
  - apply Ok_inj in H as <-. fields.
    destruct (enqueueAll_frame candidates c) as (-> & -> & _).
    by rewrite lookup_insert_ne, lookup_delete_ne.
  - by apply Ok_inj in H as <-.
Qed.




(** C1: when [moveCollectedReferencesToDispatch] runs to its end, no
    arity is a key of both the dispatch map and the candidates map, and
    the table of pending references is empty. *)
Theorem moveCollectedReferencesToDispatch_partition c c' :
  moveCollectedReferencesToDispatch functionAt c = Ok c' →
  (∀ arity, ¬ (is_Some (m_internalDispatch c' !! arity) ∧
               is_Some (m_internalDispatchCandidates c' !! arity))) ∧
  m_dispatchableInternalFunctionReferences c' = ∅.
Proof.
  unfold moveCollectedReferencesToDispatch. intros H.
  apply bindR_Ok in H as (c1 & Hloop1 & H).
  apply bindR_Ok in H as (c2 & Hloop2 & H).
  injection H as <-. split; [|done].
  apply promoteCandidates_loop in Hloop1 as (Hkeys & _ & Hdisp & _).
  apply fileReference_loop in Hloop2.
  - exact Hloop2.
  - intros j [Hj1 Hj2].
    assert (j ∈ (entries (m_internalDispatch c)).*1) as Hin.
    { destruct (Hdisp j Hj1) as [?|?]; [|done]. by apply elem_of_entries_keys. }
    rewrite (Hkeys j Hin) in Hj2. by destruct Hj2.
Qed.

End Promotion.

(** ** The function generation queue *)

Section Queue.
Import frontend.

Variable functionAt : ptr → FunctionDefinition.t.

Lemma functionName_inj f g :
  functionName f = functionName g →
  FunctionDefinition.name f = FunctionDefinition.name g ∧
  FunctionDefinition.id f = FunctionDefinition.id g.
Proof.
  unfold functionName. intros H.
  change ("fun_" +:+ ?s) with (String "f" (String "u" (String "n" (String "_" s)))) in H.
  injection H as H.
  apply underscore_suffix_inj in H as [Hn Hd];
    auto using to_string_Z_no_underscore.
  split; [done|]. by apply (inj pretty).
Qed.

Lemma NoDup_occurs_once (l : list ptr) f :
  NoDup l → (length (filter (λ p, p = f) l) ≤ 1)%nat.
Proof.
  intros Hnodup. induction Hnodup as [|p l Hnotin Hnodup IH]; [simpl; lia|].
  rewrite filter_cons. case_decide as Hp; [|done].
  subst p. simpl.
  destruct (filter (λ p, p = f) l) as [|q rest] eqn:Hfilter; [simpl; lia|].
  assert (q ∈ filter (λ p, p = f) l) as Hq by (rewrite Hfilter; left).
  apply list_elem_of_filter in Hq as [-> Hq]. done.
Qed.

Lemma iterate_head_least (X : gset ptr) result rest :
  iterate X = result :: rest →
  result ∈ X ∧ (∀ q, q ∈ X → result ≤ q) ∧ (∀ q, q ∈ rest → result < q).
Proof.
  intros Hit.
  pose proof (iterate_sorted X) as Hsorted.
  pose proof (iterate_NoDup X) as Hnodup.
  rewrite Hit in Hsorted, Hnodup.
  apply StronglySorted_inv in Hsorted as [_ Hall].
  apply NoDup_cons in Hnodup as [Hnotin _].
  rewrite Forall_forall in Hall.
  repeat split.
  - apply elem_of_iterate. rewrite Hit. by left.
  - intros q Hq. apply elem_of_iterate in Hq. rewrite Hit in Hq.
    apply elem_of_cons in Hq as [->|Hq]; [lia|]. by apply Hall.
  - intros q Hq. specialize (Hall q Hq).
    assert (result ≠ q) by (intros ->; done). lia.
Qed.

(** C3: functions of distinct identities get distinct names, whatever the
    contexts they are queued in; queueing the same function a second time
    returns the same name, changes nothing, and the function is in the
    queue's iteration at most once. *)
Theorem enqueueFunctionForCodeGeneration_naming :
  (∀ f g c d,
     FunctionDefinition.id (functionAt f) ≠ FunctionDefinition.id (functionAt g) →
     (enqueueFunctionForCodeGeneration functionAt f c).1
       ≠ (enqueueFunctionForCodeGeneration functionAt g d).1) ∧
  (∀ f c,
     let first := enqueueFunctionForCodeGeneration functionAt f c in
     let second := enqueueFunctionForCodeGeneration functionAt f first.2 in
     second.1 = first.1 ∧
     second.2 = first.2 ∧
     length (filter (λ p, p = f) (iterate (m_functionGenerationQueue second.2))) ≤ 1)%nat.
Proof.
  split.
  - intros f g c d Hid Hname. apply Hid.
    by apply functionName_inj in Hname as [_ ?].
  - intros f c first second. subst first second.
    split; [done|]. split.
    + unfold enqueueFunctionForCodeGeneration. simpl.
      destruct (contains _ (m_functions c)) eqn:Hc; simpl; rewrite Hc; [done|].
      unfold set_functionGenerationQueue. simpl. f_equal.
      apply set_eq. intros p. rewrite !elem_of_union. tauto.
    + apply NoDup_occurs_once, iterate_NoDup.
Qed.

(** C2, as the code has it: dequeueing from an empty queue fails;
    otherwise the function removed and returned is the one at the lowest
    address in the queue, and the next one dequeued lies at a higher
    address. *)
Theorem dequeueFunctionForCodeGeneration_least_address c :
  (m_functionGenerationQueue c = ∅ →
   dequeueFunctionForCodeGeneration c = Throw (InternalCompilerError "")) ∧
  (m_functionGenerationQueue c ≠ ∅ →
   ∃ result,
     dequeueFunctionForCodeGeneration c
       = Ok (result,
             set_functionGenerationQueue (m_functionGenerationQueue c ∖ {[result]}) c) ∧
     result ∈ m_functionGenerationQueue c ∧
     ∀ q, q ∈ m_functionGenerationQueue c → result ≤ q) ∧
  (∀ r1 c1 r2 c2,
     dequeueFunctionForCodeGeneration c = Ok (r1, c1) →
     dequeueFunctionForCodeGeneration c1 = Ok (r2, c2) →
     r1 < r2).
Proof.
  unfold dequeueFunctionForCodeGeneration. repeat split.
  - intros Hempty. by rewrite (proj2 (iterate_nil _) Hempty).
  - intros Hne.
    destruct (iterate (m_functionGenerationQueue c)) as [|result rest] eqn:Hit.
    { by apply iterate_nil in Hit. }
    exists result. apply iterate_head_least in Hit as (? & ? & _). done.
  - intros r1 c1 r2 c2 H1 H2.
    destruct (iterate (m_functionGenerationQueue c)) as [|result rest] eqn:Hit; [done|].
    apply Ok_inj in H1. injection H1 as -> <-. fields.
    destruct (iterate (m_functionGenerationQueue c ∖ {[r1]})) as [|r rest'] eqn:Hit'; [done|].
    apply Ok_inj in H2. injection H2 as -> _.
    apply iterate_head_least in Hit as (_ & Hle & _).
    apply iterate_head_least in Hit' as (Hin & _ & _).
    apply elem_of_difference in Hin as [Hin Hne].
    specialize (Hle _ Hin). assert (r1 ≠ r2) by set_solver. lia.
Qed.

End Queue.

(** C2, as the spec words it, fails: with [f] (id 7) at address 100 and
    [g] (id 3) at address 200 in the queue, the function dequeued is [f],
    which is in the queue together with a function of lower id. *)
Lemma dequeueFunctionForCodeGeneration_not_lowest_id :
  ∃ result c' other,
    frontend.dequeueFunctionForCodeGeneration example.queued = Ok (result, c') ∧
    other ∈ frontend.m_functionGenerationQueue example.queued ∧
    (frontend.FunctionDefinition.id (example.functionAt other)
     < frontend.FunctionDefinition.id (example.functionAt result))%Z.
Proof.
  eexists _, _, 200. split; [vm_compute; reflexivity|].
  split; [|done].
  unfold example.queued. fields. set_solver.
Qed.

(** A run of the promotion on the example. *)
Lemma moveCollectedReferencesToDispatch_partition_witness :
  frontend.moveCollectedReferencesToDispatch example.functionAt example.collected
    = Ok example.promoted ∧
  (∀ arity,
     ¬ (is_Some (frontend.m_internalDispatch example.promoted !! arity) ∧
        is_Some (frontend.m_internalDispatchCandidates example.promoted !! arity))) ∧
  frontend.m_dispatchableInternalFunctionReferences example.promoted = ∅.
Proof.
  split; [vm_compute; reflexivity|].
  apply (moveCollectedReferencesToDispatch_partition example.functionAt example.collected).
  vm_compute. reflexivity.
Defined.

(** ** Dispatch registration and the candidates *)

Section Dispatch.
Import frontend.

Lemma set_internalDispatch_same c : set_internalDispatch (m_internalDispatch c) c = c.
Proof. by destruct c. Qed.

(** C10: [setInternalDispatchCandidates] succeeds exactly on a clean
    dispatch state (dispatch map, candidates and pending references all
    empty); it then stores the map it is given as the candidates and
    changes nothing else; on any other state it fails its assertion. *)
Theorem setInternalDispatchCandidates_clean candidates c :
  (isOk (setInternalDispatchCandidates candidates c) = true ↔
   m_internalDispatch c = ∅ ∧
   m_internalDispatchCandidates c = ∅ ∧
   m_dispatchableInternalFunctionReferences c = ∅) ∧
  (internalDispatchClean c = true →
   setInternalDispatchCandidates candidates c
     = Ok (set_internalDispatchCandidates candidates c) ∧
   m_internalDispatchCandidates (set_internalDispatchCandidates candidates c)
     = candidates) ∧
  (internalDispatchClean c = false →
   setInternalDispatchCandidates candidates c = Throw (InternalCompilerError "")).
Proof.
  unfold setInternalDispatchCandidates, internalDispatchClean.
  split; [split|split].
  - intros Hok.
    destruct (bool_decide (m_internalDispatch c = ∅)) eqn:H1;
      destruct (bool_decide (m_internalDispatchCandidates c = ∅)) eqn:H2;
      destruct (bool_decide (m_dispatchableInternalFunctionReferences c = ∅)) eqn:H3;
      try discriminate Hok.
    by apply bool_decide_eq_true in H1, H2, H3.
  - intros (H1 & H2 & H3).
    by rewrite !bool_decide_eq_true_2.
  - intros Hclean. by rewrite Hclean.
  - intros Hclean. by rewrite Hclean.
Qed.

(** C4: [registerInternalDispatch] returns the name
    dispatch_internal_in_<in>_out_<out>; afterwards the arity has an entry
    in the dispatch map, the one it had or else the empty set; no other
    entry and no other member changes; on an arity that has an entry the
    call changes nothing, so a second call is without effect. *)
Theorem registerInternalDispatch_idempotent arity c :
  let name := (registerInternalDispatch arity c).1 in
  let c' := (registerInternalDispatch arity c).2 in
  name = "dispatch_internal_in_" +:+ to_string_N (in_ arity) +:+
         "_out_" +:+ to_string_N (out arity) ∧
  m_internalDispatch c' !! arity
    = Some (default ∅ (m_internalDispatch c !! arity)) ∧
  (∀ other, other ≠ arity →
     m_internalDispatch c' !! other = m_internalDispatch c !! other) ∧
  c' = set_internalDispatch (m_internalDispatch c') c ∧
  (is_Some (m_internalDispatch c !! arity) → c' = c) ∧
  registerInternalDispatch arity c' = (name, c').
Proof.
  unfold registerInternalDispatch, try_emplace. fields. simpl.
  destruct (m_internalDispatch c !! arity) as [functions|] eqn:Hlookup; simpl.
  - split; [reflexivity|]. split; [done|]. split; [done|]. split; [done|].
    split; [intros _; apply set_internalDispatch_same|].
    rewrite !set_internalDispatch_same, Hlookup.
    by rewrite set_internalDispatch_same.
  - split; [reflexivity|]. split; [apply lookup_insert_eq|].
    split; [intros other Hne; by apply lookup_insert_ne|].
    split; [done|]. split; [by intros []|].
    by rewrite lookup_insert_eq.
Qed.

End Dispatch.

(** ** Reserved memory for immutables *)

Section Immutables.
Import frontend.

Variable variableAt : ptr → VariableDeclaration.t.
Variable generalPurposeMemoryStart : N.

Lemma registerImmutableVariable_word v c reserved :
  immutableWord variableAt v →
  m_reservedMemory c = Some reserved →
  registerImmutableVariable variableAt generalPurposeMemoryStart v c
    = Ok (set_reservedMemory (Some (wrap64 (reserved + 32)))
            (set_immutableVariables
               (<[v := wrap64 (generalPurposeMemoryStart + reserved)]>
                  (m_immutableVariables c)) c)).
Proof.
  intros (Himm & Hval & Hsize) Hres. unfold registerImmutableVariable.
  rewrite Himm, Hval, Hres, Hsize. reflexivity.
Qed.

Lemma registerImmutableVariable_closed v c :
  m_reservedMemory c = None →
  isOk (registerImmutableVariable variableAt generalPurposeMemoryStart v c) = false.
Proof.
  intros Hres. unfold registerImmutableVariable. rewrite Hres.
  destruct (VariableDeclaration.immutable (variableAt v)); [|done].
  destruct (isValueType (VariableDeclaration.type (variableAt v))); done.
Qed.

(** C6: on a context whose allocation cursor is at 0, registering the
    32-byte immutables [I1] and then [I2] puts them at the offsets
    [generalPurposeMemoryStart] and [generalPurposeMemoryStart + 32], the
    cursor going to 32 and to 64; [reservedMemory] then returns 64 and
    closes the reservation; after that a second [reservedMemory] fails,
    and so does any [registerImmutableVariable]. *)
Theorem immutable_offsets I1 I2 c :
  immutableWord variableAt I1 → immutableWord variableAt I2 → I1 ≠ I2 →
  m_reservedMemory c = Some 0 →
  generalPurposeMemoryStart + 32 < 2 ^ 64 →
  ∃ c1 c2 c3,
    registerImmutableVariable variableAt generalPurposeMemoryStart I1 c = Ok c1 ∧
    m_reservedMemory c1 = Some 32 ∧
    registerImmutableVariable variableAt generalPurposeMemoryStart I2 c1 = Ok c2 ∧
    m_reservedMemory c2 = Some 64 ∧
    immutableMemoryOffset variableAt I1 c2 = Ok generalPurposeMemoryStart ∧
    immutableMemoryOffset variableAt I2 c2 = Ok (generalPurposeMemoryStart + 32) ∧
    reservedMemory c2 = Ok (64, c3) ∧
    m_reservedMemory c3 = None ∧
    reservedMemory c3 = Throw (InternalCompilerError "Reserved memory was used before.") ∧
    ∀ v, isOk (registerImmutableVariable variableAt generalPurposeMemoryStart v c3) = false.
Proof.
  intros HI1 HI2 Hne Hres Hbase.
  eexists _, _, _.
  split; [by apply registerImmutableVariable_word|].
  split; [done|].
  split; [by apply registerImmutableVariable_word|].
  split; [done|].
  unfold immutableMemoryOffset. fields.
  rewrite lookup_insert_ne by done. rewrite !lookup_insert_eq.
  change (wrap64 (0 + 32)) with 32.
  unfold wrap64. rewrite N.add_0_r.
  rewrite !N.mod_small by lia.
  repeat split; try done.
  intros v. by apply registerImmutableVariable_closed.
Qed.

End Immutables.

(** The two immutables at the addresses 500 and 501 of the example, with
    the general-purpose memory starting at 128. *)
Lemma immutable_offsets_witness :
  ∃ c1 c2 c3,
    frontend.registerImmutableVariable example.variableAt 128 500 frontend.initialContext
      = Ok c1 ∧
    frontend.m_reservedMemory c1 = Some 32 ∧
    frontend.registerImmutableVariable example.variableAt 128 501 c1 = Ok c2 ∧
    frontend.m_reservedMemory c2 = Some 64 ∧
    frontend.immutableMemoryOffset example.variableAt 500 c2 = Ok 128 ∧
    frontend.immutableMemoryOffset example.variableAt 501 c2 = Ok (128 + 32) ∧
    frontend.reservedMemory c2 = Ok (64, c3) ∧
    frontend.m_reservedMemory c3 = None ∧
    frontend.reservedMemory c3
      = Throw (InternalCompilerError "Reserved memory was used before.") ∧
    ∀ v, isOk (frontend.registerImmutableVariable example.variableAt 128 v c3) = false.
Proof.
  apply (immutable_offsets example.variableAt 128 500 501 frontend.initialContext).
  - unfold frontend.immutableWord. simpl. done.
  - unfold frontend.immutableWord. simpl. done.
  - lia.
  - reflexivity.
  - vm_compute. reflexivity.
Defined.

(** ** The dispatcher *)

Section Dispatcher.
Import frontend.

Variable functionAt : ptr → FunctionDefinition.t.

Lemma renderRows_cons body parameters row rows :
  renderRows body parameters (row :: rows)
  = let* replacement := render body (row ∪ parameters) ∅ in
    let* replacements := renderRows body parameters rows in
    Ok (replacement +:+ replacements).
Proof. reflexivity. Qed.

Lemma renderItem_ListTag name body parameters lists rows :
  lists !! name = Some rows →
  renderItem (ListTag name body) parameters lists = renderRows body parameters rows.
Proof.
  intros Hrows. cbn [renderItem]. rewrite Hrows. clear Hrows.
  induction rows as [|row rows IH]; [done|].
  rewrite renderRows_cons, <-IH. clear IH.
  f_equal.
  induction body as [|item body IH]; [done|].
  cbn [render]. by rewrite <-IH.
Qed.

Lemma renderItem_Tag name parameters lists value :
  parameters !! name = Some value →
  renderItem (Tag name) parameters lists = Ok value.
Proof. intros H. cbn [renderItem]. by rewrite H. Qed.

Lemma caseRow_funID f parameters :
  (caseRow f ∪ parameters) !! "funID" = Some (to_string_Z (FunctionDefinition.id f)).
Proof. unfold caseRow. apply lookup_union_Some_l. by simplify_map_eq. Qed.

Lemma caseRow_name f parameters :
  (caseRow f ∪ parameters) !! "name" = Some (functionName f).
Proof. unfold caseRow. apply lookup_union_Some_l. by simplify_map_eq. Qed.

Lemma caseRow_enclosing f parameters name :
  name ≠ "funID" → name ≠ "name" →
  (caseRow f ∪ parameters) !! name = parameters !! name.
Proof.
  intros H1 H2. unfold caseRow. apply lookup_union_r. by simplify_map_eq.
Qed.

Lemma dispatchParameters_lookup funName arity :
  let parameters := dispatchParameters funName arity in
  parameters !! "functionName" = Some funName ∧
  parameters !! "comma" = Some (if 0 <? in_ arity then "," else "") ∧
  parameters !! "in" = Some (suffixedVariableNameList "in_" 0 (in_ arity)) ∧
  parameters !! "arrow" = Some (if 0 <? out arity then "->" else "") ∧
  parameters !! "assignment_op" = Some (if 0 <? out arity then ":=" else "") ∧
  parameters !! "out" = Some (suffixedVariableNameList "out_" 0 (out arity)).
Proof. unfold dispatchParameters. cbv zeta. repeat split; by simplify_map_eq. Qed.

Lemma render_case funName arity f :
  render
      [ Text "
				case "; Tag "funID"; Text "
				{
					"; Tag "out"; Text " "; Tag "assignment_op"; Text " "; Tag "name";
        Text "("; Tag "in"; Text ")
				}
				" ]
    (caseRow f ∪ dispatchParameters funName arity) ∅
  = Ok (dispatcherCase arity f).
Proof.
  destruct (dispatchParameters_lookup funName arity) as (_ & _ & Hin & _ & Hop & Hout).
  cbn [render].
  rewrite (renderItem_Tag "funID" _ _ _ (caseRow_funID _ _)).
  rewrite (renderItem_Tag "name" _ _ _ (caseRow_name _ _)).
  rewrite (renderItem_Tag "out" _ _ (suffixedVariableNameList "out_" 0 (out arity)))
    by (by rewrite caseRow_enclosing).
  rewrite (renderItem_Tag "in" _ _ (suffixedVariableNameList "in_" 0 (in_ arity)))
    by (by rewrite caseRow_enclosing).
  rewrite (renderItem_Tag "assignment_op" _ _ (if 0 <? out arity then ":=" else ""))
    by (by rewrite caseRow_enclosing).
  reflexivity.
Qed.

(** The template, rendered, is the dispatcher of the spec. *)
Lemma render_dispatchTemplate arity fs :
  render dispatchTemplate
    (dispatchParameters (internalDispatchFunctionName arity) arity)
    {[ "cases" := caseRow <$> fs ]}
  = Ok (dispatcher arity fs).
Proof.
  destruct (dispatchParameters_lookup (internalDispatchFunctionName arity) arity)
    as (Hname & Hcomma & Hin & Harrow & _ & Hout).
  unfold dispatchTemplate. cbn [render].
  rewrite (renderItem_ListTag "cases" _ _ _ (caseRow <$> fs)) by apply lookup_singleton_eq.
  rewrite (renderItem_Tag _ _ _ _ Hname), (renderItem_Tag _ _ _ _ Hcomma),
    (renderItem_Tag _ _ _ _ Hin), (renderItem_Tag _ _ _ _ Harrow),
    (renderItem_Tag _ _ _ _ Hout).
  assert (renderRows
      [ Text "
				case "; Tag "funID"; Text "
				{
					"; Tag "out"; Text " "; Tag "assignment_op"; Text " "; Tag "name";
        Text "("; Tag "in"; Text ")
				}
				" ] (dispatchParameters (internalDispatchFunctionName arity) arity)
           (caseRow <$> fs) = Ok (dispatcherCases arity fs)) as ->.
  { induction fs as [|f fs IH]; [done|].
    rewrite fmap_cons, renderRows_cons, render_case, IH. done. }
  reflexivity.
Qed.

Lemma Arity_eqb_eq a b : Arity_eqb a b = true ↔ a = b.
Proof.
  unfold Arity_eqb. destruct a as [i o], b as [i' o']. simpl.
  rewrite andb_true_iff, !N.eqb_eq. split; [by intros [-> ->]|by intros [= -> ->]].
Qed.

Lemma dispatchCase_dispatchable arity p :
  dispatchable functionAt arity p →
  dispatchCase functionAt arity p = Ok (caseRow (functionAt p)).
Proof.
  intros (Hnull & Harity & Hctor & Hid). unfold dispatchCase.
  rewrite bool_decide_eq_false_2 by done. rewrite Harity. cbn [negb solAssert bindR].
  rewrite (proj2 (Arity_eqb_eq arity arity) eq_refl), Hctor.
  rewrite (proj2 (Z.eqb_neq _ _) Hid). reflexivity.
Qed.

Lemma dispatchCase_violation arity p :
  ¬ dispatchable functionAt arity p →
  ∃ message, dispatchCase functionAt arity p = Throw (InternalCompilerError message).
Proof.
  intros Hnot. unfold dispatchCase.
  destruct (decide (p = nullptr)) as [Hnull|Hnull].
  { rewrite bool_decide_eq_true_2 by done. by eexists. }
  rewrite bool_decide_eq_false_2 by done. cbn [negb solAssert bindR].
  destruct (functionArity (functionAt p)) as [arity'|e] eqn:Harity.
  2:{ unfold functionArity in Harity.
      destruct (FunctionDefinition.callableFunctionType (functionAt p)); [done|].
      injection Harity as <-. by eexists. }
  cbn [bindR].
  destruct (Arity_eqb arity' arity) eqn:Heq; [|by eexists].
  apply Arity_eqb_eq in Heq as ->. cbn [solAssert bindR].
  destruct (FunctionDefinition.isConstructor (functionAt p)) eqn:Hctor; [by eexists|].
  cbn [negb solAssert bindR].
  destruct (FunctionDefinition.id (functionAt p) =? 0)%Z eqn:Hid; [by eexists|].
  apply Z.eqb_neq in Hid. destruct Hnot. done.
Qed.

Lemma collect_dispatchable arity l :
  (∀ p, p ∈ l → dispatchable functionAt arity p) →
  collect (dispatchCase functionAt arity) l = Ok (caseRow <$> (functionAt <$> l)).
Proof.
  induction l as [|p l IH]; intros Hall; [done|].
  cbn [collect]. rewrite dispatchCase_dispatchable by (apply Hall; left).
  cbn [bindR]. rewrite IH; [done|]. intros q Hq. apply Hall. by right.
Qed.

Lemma collect_violation arity l :
  (∃ p, p ∈ l ∧ ¬ dispatchable functionAt arity p) →
  ∃ message,
    collect (dispatchCase functionAt arity) l = Throw (InternalCompilerError message).
Proof.
  induction l as [|p l IH]; intros (q & Hq & Hnot).
  { by apply elem_of_nil in Hq. }
  cbn [collect].
  destruct (dispatchCase functionAt arity p) as [row|e] eqn:Hcase.
  - cbn [bindR]. apply elem_of_cons in Hq as [->|Hq].
    + apply dispatchCase_violation in Hnot as [message Hthrow]. congruence.
    + destruct IH as [message ->]; [by exists q|]. by eexists.
  - destruct (dispatchCase_violation arity p) as [message Hthrow].
    + intros Hok. apply dispatchCase_dispatchable in Hok. congruence.
    + rewrite Hcase in Hthrow. injection Hthrow as ->. by eexists.
Qed.

(** C5: when every function of the set is dispatchable, [internalDispatch]
    returns the dispatcher's name and, unless a function of that name was
    requested before, appends to the collected code the dispatcher of the
    spec: one case per function of the set, in the set's order, forwarding
    to the function's generated name, and a default case that fails.  For
    the empty set that text has the default case and no other.  When some
    function of the set is not dispatchable (wrong arity, a constructor,
    id 0, or a null pointer), the call fails with an internal compiler
    error. *)
Theorem internalDispatch_dispatcher arity functions c :
  ((∀ p, p ∈ functions → dispatchable functionAt arity p) →
   internalDispatch functionAt arity functions c
   = Ok (internalDispatchFunctionName arity,
         if contains (internalDispatchFunctionName arity) (m_functions c) then c
         else set_functions
                {| m_requestedFunctions :=
                     {[internalDispatchFunctionName arity]}
                       ∪ m_requestedFunctions (m_functions c);
                   m_code :=
                     m_code (m_functions c) +:+
                     dispatcher arity (functionAt <$> iterate functions) |} c)) ∧
  ((∃ p, p ∈ functions ∧ ¬ dispatchable functionAt arity p) →
   ∃ message,
     internalDispatch functionAt arity functions c
     = Throw (InternalCompilerError message)) ∧
  dispatcher arity (functionAt <$> iterate ∅)
  = "
			function " +:+ internalDispatchFunctionName arity +:+ "(fun " +:+
    (if 0 <? in_ arity then "," else "") +:+ " " +:+
    suffixedVariableNameList "in_" 0 (in_ arity) +:+ ") " +:+
    (if 0 <? out arity then "->" else "") +:+ " " +:+
    suffixedVariableNameList "out_" 0 (out arity) +:+ " {
				switch fun
				
				default { invalid() }
			}
		".
Proof.
  split; [|split].
  - intros Hall. unfold internalDispatch.
    rewrite collect_dispatchable
      by (intros p Hp; by apply Hall, elem_of_iterate).
    cbn [bindR]. unfold createFunction.
    destruct (contains (internalDispatchFunctionName arity) (m_functions c)).
    + cbn [bindR fst snd]. by destruct c.
    + rewrite render_dispatchTemplate. reflexivity.
  - intros (p & Hp & Hnot). unfold internalDispatch.
    destruct (collect_violation arity (iterate functions)) as [message ->].
    + exists p. split; [by apply elem_of_iterate|done].
    + by eexists.
  - reflexivity.
Qed.

End Dispatcher.

(** The dispatcher for [f] and [g] of the example, and what a function of
    another arity does to the call. *)
Lemma internalDispatch_dispatcher_witness :
  frontend.internalDispatch example.functionAt
    {| frontend.in_ := 1; frontend.out := 1 |} {[ 100; 200 ]} frontend.initialContext
  = Ok ("dispatch_internal_in_1_out_1",
        frontend.set_functions
          {| frontend.m_requestedFunctions := {[ "dispatch_internal_in_1_out_1" ]};
             frontend.m_code := "
			function dispatch_internal_in_1_out_1(fun , in_0) -> out_0 {
				switch fun
				
				case 7
				{
					out_0 := fun_f_7(in_0)
				}
				
				case 3
				{
					out_0 := fun_g_3(in_0)
				}
				
				default { invalid() }
			}
		" |} frontend.initialContext) ∧
  ∃ message,
    frontend.internalDispatch example.functionAt
      {| frontend.in_ := 2; frontend.out := 1 |} {[ 100; 200 ]} frontend.initialContext
    = Throw (InternalCompilerError message).
Proof.
  split.
  - etrans.
    + apply (internalDispatch_dispatcher example.functionAt).
      intros p Hp.
      assert (p = 100 ∨ p = 200) as [-> | ->] by set_solver;
        (split; [done|split; [reflexivity|split; [reflexivity|done]]]).
    + vm_compute. reflexivity.
  - apply (internalDispatch_dispatcher example.functionAt).
    exists 100. split; [set_solver|].
    intros (_ & Harity & _). vm_compute in Harity. discriminate.
Defined.

(** ** Loops over vectors *)

Lemma traverse_cons {A B S : Type} (f : A → S → Result (B * S)) x rest s :
  traverse f (x :: rest) s
  = let* first := f x s in
    let* others := traverse f rest first.2 in
    Ok (first.1 :: others.1, others.2).
Proof. reflexivity. Qed.

(** A relation between states that every step of the loop respects is
    respected by the loop. *)
Lemma traverse_respects {A B S : Type} (R : relation S)
    `{!Reflexive R, !Transitive R} (f : A → S → Result (B * S)) l :
  Forall (λ x, ∀ s r, f x s = Ok r → R s r.2) l →
  ∀ s r, traverse f l s = Ok r → R s r.2.
Proof.
  induction 1 as [|x l Hx _ IH]; intros s r Hr.
  - apply Ok_inj in Hr as <-. reflexivity.
  - rewrite traverse_cons in Hr.
    apply bindR_Ok in Hr as (first & Hfirst & Hr).
    apply bindR_Ok in Hr as (others & Hothers & Hr).
    apply Ok_inj in Hr as <-. simpl.
    transitivity first.2; eauto.
Qed.

(** A loop whose steps all return, returns. *)
Lemma traverse_returns {A B S : Type} (f : A → S → Result (B * S)) l :
  Forall (λ x, ∀ s, ∃ r, f x s = Ok r) l →
  ∀ s, ∃ r, traverse f l s = Ok r.
Proof.
  induction 1 as [|x l Hx _ IH]; intros s.
  - by eexists.
  - rewrite traverse_cons.
    destruct (Hx s) as [first ->]. simpl.
    destruct (IH first.2) as [others ->]. simpl. by eexists.
Qed.

Lemma traverse_length {A B S : Type} (f : A → S → Result (B * S)) l s r :
  traverse f l s = Ok r → length r.1 = length l.
Proof.
  revert s r. induction l as [|x l IH]; intros s r Hr.
  - by apply Ok_inj in Hr as <-.
  - rewrite traverse_cons in Hr.
    apply bindR_Ok in Hr as (first & Hfirst & Hr).
    apply bindR_Ok in Hr as (others & Hothers & Hr).
    apply Ok_inj in Hr as <-. simpl. f_equal. eauto.
Qed.

(** ** Induction over the Yul AST *)

Lemma Expression_nested_ind (P : yul.Expression → Prop) :
  (∀ functionName arguments,
     Forall P arguments → P (yul.FunctionCall functionName arguments)) →
  (∀ name, P (yul.Identifier name)) →
  (∀ kind value, P (yul.Literal kind value)) →
  ∀ e, P e.
Proof.
  intros Hcall Hid Hlit. fix IH 1. intros [functionName arguments|name|kind value].
  - apply Hcall. induction arguments as [|a arguments IHarguments];
      constructor; [apply IH|apply IHarguments].
  - apply Hid.
  - apply Hlit.
Qed.

Lemma Statement_nested_ind (P : yul.Statement → Prop) :
  (∀ e, P (yul.ExpressionStatement e)) →
  (∀ names value, P (yul.Assignment names value)) →
  (∀ variables value, P (yul.VariableDeclaration variables value)) →
  (∀ name parameters returnVariables body,
     Forall P body → P (yul.FunctionDefinition name parameters returnVariables body)) →
  (∀ condition body, Forall P body → P (yul.If condition body)) →
  (∀ e cases, Forall (λ _case, Forall P _case.2) cases → P (yul.Switch e cases)) →
  (∀ pre condition post body,
     Forall P pre → Forall P post → Forall P body →
     P (yul.ForLoop pre condition post body)) →
  P yul.Break → P yul.Continue → P yul.Leave →
  (∀ statements, Forall P statements → P (yul.Block statements)) →
  ∀ statement, P statement.
Proof.
  intros Hexpr Hassign Hdecl Hfun Hif Hswitch Hfor Hbreak Hcontinue Hleave Hblock.
  fix IH 1.
  intros [e|names value|variables value|name parameters returnVariables body
         |condition body|e cases|pre condition post body| | | |statements].
  - apply Hexpr.
  - apply Hassign.
  - apply Hdecl.
  - apply Hfun. induction body as [|x l IHl]; constructor; [apply IH|apply IHl].
  - apply Hif. induction body as [|x l IHl]; constructor; [apply IH|apply IHl].
  - apply Hswitch. induction cases as [|[value body] cases IHcases];
      constructor; [|apply IHcases].
    simpl. induction body as [|x l IHl]; constructor; [apply IH|apply IHl].
  - apply Hfor.
    + induction pre as [|x l IHl]; constructor; [apply IH|apply IHl].
    + induction post as [|x l IHl]; constructor; [apply IH|apply IHl].
    + induction body as [|x l IHl]; constructor; [apply IH|apply IHl].
  - apply Hbreak.
  - apply Hcontinue.
  - apply Hleave.
  - apply Hblock. induction statements as [|x l IHl]; constructor; [apply IH|apply IHl].
Qed.

(** ** The solver's stack of scopes *)

Lemma pop_hypothetical e solver :
  smt.pop (smt.addAssertion e (smt.push solver)) = Ok solver.
Proof. by destruct solver. Qed.

Lemma assertions_hypothetical e solver :
  smt.assertions (smt.addAssertion e (smt.push solver)) = e :: smt.assertions solver.
Proof. reflexivity. Qed.

Lemma scopes_hypothetical e solver :
  smt.scopes (smt.addAssertion e (smt.push solver)) = [e] :: smt.scopes solver ∧
  smt.ground (smt.addAssertion e (smt.push solver)) = smt.ground solver.
Proof. done. Qed.

Global Instance extends_reflexive : Reflexive yul.extends.
Proof.
  intros solver. unfold yul.extends.
  destruct (smt.scopes solver); [by exists []|]. split; [by exists []|done].
Qed.

Global Instance extends_transitive : Transitive yul.extends.
Proof.
  intros a b c. unfold yul.extends.
  destruct (smt.scopes a) as [|ia oa], (smt.scopes b) as [|ib ob],
    (smt.scopes c) as [|ic oc]; try done.
  - intros [added ->] [added' ->]. exists (added' ++ added)%list. by rewrite (assoc_L app).
  - intros ([added ->] & -> & ->) ([added' ->] & -> & ->).
    split; [|done]. exists (added' ++ added)%list. by rewrite (assoc_L app).
Qed.

Lemma extends_addAssertion e solver :
  yul.extends solver (smt.addAssertion e solver).
Proof.
  unfold yul.extends, smt.addAssertion.
  destruct (smt.scopes solver) as [|innermost outer]; simpl.
  - by exists [e].
  - split; [by exists [e]|done].
Qed.

(** What was asserted in a scope goes when the scope is popped. *)
Lemma pop_extends e solver solver' :
  yul.extends (smt.addAssertion e (smt.push solver)) solver' →
  ∃ popped,
    smt.pop solver' = Ok popped ∧
    smt.scopes popped = smt.scopes solver ∧
    smt.ground popped = smt.ground solver.
Proof.
  unfold yul.extends. simpl.
  destruct (smt.scopes solver') as [|innermost outer] eqn:Hscopes; [done|].
  intros (_ & -> & Hground). unfold smt.pop. rewrite Hscopes.
  eexists. split; [done|]. done.
Qed.

Lemma assertions_same solver solver' :
  smt.scopes solver' = smt.scopes solver →
  smt.ground solver' = smt.ground solver →
  smt.assertions solver' = smt.assertions solver.
Proof. unfold smt.assertions. by intros -> ->. Qed.

Global Instance sameAssertions_reflexive : Reflexive yul.sameAssertions.
Proof. by intros s. Qed.

Global Instance sameAssertions_transitive : Transitive yul.sameAssertions.
Proof.
  intros a b c (H1 & H2 & H3) (H1' & H2' & H3').
  repeat split; congruence.
Qed.

(** ** The encoding of expressions *)

Section Encoding.
Import yul.

Variable m_dialect : Dialect.
Variable m_ssaVariables : gset YulString.
Variable decide : list smt.Expression → smt.CheckResult.
Variable valueOfLiteral : LiteralKind → YulString → Z.

Local Abbreviation encodeExpression :=
  (encodeExpression m_dialect m_ssaVariables valueOfLiteral).
Local Abbreviation wellFormed := (wellFormed m_dialect).

(** A new variable is declared to the solver under the name made of the
    counter; no assertion and no binding changes. *)
Lemma newVariable_unconstrained s :
  newVariable s
  = (smt.Var ("expr_" +:+ to_string_N (m_varCounter s)),
     {| m_solver :=
          {| smt.declared :=
               ("expr_" +:+ to_string_N (m_varCounter s)) :: smt.declared (m_solver s);
             smt.scopes := smt.scopes (m_solver s);
             smt.ground := smt.ground (m_solver s) |};
        m_variables := m_variables s;
        m_varCounter := wrap64 (m_varCounter s + 1) |}) ∧
  sameAssertions s (newVariable s).2.
Proof. done. Qed.

Lemma encodeInstruction_sameAssertions i arguments s r :
  encodeInstruction i arguments s = Ok r → sameAssertions s r.2.
Proof.
  unfold encodeInstruction. intros Hr.
  repeat case_match;
    try (apply bindR_Ok in Hr as (a & _ & Hr);
         apply bindR_Ok in Hr as (b & _ & Hr));
    apply Ok_inj in Hr as <-; done.
Qed.

(** The equation of [encodeExpression] on a call, by the instruction
    behind the function name. *)
Lemma encodeExpression_call functionName arguments s :
  encodeExpression (FunctionCall functionName arguments) s
  = match instructionOf m_dialect functionName with
    | Some i => encodeBuiltin m_dialect m_ssaVariables valueOfLiteral i arguments s
    | None => Ok (newVariable s)
    end.
Proof.
  unfold instructionOf, encodeBuiltin. cbn [yul.encodeExpression].
  destruct m_dialect as [builtin|]; [|done].
  destruct (builtin functionName) as [b|]; [|done].
  by destruct (instruction b).
Qed.

Lemma encodeExpression_sameAssertions e :
  ∀ s r, encodeExpression e s = Ok r → sameAssertions s r.2.
Proof.
  induction e as [functionName arguments IH|name|kind value]
    using Expression_nested_ind; intros s r Hr.
  - rewrite encodeExpression_call in Hr.
    destruct (instructionOf m_dialect functionName) as [i|].
    + unfold encodeBuiltin in Hr.
      apply bindR_Ok in Hr as (encoded & Hencoded & Hr).
      transitivity encoded.2.
      * by apply (traverse_respects sameAssertions _ _ IH) in Hencoded.
      * by apply encodeInstruction_sameAssertions in Hr.
    + by apply Ok_inj in Hr as <-.
  - cbn [yul.encodeExpression] in Hr. case_match; by apply Ok_inj in Hr as <-.
  - by apply Ok_inj in Hr as <-.
Qed.

Lemma at_returns {A : Type} (v : list A) (i : nat) :
  (i < length v)%nat → ∃ x, at_ v i = Ok x.
Proof.
  intros Hi. unfold at_.
  destruct (lookup_lt_is_Some_2 v i Hi) as [x ->]. by eexists.
Qed.

Lemma encodeInstruction_returns i arguments s :
  readsTwoArguments i = false ∨ (2 ≤ length arguments)%nat →
  ∃ r, encodeInstruction i arguments s = Ok r.
Proof.
  unfold readsTwoArguments, encodeInstruction. intros Hi.
  destruct (i =? LT) eqn:Hlt; [|destruct (i =? GT) eqn:Hgt;
    [|destruct (i =? ADD) eqn:Hadd; [|by eexists]]];
    (destruct Hi as [Hi|Hi]; [by rewrite ?orb_true_r in Hi|]);
    (destruct (at_returns arguments 0) as [a ->]; [lia|]);
    (destruct (at_returns arguments 1) as [b ->]; [lia|]); by eexists.
Qed.

Lemma encodeExpression_returns e :
  wellFormed e = true → ∀ s, ∃ r, encodeExpression e s = Ok r.
Proof.
  induction e as [functionName arguments IH|name|kind value]
    using Expression_nested_ind; intros Hwf s.
  - rewrite encodeExpression_call. cbn [yul.wellFormed] in Hwf.
    destruct (instructionOf m_dialect functionName) as [i|]; [|by eexists].
    apply andb_true_iff in Hwf as [Hargs Hcount].
    unfold encodeBuiltin.
    destruct (traverse_returns encodeExpression arguments) with (s := s)
      as [encoded Hencoded].
    { rewrite Forall_forall in IH. apply Forall_forall. intros a Ha.
      apply IH; [done|].
      rewrite forallb_forall in Hargs. apply Hargs.
      by apply list_elem_of_In. }
    rewrite Hencoded. cbn [bindR].
    apply encodeInstruction_returns.
    apply orb_true_iff in Hcount as [Hcount|Hcount].
    + left. by apply negb_true_iff.
    + right. apply Nat.leb_le in Hcount.
      by rewrite (traverse_length _ _ _ _ Hencoded).
  - cbn [yul.encodeExpression]. case_match; by eexists.
  - by eexists.
Qed.

(** *** New variables are fresh *)

Lemma uniqueName_inj k c :
  "expr_" +:+ to_string_N k = "expr_" +:+ to_string_N c → k = c.
Proof. intros H. injection H as H. by apply (inj pretty). Qed.

(** A loop whose steps each advance a counter by at most the size of
    their element, and keep an invariant as long as the counter stays
    below a bound, does the same on the sum of the sizes. *)
Lemma traverse_bounded {A B S : Type} (I : S → Prop) (counter : S → N) (bound : N)
    (f : A → S → Result (B * S)) (size : A → N) l :
  Forall (λ x, ∀ s r, f x s = Ok r → counter s + size x < bound → I s →
               I r.2 ∧ counter s ≤ counter r.2 ∧ counter r.2 ≤ counter s + size x) l →
  ∀ s r, traverse f l s = Ok r →
         counter s + foldr (λ x n, size x + n) 0 l < bound → I s →
         I r.2 ∧ counter s ≤ counter r.2 ∧
         counter r.2 ≤ counter s + foldr (λ x n, size x + n) 0 l.
Proof.
  induction 1 as [|x l Hx _ IH]; intros s r Hr Hbound HI.
  - apply Ok_inj in Hr as <-. simpl. split; [done|lia].
  - rewrite traverse_cons in Hr. cbn [foldr] in *.
    apply bindR_Ok in Hr as (first & Hfirst & Hr).
    apply bindR_Ok in Hr as (others & Hothers & Hr).
    apply Ok_inj in Hr as <-. cbn [fst snd].
    destruct (Hx _ _ Hfirst) as (HI1 & Hle1 & Hle1'); [lia|done|].
    destruct (IH _ _ Hothers) as (HI2 & Hle2 & Hle2'); [lia|done|].
    split; [done|lia].
Qed.

Lemma newVariable_fresh s :
  namesBelowCounter s →
  (("expr_" +:+ to_string_N (m_varCounter s)) ∉ smt.declared (m_solver s)) ∧
  (m_varCounter s + 1 < 2 ^ 64 →
   namesBelowCounter (newVariable s).2 ∧
   m_varCounter (newVariable s).2 = m_varCounter s + 1).
Proof.
  intros Hbelow. split.
  - intros Hin. apply Hbelow in Hin. lia.
  - intros Hbound. unfold namesBelowCounter, newVariable. simpl.
    unfold wrap64. rewrite N.mod_small by done. split; [|done].
    intros k Hk. apply elem_of_cons in Hk as [Hk|Hk].
    + apply uniqueName_inj in Hk as ->. lia.
    + apply Hbelow in Hk. lia.
Qed.

Lemma encodeInstruction_counter i arguments s r :
  encodeInstruction i arguments s = Ok r →
  m_varCounter s + 1 < 2 ^ 64 → namesBelowCounter s →
  namesBelowCounter r.2 ∧ m_varCounter s ≤ m_varCounter r.2 ∧
  m_varCounter r.2 ≤ m_varCounter s + 1.
Proof.
  unfold encodeInstruction. intros Hr Hbound Hbelow.
  repeat case_match;
    try (apply bindR_Ok in Hr as (a & _ & Hr);
         apply bindR_Ok in Hr as (b & _ & Hr));
    apply Ok_inj in Hr as <-; cbn [fst snd]; try (split; [done|lia]).
  destruct (newVariable_fresh s Hbelow) as [_ Hnew].
  destruct (Hnew Hbound) as [? ->]. split; [done|lia].
Qed.

(** The encoding keeps the declared names below the counter, as long as
    the counter cannot overflow. *)
Lemma encodeExpression_counter e :
  ∀ s r, encodeExpression e s = Ok r →
         m_varCounter s + size e < 2 ^ 64 → namesBelowCounter s →
         namesBelowCounter r.2 ∧ m_varCounter s ≤ m_varCounter r.2 ∧
         m_varCounter r.2 ≤ m_varCounter s + size e.
Proof.
  induction e as [functionName arguments IH|name|kind value]
    using Expression_nested_ind; intros s r Hr Hbound Hbelow.
  - rewrite encodeExpression_call in Hr. cbn [size] in *.
    destruct (instructionOf m_dialect functionName) as [i|].
    + unfold encodeBuiltin in Hr.
      apply bindR_Ok in Hr as (encoded & Hencoded & Hr).
      destruct (traverse_bounded namesBelowCounter m_varCounter (2 ^ 64)
                  encodeExpression size arguments IH _ _ Hencoded)
        as (Hbelow1 & Hle1 & Hle1'); [lia|done|].
      destruct (encodeInstruction_counter _ _ _ _ Hr) as (Hbelow2 & Hle2 & Hle2');
        [lia|done|].
      split; [done|lia].
    + apply Ok_inj in Hr as <-.
      destruct (newVariable_fresh s Hbelow) as [_ Hnew].
      destruct Hnew as [? ->]; [lia|]. split; [done|lia].
  - cbn [yul.encodeExpression size] in *. case_match; apply Ok_inj in Hr as <-.
    + split; [done|]. cbn [snd]. lia.
    + destruct (newVariable_fresh s Hbelow) as [_ Hnew].
      destruct Hnew as [? ->]; [lia|]. split; [done|lia].
  - apply Ok_inj in Hr as <-. split; [done|]. cbn [snd size]. lia.
Qed.

End Encoding.

(** ** The walk *)

Global Instance grows_reflexive : Reflexive yul.grows.
Proof. intros s. unfold yul.grows. reflexivity. Qed.

Global Instance grows_transitive : Transitive yul.grows.
Proof. intros a b c. unfold yul.grows. apply transitivity. Qed.

Lemma extends_same solver solver' :
  smt.scopes solver' = smt.scopes solver →
  smt.ground solver' = smt.ground solver →
  yul.extends solver solver'.
Proof.
  intros Hscopes Hground. unfold yul.extends. rewrite Hscopes, Hground.
  destruct (smt.scopes solver); [by exists []|]. split; [by exists []|done].
Qed.

Lemma sameAssertions_grows s s' : yul.sameAssertions s s' → yul.grows s s'.
Proof. intros (Hscopes & Hground & _). by apply extends_same. Qed.

Section Walk.
Import yul.

Variable m_dialect : Dialect.
Variable m_ssaVariables : gset YulString.
Variable decide : list smt.Expression → smt.CheckResult.
Variable valueOfLiteral : LiteralKind → YulString → Z.

Local Abbreviation encodeExpression :=
  (encodeExpression m_dialect m_ssaVariables valueOfLiteral).
Local Abbreviation visit := (visit m_dialect m_ssaVariables decide valueOfLiteral).
Local Abbreviation visitBlock :=
  (visitBlock m_dialect m_ssaVariables decide valueOfLiteral).
Local Abbreviation visitVariableDeclaration :=
  (visitVariableDeclaration m_dialect m_ssaVariables valueOfLiteral).
Local Abbreviation wellFormed := (wellFormed m_dialect).
Local Abbreviation wellFormedStatement := (wellFormedStatement m_dialect).

(** Both hypothetical scopes are closed again: the solver comes back as it
    was, and the condition is rewritten by the two answers. *)
Lemma simplifyCondition_closed condition _condition solver :
  simplifyCondition decide condition _condition solver
  = Ok (rewritten
          (decide (smt.Equal condition (smt.Constant 0) :: smt.assertions solver))
          (decide (smt.NotEqual condition (smt.Constant 0) :: smt.assertions solver))
          _condition,
        solver).
Proof.
  unfold simplifyCondition, rewritten, smt.check.
  rewrite !assertions_hypothetical, pop_hypothetical. cbn [bindR].
  rewrite !assertions_hypothetical, pop_hypothetical. cbn [bindR].
  by repeat case_bool_decide.
Qed.

Lemma visit_If _condition body s :
  visit (If _condition body) s
  = let* encoded := encodeExpression _condition s in
    let* simplified :=
      simplifyCondition decide encoded.1 _condition (m_solver encoded.2) in
    let* walked :=
      visitBlock body (set_solver (enterBody encoded.1 simplified.2) encoded.2) in
    let* solver := smt.pop (m_solver walked.2) in
    Ok (If simplified.1 walked.1, set_solver solver walked.2).
Proof. reflexivity. Qed.

Lemma visitVariableDeclaration_grows variables value s s' :
  visitVariableDeclaration variables value s = Ok s' → grows s s'.
Proof.
  unfold yul.visitVariableDeclaration. intros Hs'.
  destruct variables as [|varName [|]]; try (apply Ok_inj in Hs' as <-; reflexivity).
  destruct value as [value|]; [|apply Ok_inj in Hs' as <-; reflexivity].
  destruct (negb (bool_decide (varName ∈ m_ssaVariables)));
    [apply Ok_inj in Hs' as <-; reflexivity|].
  cbn [smt.newVariable] in Hs'.
  apply bindR_Ok in Hs' as (encoded & Hencoded & Hs').
  apply Ok_inj in Hs' as <-.
  apply encodeExpression_sameAssertions, sameAssertions_grows in Hencoded.
  etrans; [|etrans; [exact Hencoded|]].
  - by apply extends_same.
  - unfold grows. cbn [m_solver set_solver]. apply extends_addAssertion.
Qed.

Lemma visit_grows statement :
  ∀ s r, visit statement s = Ok r → grows s r.2.
Proof.
  induction statement
    as [e|names value|variables value|name parameters returnVariables body IH
       |condition body IH|e cases IH|pre condition post body IHpre IHpost IHbody
       | | | |statements IH] using Statement_nested_ind; intros s r Hr;
    try (apply Ok_inj in Hr as <-; reflexivity).
  - cbn [yul.visit] in Hr. apply bindR_Ok in Hr as (s1 & Hs1 & Hr).
    apply Ok_inj in Hr as <-. by apply visitVariableDeclaration_grows in Hs1.
  - cbn [yul.visit] in Hr. apply bindR_Ok in Hr as (walked & Hwalked & Hr).
    apply Ok_inj in Hr as <-.
    by apply (traverse_respects grows _ _ IH) in Hwalked.
  - rewrite visit_If in Hr.
    apply bindR_Ok in Hr as (encoded & Hencoded & Hr).
    rewrite simplifyCondition_closed in Hr. cbn [bindR fst snd] in Hr.
    apply bindR_Ok in Hr as (walked & Hwalked & Hr).
    apply bindR_Ok in Hr as (solver & Hsolver & Hr).
    apply Ok_inj in Hr as <-.
    apply (traverse_respects grows _ _ IH) in Hwalked.
    apply pop_extends in Hwalked as (popped & Hpopped & Hscopes & Hground).
    rewrite Hsolver in Hpopped. apply Ok_inj in Hpopped as <-.
    apply encodeExpression_sameAssertions in Hencoded as (Hscopes' & Hground' & _).
    apply extends_same; cbn [m_solver set_solver fst snd]; congruence.
  - cbn [yul.visit] in Hr. apply bindR_Ok in Hr as (walked & Hwalked & Hr).
    apply Ok_inj in Hr as <-.
    refine (traverse_respects grows _ _ _ _ _ Hwalked).
    eapply Forall_impl; [exact IH|]. intros _case IHcase s' r' Hr'.
    apply bindR_Ok in Hr' as (body & Hbody & Hr').
    apply Ok_inj in Hr' as <-.
    by apply (traverse_respects grows _ _ IHcase) in Hbody.
  - cbn [yul.visit] in Hr.
    apply bindR_Ok in Hr as (walkedPre & HwalkedPre & Hr).
    apply bindR_Ok in Hr as (walkedPost & HwalkedPost & Hr).
    apply bindR_Ok in Hr as (walkedBody & HwalkedBody & Hr).
    apply Ok_inj in Hr as <-.
    apply (traverse_respects grows _ _ IHpre) in HwalkedPre.
    apply (traverse_respects grows _ _ IHpost) in HwalkedPost.
    apply (traverse_respects grows _ _ IHbody) in HwalkedBody.
    etrans; [exact HwalkedPre|]. etrans; [exact HwalkedPost|]. exact HwalkedBody.
  - cbn [yul.visit] in Hr. apply bindR_Ok in Hr as (walked & Hwalked & Hr).
    apply Ok_inj in Hr as <-.
    by apply (traverse_respects grows _ _ IH) in Hwalked.
Qed.


(** A loop returns when its steps return on the elements that pass a
    test, and all elements pass it. *)
Lemma traverse_returns_on {A B S : Type} (p : A → bool)
    (f : A → S → Result (B * S)) l :
  Forall (λ x, p x = true → ∀ s, ∃ r, f x s = Ok r) l →
  forallb p l = true →
  ∀ s, ∃ r, traverse f l s = Ok r.
Proof.
  intros Hsteps Hall. apply traverse_returns.
  rewrite Forall_forall in Hsteps. apply Forall_forall. intros x Hx.
  apply Hsteps; [done|].
  rewrite forallb_forall in Hall. apply Hall. by apply list_elem_of_In.
Qed.

Lemma visitVariableDeclaration_returns variables value s :
  wellFormedStatement (VariableDeclaration variables value) = true →
  ∃ s', visitVariableDeclaration variables value s = Ok s'.
Proof.
  unfold yul.visitVariableDeclaration. intros Hwf.
  destruct variables as [|varName [|]]; try by eexists.
  destruct value as [value|]; [|by eexists].
  destruct (negb (bool_decide (varName ∈ m_ssaVariables))); [by eexists|].
  cbn [smt.newVariable yul.wellFormedStatement] in *.
  match goal with |- context [yul.encodeExpression _ _ _ value ?s1] =>
    destruct (encodeExpression_returns m_dialect m_ssaVariables valueOfLiteral
                value Hwf s1) as [encoded ->] end.
  by eexists.
Qed.

(** On well-formed code the walk returns. *)
Lemma visit_returns statement :
  wellFormedStatement statement = true → ∀ s, ∃ r, visit statement s = Ok r.
Proof.
  induction statement
    as [e|names value|variables value|name parameters returnVariables body IH
       |condition body IH|e cases IH|pre condition post body IHpre IHpost IHbody
       | | | |statements IH] using Statement_nested_ind; intros Hwf s;
    try by eexists.
  - cbn [yul.visit].
    destruct (visitVariableDeclaration_returns variables value s Hwf) as [s' ->].
    by eexists.
  - cbn [yul.visit yul.wellFormedStatement] in *.
    destruct (traverse_returns_on _ visit body IH Hwf s) as [walked ->].
    by eexists.
  - rewrite visit_If. cbn [yul.wellFormedStatement] in Hwf.
    apply andb_true_iff in Hwf as [Hcondition Hbody].
    destruct (encodeExpression_returns m_dialect m_ssaVariables valueOfLiteral
                condition Hcondition s) as [encoded ->].
    cbn [bindR]. rewrite simplifyCondition_closed. cbn [bindR fst snd].
    destruct (traverse_returns_on _ visit body IH Hbody
                (set_solver (enterBody encoded.1 (m_solver encoded.2)) encoded.2))
      as [walked Hwalked].
    unfold yul.visitBlock. rewrite Hwalked. cbn [bindR].
    apply (traverse_respects grows) in Hwalked.
    2:{ eapply Forall_impl; [exact IH|]. intros x _. apply visit_grows. }
    apply pop_extends in Hwalked as (popped & -> & _). by eexists.
  - cbn [yul.visit yul.wellFormedStatement] in *.
    match goal with |- context [traverse ?f cases s] =>
      destruct (traverse_returns_on
                  (λ _case, forallb wellFormedStatement _case.2) f cases)
        with (s := s) as [walked ->] end; [|done|by eexists].
    eapply Forall_impl; [exact IH|].
    intros _case IHcase Hcase s'. cbn beta in *.
    destruct (traverse_returns_on _ visit _case.2 IHcase Hcase s') as [body ->].
    by eexists.
  - cbn [yul.visit yul.wellFormedStatement] in *.
    apply andb_true_iff in Hwf as [Hwf Hbody].
    apply andb_true_iff in Hwf as [Hpre Hpost].
    destruct (traverse_returns_on _ visit pre IHpre Hpre s) as [walkedPre ->].
    cbn [bindR].
    destruct (traverse_returns_on _ visit post IHpost Hpost walkedPre.2)
      as [walkedPost ->].
    cbn [bindR].
    destruct (traverse_returns_on _ visit body IHbody Hbody walkedPost.2)
      as [walkedBody ->].
    by eexists.
  - cbn [yul.visit yul.wellFormedStatement] in *.
    destruct (traverse_returns_on _ visit statements IH Hwf s) as [walked ->].
    by eexists.
Qed.

(** *** The walk keeps new variables fresh *)

Lemma namesBelowCounter_same s s' :
  smt.declared (m_solver s') = smt.declared (m_solver s) →
  m_varCounter s' = m_varCounter s →
  namesBelowCounter s → namesBelowCounter s'.
Proof. unfold namesBelowCounter. by intros -> ->. Qed.

Lemma declared_addAssertion e solver :
  smt.declared (smt.addAssertion e solver) = smt.declared solver.
Proof. unfold smt.addAssertion. by destruct (smt.scopes solver). Qed.

Lemma declared_pop solver popped :
  smt.pop solver = Ok popped → smt.declared popped = smt.declared solver.
Proof.
  unfold smt.pop. destruct (smt.scopes solver); [done|].
  intros Hpop. by apply Ok_inj in Hpop as <-.
Qed.

Lemma visitVariableDeclaration_counter variables value s s' :
  visitVariableDeclaration variables value s = Ok s' →
  m_varCounter s + encodedSize (VariableDeclaration variables value) < 2 ^ 64 →
  namesBelowCounter s →
  namesBelowCounter s' ∧ m_varCounter s ≤ m_varCounter s' ∧
  m_varCounter s' ≤ m_varCounter s + encodedSize (VariableDeclaration variables value).
Proof.
  unfold yul.visitVariableDeclaration. intros Hs' Hbound Hbelow.
  destruct variables as [|varName [|]];
    try (apply Ok_inj in Hs' as <-; split; [done|lia]).
  destruct value as [value|]; [|apply Ok_inj in Hs' as <-; split; [done|lia]].
  destruct (negb (bool_decide (varName ∈ m_ssaVariables)));
    [apply Ok_inj in Hs' as <-; split; [done|lia]|].
  cbn [smt.newVariable encodedSize] in *.
  apply bindR_Ok in Hs' as (encoded & Hencoded & Hs').
  apply Ok_inj in Hs' as <-.
  apply encodeExpression_counter in Hencoded as (Hbelow' & Hle & Hle');
    [|done|].
  - split; [|done].
    revert Hbelow'. apply namesBelowCounter_same; [|done].
    cbn [m_solver set_solver]. apply declared_addAssertion.
  - intros k Hk. cbn [m_solver smt.declared m_varCounter] in *.
    apply elem_of_cons in Hk as [Hk|Hk]; [done|]. by apply Hbelow.
Qed.

Lemma visit_counter statement :
  ∀ s r, visit statement s = Ok r →
         m_varCounter s + encodedSize statement < 2 ^ 64 → namesBelowCounter s →
         namesBelowCounter r.2 ∧ m_varCounter s ≤ m_varCounter r.2 ∧
         m_varCounter r.2 ≤ m_varCounter s + encodedSize statement.
Proof.
  induction statement
    as [e|names value|variables value|name parameters returnVariables body IH
       |condition body IH|e cases IH|pre condition post body IHpre IHpost IHbody
       | | | |statements IH] using Statement_nested_ind; intros s r Hr Hbound Hbelow;
    try (apply Ok_inj in Hr as <-; split; [done|cbn [snd]; lia]).
  - cbn [yul.visit] in Hr. apply bindR_Ok in Hr as (s1 & Hs1 & Hr).
    apply Ok_inj in Hr as <-. by apply visitVariableDeclaration_counter in Hs1.
  - cbn [yul.visit encodedSize] in *.
    apply bindR_Ok in Hr as (walked & Hwalked & Hr). apply Ok_inj in Hr as <-.
    by apply (traverse_bounded namesBelowCounter m_varCounter (2 ^ 64)
                visit encodedSize body IH) in Hwalked.
  - rewrite visit_If in Hr. cbn [encodedSize] in *.
    apply bindR_Ok in Hr as (encoded & Hencoded & Hr).
    rewrite simplifyCondition_closed in Hr. cbn [bindR fst snd] in Hr.
    apply bindR_Ok in Hr as (walked & Hwalked & Hr).
    apply bindR_Ok in Hr as (solver & Hsolver & Hr).
    apply Ok_inj in Hr as <-. cbn [fst snd].
    apply encodeExpression_counter in Hencoded as (Hbelow1 & Hle1 & Hle1');
      [|lia|done].
    apply (traverse_bounded namesBelowCounter m_varCounter (2 ^ 64)
             visit encodedSize body IH) in Hwalked as (Hbelow2 & Hle2 & Hle2').
    + cbn [m_varCounter set_solver] in *. split; [|lia].
      revert Hbelow2. apply namesBelowCounter_same; [|done].
      cbn [m_solver set_solver]. by apply declared_pop.
    + cbn [m_varCounter set_solver]. lia.
    + revert Hbelow1. apply namesBelowCounter_same; [|done].
      cbn [m_solver set_solver]. unfold enterBody.
      by rewrite declared_addAssertion.
  - cbn [yul.visit encodedSize] in *.
    apply bindR_Ok in Hr as (walked & Hwalked & Hr). apply Ok_inj in Hr as <-.
    refine (traverse_bounded namesBelowCounter m_varCounter (2 ^ 64) _
              (λ _case, foldr (λ x n, encodedSize x + n) 0 _case.2)
              cases _ _ _ Hwalked Hbound Hbelow).
    eapply Forall_impl; [exact IH|]. intros _case IHcase s' r' Hr' Hbound' Hbelow'.
    apply bindR_Ok in Hr' as (walkedBody & HwalkedBody & Hr').
    apply Ok_inj in Hr' as <-.
    by apply (traverse_bounded namesBelowCounter m_varCounter (2 ^ 64)
                visit encodedSize _case.2 IHcase) in HwalkedBody.
  - cbn [yul.visit encodedSize] in *.
    apply bindR_Ok in Hr as (walkedPre & HwalkedPre & Hr).
    apply bindR_Ok in Hr as (walkedPost & HwalkedPost & Hr).
    apply bindR_Ok in Hr as (walkedBody & HwalkedBody & Hr).
    apply Ok_inj in Hr as <-. cbn [fst snd].
    apply (traverse_bounded namesBelowCounter m_varCounter (2 ^ 64)
             visit encodedSize pre IHpre) in HwalkedPre as (Hbelow1 & ? & ?);
      [|lia|done].
    apply (traverse_bounded namesBelowCounter m_varCounter (2 ^ 64)
             visit encodedSize post IHpost) in HwalkedPost as (Hbelow2 & ? & ?);
      [|lia|done].
    apply (traverse_bounded namesBelowCounter m_varCounter (2 ^ 64)
             visit encodedSize body IHbody) in HwalkedBody as (Hbelow3 & ? & ?);
      [|lia|done].
    split; [done|lia].
  - cbn [yul.visit encodedSize] in *.
    apply bindR_Ok in Hr as (walked & Hwalked & Hr). apply Ok_inj in Hr as <-.
    by apply (traverse_bounded namesBelowCounter m_varCounter (2 ^ 64)
                visit encodedSize statements IH) in Hwalked.
Qed.

Lemma rewritten_cases ifZero ifNotZero _condition :
  (ifNotZero = smt.UNSATISFIABLE →
   rewritten ifZero ifNotZero _condition = Literal Number "0") ∧
  (ifNotZero ≠ smt.UNSATISFIABLE → ifZero = smt.UNSATISFIABLE →
   rewritten ifZero ifNotZero _condition = Literal Number "1") ∧
  (ifNotZero ≠ smt.UNSATISFIABLE → ifZero ≠ smt.UNSATISFIABLE →
   rewritten ifZero ifNotZero _condition = _condition).
Proof. unfold rewritten. repeat split; intros; by repeat case_bool_decide. Qed.

(** The visit of an [If], step by step. *)
Lemma visit_If_steps _condition body s r :
  visit (If _condition body) s = Ok r →
  ∃ encoded walked,
    encodeExpression _condition s = Ok encoded ∧
    visitBlock body (set_solver (enterBody encoded.1 (m_solver encoded.2)) encoded.2)
      = Ok walked ∧
    smt.pop (m_solver walked.2) = Ok (m_solver r.2) ∧
    r.1 = If (rewritten
                (decide (smt.Equal encoded.1 (smt.Constant 0)
                           :: smt.assertions (m_solver s)))
                (decide (smt.NotEqual encoded.1 (smt.Constant 0)
                           :: smt.assertions (m_solver s)))
                _condition) walked.1 ∧
    smt.scopes (m_solver encoded.2) = smt.scopes (m_solver s) ∧
    smt.ground (m_solver encoded.2) = smt.ground (m_solver s) ∧
    smt.scopes (m_solver r.2) = smt.scopes (m_solver s) ∧
    smt.ground (m_solver r.2) = smt.ground (m_solver s).
Proof.
  rewrite visit_If. intros Hr.
  apply bindR_Ok in Hr as (encoded & Hencoded & Hr).
  rewrite simplifyCondition_closed in Hr. cbn [bindR fst snd] in Hr.
  apply bindR_Ok in Hr as (walked & Hwalked & Hr).
  apply bindR_Ok in Hr as (solver & Hsolver & Hr).
  apply Ok_inj in Hr as <-. cbn [fst snd m_solver set_solver].
  exists encoded, walked.
  pose proof (encodeExpression_sameAssertions _ _ _ _ _ _ Hencoded)
    as (Hscopes & Hground & _).
  rewrite (assertions_same _ _ Hscopes Hground).
  pose proof Hwalked as Hgrows. unfold yul.visitBlock in Hgrows.
  apply (traverse_respects grows) in Hgrows.
  2:{ apply Forall_forall. intros x _. apply visit_grows. }
  apply pop_extends in Hgrows as (popped & Hpopped & Hscopes' & Hground').
  rewrite Hsolver in Hpopped. apply Ok_inj in Hpopped as <-.
  repeat split; try done; congruence.
Qed.

(** C7, as the code has it: on well-formed code the visit of an [If]
    returns, and when it returns, the condition it leaves is decided by
    the prover's two answers on the assertions in force: the literal "0"
    when "condition not equal to zero" is UNSATISFIABLE; otherwise the
    literal "1" when "condition equals zero" is UNSATISFIABLE; otherwise
    the condition as it was.  No other answer, UNKNOWN included, causes a
    rewrite. *)
Theorem visit_If_rewrites _condition body s :
  (wellFormedStatement (If _condition body) = true →
   ∃ r, visit (If _condition body) s = Ok r) ∧
  ∀ r,
    visit (If _condition body) s = Ok r →
    ∃ encoded walked ifZero ifNotZero,
      encodeExpression _condition s = Ok encoded ∧
      ifZero = decide (smt.Equal encoded.1 (smt.Constant 0)
                         :: smt.assertions (m_solver s)) ∧
      ifNotZero = decide (smt.NotEqual encoded.1 (smt.Constant 0)
                            :: smt.assertions (m_solver s)) ∧
      r.1 = If (rewritten ifZero ifNotZero _condition) walked ∧
      (ifNotZero = smt.UNSATISFIABLE →
       rewritten ifZero ifNotZero _condition = Literal Number "0") ∧
      (ifNotZero ≠ smt.UNSATISFIABLE → ifZero = smt.UNSATISFIABLE →
       rewritten ifZero ifNotZero _condition = Literal Number "1") ∧
      (ifNotZero ≠ smt.UNSATISFIABLE → ifZero ≠ smt.UNSATISFIABLE →
       rewritten ifZero ifNotZero _condition = _condition).
Proof.
  split; [intros Hwf; by apply visit_returns|].
  intros r Hr.
  destruct (visit_If_steps _ _ _ _ Hr) as (encoded & walked & Hencoded & _ & _ & Hr1 & _).
  exists encoded, walked.1. do 2 eexists.
  split; [done|]. split; [done|]. split; [done|].
  split; [exact Hr1|apply rewritten_cases].
Qed.

(** C8: on well-formed code the visit of an [If] returns, and when it
    returns, both hypothetical scopes were closed before the body: the
    body was visited in a solver with one
    scope more than before the visit, holding the one assertion
    "condition not equal to zero"; that scope is popped after the body;
    and the solver then has the scopes, the depth and the assertions that
    it had before the visit, so that a query made after the visit is made
    on the assertions on which it would have been made before. *)
Theorem visit_If_scoped _condition body s :
  (wellFormedStatement (If _condition body) = true →
   ∃ r, visit (If _condition body) s = Ok r) ∧
  ∀ r,
    visit (If _condition body) s = Ok r →
    ∃ encoded walked newCondition,
      encodeExpression _condition s = Ok encoded ∧
      simplifyCondition decide encoded.1 _condition (m_solver encoded.2)
        = Ok (newCondition, m_solver encoded.2) ∧
      let entered := enterBody encoded.1 (m_solver encoded.2) in
      smt.scopes entered
        = [smt.NotEqual encoded.1 (smt.Constant 0)] :: smt.scopes (m_solver s) ∧
      smt.ground entered = smt.ground (m_solver s) ∧
      smt.assertions entered
        = smt.NotEqual encoded.1 (smt.Constant 0) :: smt.assertions (m_solver s) ∧
      visitBlock body (set_solver entered encoded.2) = Ok walked ∧
      smt.pop (m_solver walked.2) = Ok (m_solver r.2) ∧
      smt.scopes (m_solver r.2) = smt.scopes (m_solver s) ∧
      smt.ground (m_solver r.2) = smt.ground (m_solver s) ∧
      length (smt.scopes (m_solver r.2)) = length (smt.scopes (m_solver s)) ∧
      smt.assertions (m_solver r.2) = smt.assertions (m_solver s) ∧
      ∀ assumption,
        smt.check decide (smt.addAssertion assumption (smt.push (m_solver r.2)))
        = smt.check decide (smt.addAssertion assumption (smt.push (m_solver s))).
Proof.
  split; [intros Hwf; by apply visit_returns|].
  intros r Hr.
  destruct (visit_If_steps _ _ _ _ Hr)
    as (encoded & walked & Hencoded & Hwalked & Hpop & _ &
        Hscopes & Hground & Hscopes' & Hground').
  exists encoded, walked. eexists.
  split; [done|]. split; [apply simplifyCondition_closed|].
  cbv zeta. unfold enterBody.
  rewrite assertions_hypothetical.
  destruct (scopes_hypothetical (smt.NotEqual encoded.1 (smt.Constant 0))
              (m_solver encoded.2)) as [-> ->].
  rewrite (assertions_same _ _ Hscopes Hground), Hscopes, Hground.
  repeat split; try done.
  - by rewrite Hscopes'.
  - by apply assertions_same.
  - intros assumption. unfold smt.check. rewrite !assertions_hypothetical.
    by rewrite (assertions_same _ _ Hscopes' Hground').
Qed.

(** C9: on well-formed code the encoding returns.  A call whose name is
    not a builtin with an instruction is encoded as a new variable, and so
    is, once its arguments are encoded, a call of a builtin whose
    instruction is none of [LT], [GT] and [ADD]; an identifier is encoded
    as the variable bound to it when it is a single-assignment variable
    with a binding, and as a new variable otherwise; a literal is encoded
    as the constant of its value.  A new variable is named after the
    counter, and making it adds no assertion; its name is not yet declared
    to the solver when the names declared were made of lower values of
    the counter, which the encoding keeps true as long as the counter
    cannot overflow. *)
Theorem encodeExpression_degrades :
  (∀ e s, wellFormed e = true → ∃ r, encodeExpression e s = Ok r) ∧
  (∀ functionName arguments s,
     instructionOf m_dialect functionName = None →
     encodeExpression (FunctionCall functionName arguments) s = Ok (newVariable s)) ∧
  (∀ functionName arguments i s,
     instructionOf m_dialect functionName = Some i →
     i ≠ LT → i ≠ GT → i ≠ ADD →
     forallb wellFormed arguments = true →
     ∃ encoded,
       traverse encodeExpression arguments s = Ok encoded ∧
       encodeExpression (FunctionCall functionName arguments) s
         = Ok (newVariable encoded.2)) ∧
  (∀ name s,
     ¬ (name ∈ m_ssaVariables ∧ is_Some (m_variables s !! name)) →
     encodeExpression (Identifier name) s = Ok (newVariable s)) ∧
  (∀ name s variable,
     name ∈ m_ssaVariables → m_variables s !! name = Some variable →
     encodeExpression (Identifier name) s = Ok (variable, s)) ∧
  (∀ kind value s,
     encodeExpression (Literal kind value) s
       = Ok (smt.Constant (valueOfLiteral kind value), s)) ∧
  (∀ s,
     (newVariable s).1 = smt.Var ("expr_" +:+ to_string_N (m_varCounter s)) ∧
     m_varCounter (newVariable s).2 = wrap64 (m_varCounter s + 1) ∧
     sameAssertions s (newVariable s).2) ∧
  (∀ s,
     namesBelowCounter s →
     ("expr_" +:+ to_string_N (m_varCounter s)) ∉ smt.declared (m_solver s)) ∧
  (∀ e s r,
     encodeExpression e s = Ok r →
     m_varCounter s + size e < 2 ^ 64 →
     namesBelowCounter s → namesBelowCounter r.2).
Proof.
  split; [intros e s Hwf; by apply encodeExpression_returns|].
  split; [intros functionName arguments s Hnone;
          by rewrite encodeExpression_call, Hnone|].
  split.
  { intros functionName arguments i s Hsome Hlt Hgt Hadd Hwf.
    rewrite encodeExpression_call, Hsome. unfold encodeBuiltin.
    destruct (traverse_returns_on wellFormed encodeExpression arguments)
      with (s := s) as [encoded Hencoded]; [|done|].
    { apply Forall_forall. intros a _ Ha.
      by apply encodeExpression_returns. }
    exists encoded. split; [done|]. rewrite Hencoded. cbn [bindR].
    unfold encodeInstruction.
    by rewrite (proj2 (N.eqb_neq _ _) Hlt), (proj2 (N.eqb_neq _ _) Hgt),
      (proj2 (N.eqb_neq _ _) Hadd). }
  split.
  { intros name s Hnot. cbn [yul.encodeExpression].
    destruct (bool_decide (name ∈ m_ssaVariables)) eqn:Hssa; [|done].
    destruct (bool_decide (is_Some (m_variables s !! name))) eqn:Hbound; [|done].
    apply bool_decide_eq_true in Hssa, Hbound. by destruct Hnot. }
  split.
  { intros name s variable Hssa Hbound. cbn [yul.encodeExpression].
    rewrite Hbound.
    by rewrite !bool_decide_eq_true_2. }
  split; [done|].
  split; [intros s; by repeat split|].
  split; [intros s Hbelow; by apply newVariable_fresh|].
  intros e s r Hr Hbound Hbelow.
  by destruct (encodeExpression_counter m_dialect m_ssaVariables valueOfLiteral
                 e s r Hr Hbound Hbelow).
Qed.

End Walk.

(** ** The small prover of the examples is sound *)

Section Prover.

Lemma evaluate_value env model e v :
  example.agrees env model → example.evaluate env e = Some v →
  example.value model e = v.
Proof.
  intros Hagrees. revert v.
  induction e as [z|name|a IHa b IHb|a IHa|a IHa b IHb|a IHa b IHb|a IHa b IHb
                 |c IHc t IHt f IHf]; intros v Hv;
    cbn [example.evaluate example.value] in *.
  - by injection Hv.
  - by apply Hagrees.
  - destruct (example.evaluate env a) as [x|]; [|done].
    destruct (example.evaluate env b) as [y|]; [|done].
    rewrite (IHa x eq_refl), (IHb y eq_refl). by injection Hv.
  - destruct (example.evaluate env a) as [x|]; [|done].
    rewrite (IHa x eq_refl). by injection Hv.
  - destruct (example.evaluate env a) as [x|]; [|done].
    destruct (example.evaluate env b) as [y|]; [|done].
    rewrite (IHa x eq_refl), (IHb y eq_refl). by injection Hv.
  - destruct (example.evaluate env a) as [x|]; [|done].
    destruct (example.evaluate env b) as [y|]; [|done].
    rewrite (IHa x eq_refl), (IHb y eq_refl). by injection Hv.
  - destruct (example.evaluate env a) as [x|]; [|done].
    destruct (example.evaluate env b) as [y|]; [|done].
    rewrite (IHa x eq_refl), (IHb y eq_refl). by injection Hv.
  - destruct (example.evaluate env c) as [x|]; [|done].
    rewrite (IHc x eq_refl). destruct (x =? 0)%Z; auto.
Qed.

Lemma learn_agrees env model assertion :
  example.agrees env model → example.value model assertion ≠ 0%Z →
  example.agrees (example.learn env assertion) model.
Proof.
  intros Hagrees Hholds. unfold example.learn.
  destruct assertion as [| |a b| | | | |]; try done.
  destruct a as [|name| | | | | |]; try done.
  destruct (env !! name) eqn:Hname; [done|].
  destruct (example.evaluate env b) as [v|] eqn:Hb; [|done].
  intros name' v' Hlookup.
  destruct (decide (name = name')) as [<-|Hne].
  - rewrite lookup_insert_eq in Hlookup. injection Hlookup as <-.
    cbn [example.value] in Hholds.
    rewrite (evaluate_value _ _ _ _ Hagrees Hb) in Hholds.
    by destruct (Z.eqb_spec (model name) v).
  - rewrite lookup_insert_ne in Hlookup by done. by apply Hagrees.
Qed.

Lemma learn_all_agrees assertions env model :
  example.agrees env model → Forall (λ a, example.value model a ≠ 0%Z) assertions →
  example.agrees (foldl example.learn env assertions) model.
Proof.
  revert env. induction assertions as [|a assertions IH]; intros env Hagrees Hall;
    [done|].
  apply Forall_cons in Hall as [Ha Hall]. cbn [foldl].
  apply IH; [|done]. by apply learn_agrees.
Qed.

(** When the prover answers UNSATISFIABLE, no assignment of integers to the
    variables makes all the assertions true. *)
Lemma decide_sound assertions model :
  example.decide assertions = smt.UNSATISFIABLE →
  ¬ Forall (λ a, example.value model a ≠ 0%Z) assertions.
Proof.
  unfold example.decide. intros Hdecide Hall.
  destruct (existsb _ _) eqn:Hexists.
  2:{ by destruct (forallb _ _). }
  apply existsb_exists in Hexists as (v & Hin & Hv).
  apply bool_decide_eq_true in Hv as ->.
  apply list_elem_of_In, list_elem_of_fmap in Hin as (a & Ha & Hin).
  assert (Forall (λ a, example.value model a ≠ 0%Z) (reverse assertions)) as Hall'.
  { apply Forall_forall. intros b Hb. rewrite Forall_forall in Hall.
    apply Hall. by apply elem_of_reverse. }
  pose proof (learn_all_agrees (reverse assertions) ∅ model) as Hagrees.
  symmetry in Ha. apply (evaluate_value _ model) in Ha.
  - rewrite Forall_forall in Hall'. by apply (Hall' a).
  - apply Hagrees; [|done]. intros name v Hlookup. by rewrite lookup_empty in Hlookup.
Qed.

End Prover.

(** ** The examples of the simplifier *)

(** The [if] on [lt(x, 10)] after [let x := 5]: its visit returns, and
    the condition is rewritten to "1". *)
Lemma visit_If_rewrites_witness :
  yul.visit example.dialect {[ "x" ]} example.decide example.valueOfLiteral
    example.innerIf example.afterDeclaration
  = Ok (yul.If (yul.Literal yul.Number "1") [], example.afterDeclaration) ∧
  ∃ encoded walked ifZero ifNotZero,
    yul.encodeExpression example.dialect {[ "x" ]} example.valueOfLiteral
      (example.lt (yul.Identifier "x") (example.number "10")) example.afterDeclaration
      = Ok encoded ∧
    ifZero = example.decide (smt.Equal encoded.1 (smt.Constant 0)
               :: smt.assertions (yul.m_solver example.afterDeclaration)) ∧
    ifNotZero = example.decide (smt.NotEqual encoded.1 (smt.Constant 0)
                  :: smt.assertions (yul.m_solver example.afterDeclaration)) ∧
    (yul.If (yul.Literal yul.Number "1") [], example.afterDeclaration).1
      = yul.If (yul.rewritten ifZero ifNotZero
                  (example.lt (yul.Identifier "x") (example.number "10")))
               walked ∧
    (ifNotZero = smt.UNSATISFIABLE →
     yul.rewritten ifZero ifNotZero
       (example.lt (yul.Identifier "x") (example.number "10"))
     = yul.Literal yul.Number "0") ∧
    (ifNotZero ≠ smt.UNSATISFIABLE → ifZero = smt.UNSATISFIABLE →
     yul.rewritten ifZero ifNotZero
       (example.lt (yul.Identifier "x") (example.number "10"))
     = yul.Literal yul.Number "1") ∧
    (ifNotZero ≠ smt.UNSATISFIABLE → ifZero ≠ smt.UNSATISFIABLE →
     yul.rewritten ifZero ifNotZero
       (example.lt (yul.Identifier "x") (example.number "10"))
     = example.lt (yul.Identifier "x") (example.number "10")).
Proof.
  assert (yul.visit example.dialect {[ "x" ]} example.decide example.valueOfLiteral
            example.innerIf example.afterDeclaration
          = Ok (yul.If (yul.Literal yul.Number "1") [], example.afterDeclaration))
    as Hvisit by (vm_compute; reflexivity).
  split; [exact Hvisit|].
  exact (proj2 (visit_If_rewrites example.dialect {[ "x" ]} example.decide
                  example.valueOfLiteral
                  (example.lt (yul.Identifier "x") (example.number "10")) []
                  example.afterDeclaration) _ Hvisit).
Defined.

(** C7, as the spec words it, fails.  The walk of
    [let x := 5  if gt(x, 10) { if lt(x, 10) { } }] reaches the inner [if]
    in the state [atInnerIf]; there the prover reports UNSATISFIABLE for
    "condition equals zero", and the condition is left as the literal "0",
    not "1". *)
Lemma visit_If_both_refuted :
  (∃ encoded,
     yul.visit example.dialect {[ "x" ]} example.decide example.valueOfLiteral
       (yul.VariableDeclaration ["x"] (Some (example.number "5"))) yul.newSimplifier
       = Ok (yul.VariableDeclaration ["x"] (Some (example.number "5")),
             example.afterDeclaration) ∧
     yul.encodeExpression example.dialect {[ "x" ]} example.valueOfLiteral
       (example.gt (yul.Identifier "x") (example.number "10")) example.afterDeclaration
       = Ok encoded ∧
     yul.set_solver (yul.enterBody encoded.1 (yul.m_solver encoded.2)) encoded.2
       = example.atInnerIf) ∧
  ∃ encoded s',
    yul.encodeExpression example.dialect {[ "x" ]} example.valueOfLiteral
      (example.lt (yul.Identifier "x") (example.number "10")) example.atInnerIf
      = Ok encoded ∧
    example.decide (smt.Equal encoded.1 (smt.Constant 0)
                      :: smt.assertions (yul.m_solver example.atInnerIf))
      = smt.UNSATISFIABLE ∧
    yul.visit example.dialect {[ "x" ]} example.decide example.valueOfLiteral
      example.innerIf example.atInnerIf
      = Ok (yul.If (yul.Literal yul.Number "0") [], s').
Proof.
  split.
  - eexists. split; [vm_compute; reflexivity|].
    split; [vm_compute; reflexivity|]. vm_compute. reflexivity.
  - do 2 eexists. split; [vm_compute; reflexivity|].
    split; vm_compute; reflexivity.
Qed.

(** An [if] whose body declares a variable: the assertion made in the
    body goes with the scope of the body, and the solver has afterwards
    the assertions that it had before. *)
Lemma visit_If_scoped_witness :
  yul.visit example.dialect {[ "x"; "y" ]} example.decide example.valueOfLiteral
    example.declaringIf example.afterDeclaration
  = Ok (yul.If (yul.Literal yul.Number "1")
          [ yul.VariableDeclaration ["y"] (Some (yul.Identifier "x")) ],
        example.afterBody) ∧
  smt.scopes (yul.m_solver example.afterBody)
  = smt.scopes (yul.m_solver example.afterDeclaration) ∧
  smt.assertions (yul.m_solver example.afterBody)
  = smt.assertions (yul.m_solver example.afterDeclaration) ∧
  ∀ assumption,
    smt.check example.decide
      (smt.addAssertion assumption (smt.push (yul.m_solver example.afterBody)))
    = smt.check example.decide
        (smt.addAssertion assumption (smt.push (yul.m_solver example.afterDeclaration))).
Proof.
  assert (yul.visit example.dialect {[ "x"; "y" ]} example.decide
            example.valueOfLiteral example.declaringIf example.afterDeclaration
          = Ok (yul.If (yul.Literal yul.Number "1")
                  [ yul.VariableDeclaration ["y"] (Some (yul.Identifier "x")) ],
                example.afterBody)) as Hvisit
    by (vm_compute; reflexivity).
  split; [exact Hvisit|].
  destruct (proj2 (visit_If_scoped _ _ _ _ _ _ _) _ Hvisit)
    as (_ & _ & _ & _ & _ & _ & _ & _ & _ & _ & Hscopes & _ & _ & Hassertions & Hcheck).
  split; [exact Hscopes|]. split; [exact Hassertions|exact Hcheck].
Defined.

(** The encoding of [lt(mul(x, 2), y)] returns: the code is well formed. *)
Lemma encodeExpression_degrades_witness :
  yul.wellFormed example.dialect
    (example.lt
       (yul.FunctionCall "mul" [yul.Identifier "x"; example.number "2"])
       (yul.Identifier "y")) = true ∧
  ∃ r,
    yul.encodeExpression example.dialect {[ "x" ]} example.valueOfLiteral
      (example.lt
         (yul.FunctionCall "mul" [yul.Identifier "x"; example.number "2"])
         (yul.Identifier "y"))
      example.afterDeclaration
    = Ok r.
Proof.
  split; [reflexivity|].
  apply (proj1 (encodeExpression_degrades example.dialect {[ "x" ]}
                  example.valueOfLiteral)).
  reflexivity.
Defined.

(** What the encoding of [lt(mul(x, 2), y)] is: [mul] and [y] give the
    new variables [expr_0] and [expr_1]. *)
Example encodeExpression_unsupported :
  yul.encodeExpression example.dialect {[ "x" ]} example.valueOfLiteral
    (example.lt
       (yul.FunctionCall "mul" [yul.Identifier "x"; example.number "2"])
       (yul.Identifier "y"))
    example.afterDeclaration
  = Ok (smt.Ite (smt.LessThan (smt.Var "expr_0") (smt.Var "expr_1"))
                (smt.Constant 1) (smt.Constant 0),
        (yul.newVariable (yul.newVariable example.afterDeclaration).2).2).
Proof. vm_compute. reflexivity. Qed.

(** The examples of section 8 of the spec: with [x] defined as 5, the
    condition [lt(x, 10)] becomes "1", [gt(x, 10)] becomes "0", and a
    condition on an unknown [y] or on an unsupported operation stays. *)
Example run_branches :
  yul.run example.dialect {[ "x" ]} example.decide example.valueOfLiteral
    (example.branchOn (example.lt (yul.Identifier "x") (example.number "10")))
  = Ok [ yul.VariableDeclaration ["x"] (Some (example.number "5"));
         yul.If (yul.Literal yul.Number "1") [] ] ∧
  yul.run example.dialect {[ "x" ]} example.decide example.valueOfLiteral
    (example.branchOn (example.gt (yul.Identifier "x") (example.number "10")))
  = Ok [ yul.VariableDeclaration ["x"] (Some (example.number "5"));
         yul.If (yul.Literal yul.Number "0") [] ] ∧
  yul.run example.dialect {[ "x" ]} example.decide example.valueOfLiteral
    (example.branchOn (example.gt (yul.Identifier "y") (example.number "10")))
  = Ok (example.branchOn (example.gt (yul.Identifier "y") (example.number "10"))) ∧
  yul.run example.dialect {[ "x" ]} example.decide example.valueOfLiteral
    (example.branchOn
       (example.lt (yul.FunctionCall "mul" [yul.Identifier "x"; example.number "2"])
                   (example.number "10")))
  = Ok (example.branchOn
          (example.lt (yul.FunctionCall "mul" [yul.Identifier "x"; example.number "2"])
                      (example.number "10"))).
Proof. repeat split; vm_compute; reflexivity. Qed.

(** * Further properties of the code generation context *)

(** ** The queue, drained *)

Section Draining.
Import frontend.

(** Taking the first function out of the queue leaves the rest of the
    iteration. *)
Lemma iterate_difference (X : gset ptr) result rest :
  iterate X = result :: rest → iterate (X ∖ {[result]}) = rest.
Proof.
  intros Hiterate.
  pose proof (iterate_sorted X) as Hsorted. rewrite Hiterate in Hsorted.
  pose proof (iterate_NoDup X) as Hnodup. rewrite Hiterate in Hnodup.
  apply NoDup_cons in Hnodup as [Hnotin Hnodup].
  apply (StronglySorted_unique N.le).
  - apply iterate_sorted.
  - by inversion Hsorted.
  - apply NoDup_Permutation; [apply iterate_NoDup|done|].
    intros x. rewrite elem_of_iterate, elem_of_difference, elem_of_singleton.
    rewrite <- elem_of_iterate, Hiterate, elem_of_cons.
    split; [by intros [[?|?] ?]|]. intros Hin. split; [by right|by intros ->].
Qed.

Lemma set_functionGenerationQueue_same c :
  set_functionGenerationQueue (m_functionGenerationQueue c) c = c.
Proof. by destruct c. Qed.

Lemma dequeueFunctions_iterate l :
  ∀ c,
    iterate (m_functionGenerationQueue c) = l →
    dequeueFunctions (length l) c = Ok (l, set_functionGenerationQueue ∅ c).
Proof.
  induction l as [|result rest IH]; intros c Hiterate.
  - apply iterate_nil in Hiterate. simpl. rewrite <- Hiterate.
    by rewrite set_functionGenerationQueue_same.
  - cbn [length dequeueFunctions]. unfold dequeueFunctionForCodeGeneration.
    rewrite Hiterate. cbn [bindR fst snd].
    rewrite IH; [done|]. fields. by apply iterate_difference.
Qed.

Lemma dequeueFunctions_beyond l :
  ∀ c,
    iterate (m_functionGenerationQueue c) = l →
    dequeueFunctions (S (length l)) c = Throw (InternalCompilerError "").
Proof.
  induction l as [|result rest IH]; intros c Hiterate.
  - cbn [length dequeueFunctions]. unfold dequeueFunctionForCodeGeneration.
    by rewrite Hiterate.
  - cbn [length].
    change (dequeueFunctions (S (S (length rest))) c)
      with (let* first := dequeueFunctionForCodeGeneration c in
            let* others := dequeueFunctions (S (length rest)) first.2 in
            Ok (first.1 :: others.1, others.2)).
    unfold dequeueFunctionForCodeGeneration at 1. rewrite Hiterate. cbn [bindR fst snd].
    rewrite IH; [done|]. fields. by apply iterate_difference.
Qed.

(** X1: as many calls of [dequeueFunctionForCodeGeneration] as the queue
    has functions return every queued function exactly once, by ascending
    address, and leave the queue empty and the rest of the context as it
    was; one call more fails. *)
Theorem dequeueFunctionForCodeGeneration_drains c :
  let queue := m_functionGenerationQueue c in
  let drained := set_functionGenerationQueue ∅ c in
  dequeueFunctions (size queue) c = Ok (iterate queue, drained) ∧
  (∀ function, function ∈ iterate queue ↔ function ∈ queue) ∧
  NoDup (iterate queue) ∧
  StronglySorted N.le (iterate queue) ∧
  functionGenerationQueueEmpty drained = true ∧
  dequeueFunctionForCodeGeneration drained = Throw (InternalCompilerError "") ∧
  dequeueFunctions (S (size queue)) c = Throw (InternalCompilerError "").
Proof.
  assert (size (m_functionGenerationQueue c)
          = length (iterate (m_functionGenerationQueue c))) as Hsize.
  { unfold size, set_size. simpl. by rewrite iterate_perm. }
  cbv zeta. rewrite Hsize. split; [by apply dequeueFunctions_iterate|].
  split; [intros function; apply elem_of_iterate|].
  split; [apply iterate_NoDup|]. split; [apply iterate_sorted|].
  split; [done|]. split; [|by apply dequeueFunctions_beyond].
  unfold dequeueFunctionForCodeGeneration. fields.
  by rewrite (proj2 (iterate_nil ∅)).
Qed.

End Draining.

(** ** The registries *)

Section Registers.
Import frontend.

Variable IRVariable : Type.
Variable newIRVariable : ptr → IRVariable.
Variable variableAt : ptr → VariableDeclaration.t.

Local Abbreviation addLocalVariable := (addLocalVariable newIRVariable).
Local Abbreviation localVariable := (localVariable variableAt).

(** X2: a declaration that is not bound is no local variable, and its
    lookup fails with "Unknown variable"; [addLocalVariable] binds it to
    the variable made of it, after which it is a local variable, its
    lookup returns that variable and the other declarations are as
    before; to bind a declaration that is bound already fails with "Local
    variable added multiple times". *)
Theorem addLocalVariable_once _varDecl (r : Registries IRVariable) :
  (m_localVariables r !! _varDecl = None →
   isLocalVariable _varDecl r = false ∧
   localVariable _varDecl r
     = Throw (InternalCompilerError
                ("Unknown variable: " +:+ VariableDeclaration.name (variableAt _varDecl))) ∧
   ∃ r',
     addLocalVariable _varDecl r = Ok (newIRVariable _varDecl, r') ∧
     isLocalVariable _varDecl r' = true ∧
     localVariable _varDecl r' = Ok (newIRVariable _varDecl) ∧
     (∀ other, other ≠ _varDecl →
        isLocalVariable other r' = isLocalVariable other r ∧
        localVariable other r' = localVariable other r) ∧
     addLocalVariable _varDecl r'
       = Throw (InternalCompilerError "Local variable added multiple times.")) ∧
  (is_Some (m_localVariables r !! _varDecl) →
   addLocalVariable _varDecl r
     = Throw (InternalCompilerError "Local variable added multiple times.")).
Proof.
  unfold frontend.addLocalVariable, frontend.localVariable, frontend.isLocalVariable,
    emplace, map_at.
  split.
  - intros Hnone. rewrite Hnone. simpl.
    split; [done|]. split; [done|].
    eexists. split; [done|]. simpl. rewrite !lookup_insert_eq. simpl.
    split; [done|]. split; [done|]. split; [|done].
    intros other Hother. by rewrite lookup_insert_ne.
  - intros [present Hpresent]. by rewrite Hpresent.
Qed.

(** X3: [addStateVariable] records the location of a declaration and
    overwrites the location recorded before, if any: the declaration is
    then a state variable and [storageLocationOfVariable] returns the
    location given last; the other declarations are as before.
    [storageLocationOfVariable] returns for every state variable, and
    throws [std::out_of_range] for a declaration that is none. *)
Theorem addStateVariable_overwrites _declaration _storageOffset _byteOffset
    (r : Registries IRVariable) :
  let r' := addStateVariable _declaration _storageOffset _byteOffset r in
  isStateVariable _declaration r' = true ∧
  storageLocationOfVariable _declaration r' = Ok (_storageOffset, _byteOffset) ∧
  (∀ offset byteOffset,
     storageLocationOfVariable _declaration
       (addStateVariable _declaration offset byteOffset r')
     = Ok (offset, byteOffset)) ∧
  (∀ other, other ≠ _declaration →
     isStateVariable other r' = isStateVariable other r ∧
     storageLocationOfVariable other r' = storageLocationOfVariable other r) ∧
  (∀ v, isStateVariable v r = false →
        storageLocationOfVariable v r = Throw OutOfRange) ∧
  (∀ v, isStateVariable v r = true →
        ∃ location, storageLocationOfVariable v r = Ok location).
Proof.
  unfold addStateVariable, isStateVariable, storageLocationOfVariable, map_at.
  cbv zeta. simpl.
  split; [by rewrite lookup_insert_eq, bool_decide_eq_true_2 by eauto|].
  split; [by rewrite lookup_insert_eq|].
  split; [intros; by rewrite lookup_insert_eq|].
  split; [intros other Hother; by rewrite lookup_insert_ne|].
  split.
  - intros v Hv. apply bool_decide_eq_false in Hv.
    destruct (m_stateVariables r !! v); [|done]. destruct Hv. eauto.
  - intros v Hv. apply bool_decide_eq_true in Hv as [location ->]. eauto.
Qed.

(** X4: [mostDerivedContract] fails with "Most derived contract requested
    but not set." while no contract is set, as in the state that the
    constructor leaves; after [setMostDerivedContract] it returns the
    contract set last. *)
Theorem mostDerivedContract_set (r : Registries IRVariable) :
  (m_mostDerivedContract r = nullptr →
   mostDerivedContract r
     = Throw (InternalCompilerError "Most derived contract requested but not set.")) ∧
  mostDerivedContract (initialRegistries IRVariable)
    = Throw (InternalCompilerError "Most derived contract requested but not set.") ∧
  (∀ contract, contract ≠ nullptr →
     mostDerivedContract (setMostDerivedContract contract r) = Ok contract) ∧
  (∀ first contract, contract ≠ nullptr →
     mostDerivedContract (setMostDerivedContract contract (setMostDerivedContract first r))
     = Ok contract).
Proof.
  unfold mostDerivedContract, setMostDerivedContract.
  split; [by intros ->|]. split; [done|].
  split; intros; simpl; by rewrite bool_decide_eq_false_2.
Qed.

End Registers.

(** ** The allocation of immutables *)

Section Allocation.
Import frontend.

Variable variableAt : ptr → VariableDeclaration.t.
Variable generalPurposeMemoryStart : N.

Local Abbreviation registerImmutableVariable :=
  (registerImmutableVariable variableAt generalPurposeMemoryStart).
Local Abbreviation immutableMemoryOffset := (immutableMemoryOffset variableAt).

Lemma registerImmutableVariable_loop variables :
  ∀ c reserved,
    NoDup variables →
    (∀ v, v ∈ variables → immutableWord variableAt v) →
    m_reservedMemory c = Some reserved →
    generalPurposeMemoryStart + reserved + 32 * N.of_nat (length variables) < 2 ^ 64 →
    ∃ c',
      forEach registerImmutableVariable variables c = Ok c' ∧
      m_reservedMemory c' = Some (reserved + 32 * N.of_nat (length variables)) ∧
      (∀ i v, variables !! i = Some v →
              m_immutableVariables c' !! v
              = Some (generalPurposeMemoryStart + reserved + 32 * N.of_nat i)) ∧
      (∀ v, v ∉ variables → m_immutableVariables c' !! v = m_immutableVariables c !! v).
Proof.
  induction variables as [|first rest IH]; intros c reserved Hnodup Hwords Hreserved Hbound.
  - exists c. split; [done|]. split; [by rewrite Hreserved, N.add_0_r|].
    split; [by intros i v|done].
  - apply NoDup_cons in Hnodup as [Hnotin Hnodup].
    cbn [forEach length] in *.
    rewrite (registerImmutableVariable_word variableAt generalPurposeMemoryStart
               first c reserved) by (done || apply Hwords; left).
    cbn [bindR]. unfold wrap64. rewrite !N.mod_small by lia.
    edestruct (IH (set_reservedMemory (Some (reserved + 32))
                     (set_immutableVariables
                        (<[first := generalPurposeMemoryStart + reserved]>
                           (m_immutableVariables c)) c))
                  (reserved + 32))
      as (c' & Hloop & Hreserved' & Hoffsets & Hothers); [done| |done|lia|].
    { intros v Hv. apply Hwords. by right. }
    exists c'. split; [done|]. split; [rewrite Hreserved'; f_equal; lia|].
    fields. split.
    + intros [|i] v; simpl.
      * intros [= <-]. rewrite (Hothers first Hnotin), lookup_insert_eq.
        f_equal. lia.
      * intros Hi. rewrite (Hoffsets i v Hi). f_equal. lia.
    + intros v Hv. apply not_elem_of_cons in Hv as [Hne Hv].
      rewrite (Hothers v Hv). by rewrite lookup_insert_ne.
Qed.

(** X5: registering distinct 32-byte immutables one after the other, from
    a cursor at [reserved] and with no overflow of [size_t], puts the
    variable registered in place [i] at the offset
    [generalPurposeMemoryStart + reserved + 32 * i] and moves the cursor
    by 32 bytes per variable; the slots of two of the variables do not
    overlap, and the offsets of the other variables are as before. *)
Theorem registerImmutableVariable_offsets variables c reserved :
  NoDup variables →
  (∀ v, v ∈ variables → immutableWord variableAt v) →
  m_reservedMemory c = Some reserved →
  generalPurposeMemoryStart + reserved + 32 * N.of_nat (length variables) < 2 ^ 64 →
  ∃ c',
    forEach registerImmutableVariable variables c = Ok c' ∧
    m_reservedMemory c' = Some (reserved + 32 * N.of_nat (length variables)) ∧
    (∀ i v, variables !! i = Some v →
            immutableMemoryOffset v c'
            = Ok (generalPurposeMemoryStart + reserved + 32 * N.of_nat i)) ∧
    (∀ v w offset offset',
       v ∈ variables → w ∈ variables → v ≠ w →
       immutableMemoryOffset v c' = Ok offset →
       immutableMemoryOffset w c' = Ok offset' →
       offset + 32 ≤ offset' ∨ offset' + 32 ≤ offset) ∧
    (∀ v, v ∉ variables → immutableMemoryOffset v c' = immutableMemoryOffset v c).
Proof.
  intros Hnodup Hwords Hreserved Hbound.
  destruct (registerImmutableVariable_loop variables c reserved)
    as (c' & Hloop & Hreserved' & Hoffsets & Hothers); [done..|].
  exists c'. split; [done|]. split; [done|].
  unfold frontend.immutableMemoryOffset.
  split; [|split].
  - intros i v Hi. by rewrite (Hoffsets i v Hi).
  - intros v w offset offset' [i Hi]%list_elem_of_lookup [j Hj]%list_elem_of_lookup Hne.
    rewrite (Hoffsets i v Hi), (Hoffsets j w Hj). intros [= <-] [= <-].
    assert (i ≠ j) by (intros ->; congruence). lia.
  - intros v Hv. by rewrite (Hothers v Hv).
Qed.

(** X6: the assertions of [registerImmutableVariable], in their order: a
    variable that is not immutable is refused as an internal error,
    whatever its type; an immutable that is not of value type as an
    unimplemented feature; an immutable of value type as an internal
    error once the reserved memory has been reset, and also when its
    type is not 32 bytes wide.  [immutableMemoryOffset] fails for a
    variable that was never registered. *)
Theorem registerImmutableVariable_rejects v c :
  (VariableDeclaration.immutable (variableAt v) = false →
   registerImmutableVariable v c
   = Throw (InternalCompilerError
              "Attempted to register a non-immutable variable as immutable.")) ∧
  (VariableDeclaration.immutable (variableAt v) = true →
   isValueType (VariableDeclaration.type (variableAt v)) = false →
   registerImmutableVariable v c
   = Throw (UnimplementedFeatureError
              "Only immutable variables of value type are supported.")) ∧
  (VariableDeclaration.immutable (variableAt v) = true →
   isValueType (VariableDeclaration.type (variableAt v)) = true →
   m_reservedMemory c = None →
   registerImmutableVariable v c
   = Throw (InternalCompilerError "Reserved memory has already been reset.")) ∧
  (VariableDeclaration.immutable (variableAt v) = true →
   isValueType (VariableDeclaration.type (variableAt v)) = true →
   is_Some (m_reservedMemory c) →
   memoryHeadSize (VariableDeclaration.type (variableAt v)) ≠ 32 →
   registerImmutableVariable v c
   = Throw (InternalCompilerError "Memory writes might overlap.")) ∧
  (m_immutableVariables c !! v = None →
   immutableMemoryOffset v c
   = Throw (InternalCompilerError
              ("Unknown immutable variable: " +:+
               VariableDeclaration.name (variableAt v)))).
Proof.
  unfold frontend.registerImmutableVariable, frontend.immutableMemoryOffset.
  split; [by intros ->|]. split; [by intros -> ->|].
  split; [by intros -> -> ->|]. split; [|by intros ->].
  intros -> -> [reserved ->] Hsize. apply N.eqb_neq in Hsize. by rewrite Hsize.
Qed.

(** X7: [registerImmutableVariable] does not look whether the variable is
    registered already: a second registration succeeds, moves the
    variable to the next slot and leaves the first slot reserved, so that
    [reservedMemory] then counts 64 bytes for the one variable; the
    offset is still there after [reservedMemory] has reset the cursor. *)
Theorem registerImmutableVariable_again v c reserved :
  immutableWord variableAt v →
  m_reservedMemory c = Some reserved →
  generalPurposeMemoryStart + reserved + 64 < 2 ^ 64 →
  ∃ c1 c2 c3,
    registerImmutableVariable v c = Ok c1 ∧
    immutableMemoryOffset v c1 = Ok (generalPurposeMemoryStart + reserved) ∧
    registerImmutableVariable v c1 = Ok c2 ∧
    immutableMemoryOffset v c2 = Ok (generalPurposeMemoryStart + reserved + 32) ∧
    reservedMemory c2 = Ok (reserved + 64, c3) ∧
    immutableMemoryOffset v c3 = Ok (generalPurposeMemoryStart + reserved + 32).
Proof.
  intros Hword Hreserved Hbound.
  eexists _, _, _.
  split; [by apply registerImmutableVariable_word|].
  unfold frontend.immutableMemoryOffset. fields. rewrite lookup_insert_eq.
  unfold wrap64 at 1. rewrite N.mod_small by lia. split; [done|].
  split; [by apply registerImmutableVariable_word|].
  fields. rewrite lookup_insert_eq.
  unfold wrap64. rewrite !N.mod_small by (rewrite ?N.mod_small; lia).
  rewrite N.add_assoc. split; [done|].
  unfold reservedMemory. fields.
  rewrite bool_decide_eq_true_2 by eauto. cbn [bindR solAssert default].
  replace (reserved + 32 + 32) with (reserved + 64) by lia.
  split; [done|]. fields. by rewrite lookup_insert_eq.
Qed.

End Allocation.

Lemma registerImmutableVariable_offsets_witness :
  NoDup [500; 501; 502] ∧
  ∃ c',
    frontend.forEach (frontend.registerImmutableVariable example.variableAt 128)
      [500; 501; 502] frontend.initialContext = Ok c' ∧
    frontend.m_reservedMemory c' = Some (0 + 32 * N.of_nat (length [500; 501; 502])) ∧
    (∀ i v, [500; 501; 502] !! i = Some v →
            frontend.immutableMemoryOffset example.variableAt v c'
            = Ok (128 + 0 + 32 * N.of_nat i)) ∧
    (∀ v w offset offset',
       v ∈ [500; 501; 502] → w ∈ [500; 501; 502] → v ≠ w →
       frontend.immutableMemoryOffset example.variableAt v c' = Ok offset →
       frontend.immutableMemoryOffset example.variableAt w c' = Ok offset' →
       offset + 32 ≤ offset' ∨ offset' + 32 ≤ offset) ∧
    (∀ v, v ∉ [500; 501; 502] →
          frontend.immutableMemoryOffset example.variableAt v c'
          = frontend.immutableMemoryOffset example.variableAt v frontend.initialContext).
Proof.
  assert (NoDup [500; 501; 502]) as Hnodup by compute_done.
  split; [exact Hnodup|].
  apply (registerImmutableVariable_offsets example.variableAt 128
           [500; 501; 502] frontend.initialContext 0).
  - exact Hnodup.
  - intros v _. unfold frontend.immutableWord. simpl. done.
  - reflexivity.
  - vm_compute. reflexivity.
Defined.

Lemma registerImmutableVariable_again_witness :
  ∃ c1 c2 c3,
    frontend.registerImmutableVariable example.variableAt 128 500 frontend.initialContext
      = Ok c1 ∧
    frontend.immutableMemoryOffset example.variableAt 500 c1 = Ok (128 + 0) ∧
    frontend.registerImmutableVariable example.variableAt 128 500 c1 = Ok c2 ∧
    frontend.immutableMemoryOffset example.variableAt 500 c2 = Ok (128 + 0 + 32) ∧
    frontend.reservedMemory c2 = Ok (0 + 64, c3) ∧
    frontend.immutableMemoryOffset example.variableAt 500 c3 = Ok (128 + 0 + 32).
Proof.
  apply (registerImmutableVariable_again example.variableAt 128 500
           frontend.initialContext 0).
  - unfold frontend.immutableWord. simpl. done.
  - reflexivity.
  - vm_compute. reflexivity.
Defined.

(** ** The order of arities *)

Section Arities.
Import frontend.

(** X12: [std::less<Arity>] is a strict total order, the lexicographic
    one, and two arities of which neither is less than the other are
    equal by [operator==], which holds of equal arities only. *)
Theorem Arity_less_strict_total_order :
  (∀ a, Arity_less a a = false) ∧
  (∀ a b, Arity_less a b = true → Arity_less b a = false) ∧
  (∀ a b c, Arity_less a b = true → Arity_less b c = true → Arity_less a c = true) ∧
  (∀ a b, Arity_less a b = false → Arity_less b a = false → Arity_eqb a b = true) ∧
  (∀ a b, Arity_eqb a b = true ↔ a = b).
Proof.
  unfold Arity_less, Arity_eqb.
  split; [|split; [|split; [|split]]].
  - intros [i o]. simpl. rewrite N.ltb_irrefl, N.ltb_irrefl. by rewrite andb_false_r.
  - intros [i o] [i' o']. simpl.
    rewrite orb_true_iff, andb_true_iff, orb_false_iff, andb_false_iff.
    rewrite !N.ltb_lt, !N.ltb_ge, N.eqb_eq, N.eqb_neq. lia.
  - intros [i o] [i' o'] [i'' o'']. simpl.
    rewrite !orb_true_iff, !andb_true_iff, !N.ltb_lt, !N.eqb_eq. lia.
  - intros [i o] [i' o']. simpl.
    rewrite !orb_false_iff, !andb_false_iff, andb_true_iff.
    rewrite !N.ltb_ge, !N.eqb_neq, !N.eqb_eq. lia.
  - intros [i o] [i' o']. simpl. rewrite andb_true_iff, !N.eqb_eq.
    split; [by intros [-> ->]|by intros [= -> ->]].
Qed.

End Arities.

(** ** The names that the context makes *)

(** A decimal number is made of digits, with a minus sign before them if
    it is negative: no other character occurs in it. *)
Lemma pretty_N_go_digits c x s :
  occurs c "0123456789" = false → occurs c s = false →
  occurs c (pretty_N_go x s) = false.
Proof.
  intros Hc. revert s. induction (N.lt_wf_0 x) as [x _ IH]; intros s Hs.
  assert (x = 0 ∨ 0 < x) as [->|Hpos] by lia.
  - by rewrite pretty_N_go_0.
  - rewrite pretty_N_go_step by done. apply IH.
    + by apply N.div_lt.
    + simpl. rewrite Hs, orb_false_r.
      simpl in Hc. repeat (apply orb_false_iff in Hc as [? Hc]).
      unfold pretty_N_char. by repeat case_match.
Qed.

Lemma to_string_N_digits c n :
  occurs c "0123456789" = false → occurs c (to_string_N n) = false.
Proof.
  intros Hc. unfold to_string_N, pretty, pretty_N. case_decide.
  - simpl in *. by apply orb_false_iff in Hc as [-> _].
  - by apply pretty_N_go_digits.
Qed.

Lemma to_string_Z_digits c z :
  occurs c "-0123456789" = false → occurs c (to_string_Z z) = false.
Proof.
  intros Hc. simpl in Hc. apply orb_false_iff in Hc as [Hminus Hc].
  unfold to_string_Z, pretty, pretty_Z. destruct z as [|p|p].
  - simpl in *. by apply orb_false_iff in Hc as [-> _].
  - by apply (to_string_N_digits c (N.pos p)).
  - rewrite occurs_app. simpl. rewrite Hminus. simpl.
    by apply (to_string_N_digits c (N.pos p)).
Qed.

Lemma to_string_N_inj n m : to_string_N n = to_string_N m → n = m.
Proof. apply (inj pretty). Qed.

Lemma to_string_Z_inj n m : to_string_Z n = to_string_Z m → n = m.
Proof. apply (inj pretty). Qed.

Lemma app_assoc_string s t u : (s +:+ t) +:+ u = s +:+ t +:+ u.
Proof. induction s as [|c s IH]; [done|]. by rewrite !app_String, IH. Qed.

(** The text before the first underscore of a string determines the
    split as well. *)
Lemma underscore_prefix_inj n1 n2 r1 r2 :
  occurs "_" n1 = false → occurs "_" n2 = false →
  n1 +:+ "_" +:+ r1 = n2 +:+ "_" +:+ r2 → n1 = n2 ∧ r1 = r2.
Proof.
  revert n2. induction n1 as [|c n1 IH]; intros [|c' n2] H1 H2 Heq;
    repeat (rewrite app_empty_l in Heq || rewrite app_String in Heq).
  - by injection Heq as ->.
  - injection Heq as <- _. by simpl in H2.
  - injection Heq as -> _. by simpl in H1.
  - injection Heq as -> Heq. simpl in H1, H2.
    apply orb_false_iff in H1 as [_ H1]. apply orb_false_iff in H2 as [_ H2].
    by destruct (IH _ H1 H2 Heq) as [-> ->].
Qed.

Section Names.
Import frontend.

Variable IRVariable : Type.
Variable expressionAt : ptr → Expression.t.

(** X8: the getters of two variables of different ids have different
    names, and the name of a getter is never the name of a function or of
    a dispatcher, nor is the name of a function that of a dispatcher. *)
Theorem functionName_VariableDeclaration_distinct :
  (∀ v w,
     VariableDeclaration.id v ≠ VariableDeclaration.id w →
     functionName_VariableDeclaration v ≠ functionName_VariableDeclaration w) ∧
  (∀ v f, functionName_VariableDeclaration v ≠ functionName f) ∧
  (∀ v a, functionName_VariableDeclaration v ≠ internalDispatchFunctionName a) ∧
  (∀ f a, functionName f ≠ internalDispatchFunctionName a).
Proof.
  split; [|by repeat split].
  intros v w Hne Heq. apply Hne.
  unfold functionName_VariableDeclaration in Heq.
  repeat (rewrite app_String in Heq || rewrite app_empty_l in Heq).
  injection Heq as Heq.
  apply underscore_suffix_inj in Heq as [_ Heq];
    [|apply to_string_Z_no_underscore..].
  by apply to_string_Z_inj.
Qed.

(** X9: the name of the runtime object of a contract is the name of its
    creation object followed by [_deployed]; no creation object has the
    name of a runtime object, of whatever contracts; and contracts of
    different ids have creation objects of different names and runtime
    objects of different names. *)
Theorem runtimeObjectName_deployed :
  (∀ c, runtimeObjectName c = creationObjectName c +:+ "_deployed") ∧
  (∀ c d, creationObjectName c ≠ runtimeObjectName d) ∧
  (∀ c d,
     ContractDefinition.id c ≠ ContractDefinition.id d →
     creationObjectName c ≠ creationObjectName d ∧
     runtimeObjectName c ≠ runtimeObjectName d).
Proof.
  assert (∀ c, runtimeObjectName c = creationObjectName c +:+ "_" +:+ "deployed")
    as Hruntime.
  { intros c. unfold runtimeObjectName, creationObjectName.
    by rewrite !app_assoc_string. }
  assert (∀ c d,
            ContractDefinition.id c ≠ ContractDefinition.id d →
            creationObjectName c ≠ creationObjectName d) as Hcreation.
  { intros c d Hne Heq. apply Hne. unfold creationObjectName in Heq.
    apply underscore_suffix_inj in Heq as [_ Heq];
      [|apply to_string_Z_no_underscore..].
    by apply to_string_Z_inj. }
  split; [done|split].
  - intros c d Heq. rewrite Hruntime in Heq. unfold creationObjectName at 1 in Heq.
    apply underscore_suffix_inj in Heq as [_ Heq];
      [|apply to_string_Z_no_underscore|done].
    pose proof (to_string_Z_digits "d" (ContractDefinition.id c) eq_refl) as Hd.
    by rewrite Heq in Hd.
  - intros c d Hne. split; [by apply Hcreation|].
    rewrite !Hruntime. intros Heq.
    apply underscore_suffix_inj in Heq as [Heq _]; [|done..].
    by apply (Hcreation c d).
Qed.

Lemma newYulVariables_names n :
  ∀ r : Registries IRVariable,
    m_varCounter r + N.of_nat n < 2 ^ 64 →
    length (newYulVariables n r).1 = n ∧
    m_varCounter (newYulVariables n r).2 = m_varCounter r + N.of_nat n ∧
    ∀ i name,
      (newYulVariables n r).1 !! i = Some name →
      name = "_" +:+ to_string_N (m_varCounter r + 1 + N.of_nat i).
Proof.
  induction n as [|n IH]; intros r Hbound.
  - simpl. split; [done|]. split; [lia|]. by intros i name.
  - cbn [newYulVariables]. unfold newYulVariable.
    assert (wrap64 (m_varCounter r + 1) = m_varCounter r + 1) as Hwrap.
    { unfold wrap64. apply N.mod_small. lia. }
    rewrite Hwrap.
    specialize (IH (set_varCounter (m_varCounter r + 1) r)).
    destruct (newYulVariables n _) as [names r2]. simpl in *.
    destruct IH as (Hlength & Hcounter & Hnames); [lia|].
    split; [by rewrite Hlength|]. split; [lia|].
    intros [|i] name; simpl.
    + intros [= <-]. by rewrite N.add_0_r.
    + intros Hi. rewrite (Hnames _ _ Hi). do 2 f_equal. lia.
Qed.

(** X10: as long as the counter does not overflow, the names that
    successive calls of [newYulVariable] return are pairwise different:
    the call in place [i] returns an underscore followed by the counter's
    first value plus [1 + i]; none of them is a name that
    [trySuccessConditionVariable] returns. *)
Theorem newYulVariable_distinct n (r : Registries IRVariable) :
  m_varCounter r + N.of_nat n < 2 ^ 64 →
  NoDup (newYulVariables n r).1 ∧
  (∀ i name,
     (newYulVariables n r).1 !! i = Some name →
     name = "_" +:+ to_string_N (m_varCounter r + 1 + N.of_nat i)) ∧
  m_varCounter (newYulVariables n r).2 = m_varCounter r + N.of_nat n ∧
  (∀ name e, name ∈ (newYulVariables n r).1 →
             trySuccessConditionVariable expressionAt e ≠ Ok name).
Proof.
  intros Hbound.
  destruct (newYulVariables_names n r Hbound) as (Hlength & Hcounter & Hnames).
  split; [|split; [done|split; [done|]]].
  - apply NoDup_alt. intros i j name Hi Hj.
    apply Hnames in Hi, Hj. rewrite Hi in Hj.
    injection Hj as Hj. apply to_string_N_inj in Hj. lia.
  - intros name e [i Hi]%list_elem_of_lookup Heq.
    rewrite (Hnames _ _ Hi) in Heq. unfold trySuccessConditionVariable in Heq.
    by destruct (Expression.tryCall _).
Qed.

Lemma internalDispatchFunctionName_eq a b :
  internalDispatchFunctionName a = internalDispatchFunctionName b → a = b.
Proof.
  intros Heq.
  unfold internalDispatchFunctionName in Heq.
  repeat (rewrite app_String in Heq || rewrite app_empty_l in Heq).
  injection Heq as Heq.
  apply underscore_prefix_inj in Heq as [Hin Hout];
    [|apply to_string_N_no_underscore..].
  repeat (rewrite app_String in Hout || rewrite app_empty_l in Hout).
  injection Hout as Hout.
  apply to_string_N_inj in Hin, Hout.
  destruct a, b. simpl in *. by subst.
Qed.

(** X11: dispatchers of different arities have different names. *)
Theorem internalDispatchFunctionName_inj a b :
  a ≠ b → internalDispatchFunctionName a ≠ internalDispatchFunctionName b.
Proof. intros Hne Heq. by apply Hne, internalDispatchFunctionName_eq. Qed.

End Names.

Lemma newYulVariable_distinct_witness :
  frontend.m_varCounter (frontend.initialRegistries unit) + N.of_nat 3 < 2 ^ 64 ∧
  (frontend.newYulVariables 3 (frontend.initialRegistries unit)).1 = ["_1"; "_2"; "_3"] ∧
  NoDup (frontend.newYulVariables 3 (frontend.initialRegistries unit)).1 ∧
  (∀ i name,
     (frontend.newYulVariables 3 (frontend.initialRegistries unit)).1 !! i = Some name →
     name = "_" +:+
            to_string_N
              (frontend.m_varCounter (frontend.initialRegistries unit) + 1 + N.of_nat i)) ∧
  frontend.m_varCounter (frontend.newYulVariables 3 (frontend.initialRegistries unit)).2
    = frontend.m_varCounter (frontend.initialRegistries unit) + N.of_nat 3 ∧
  (∀ name e,
     name ∈ (frontend.newYulVariables 3 (frontend.initialRegistries unit)).1 →
     frontend.trySuccessConditionVariable example.expressionAt e ≠ Ok name).
Proof.
  assert (frontend.m_varCounter (frontend.initialRegistries unit) + N.of_nat 3 < 2 ^ 64)
    as Hbound by (vm_compute; reflexivity).
  split; [exact Hbound|]. split; [vm_compute; reflexivity|].
  exact (newYulVariable_distinct unit example.expressionAt 3
           (frontend.initialRegistries unit) Hbound).
Defined.

Lemma internalDispatchFunctionName_inj_witness :
  {| frontend.in_ := 1; frontend.out := 21 |}
    ≠ {| frontend.in_ := 12; frontend.out := 1 |} ∧
  frontend.internalDispatchFunctionName {| frontend.in_ := 1; frontend.out := 21 |}
    = "dispatch_internal_in_1_out_21" ∧
  frontend.internalDispatchFunctionName {| frontend.in_ := 12; frontend.out := 1 |}
    = "dispatch_internal_in_12_out_1" ∧
  frontend.internalDispatchFunctionName {| frontend.in_ := 1; frontend.out := 21 |}
    ≠ frontend.internalDispatchFunctionName {| frontend.in_ := 12; frontend.out := 1 |}.
Proof.
  assert ({| frontend.in_ := 1; frontend.out := 21 |}
          ≠ {| frontend.in_ := 12; frontend.out := 1 |}) as Hne by discriminate.
  split; [exact Hne|]. split; [vm_compute; reflexivity|].
  split; [vm_compute; reflexivity|].
  exact (internalDispatchFunctionName_inj _ _ Hne).
Defined.

(** ** The life of a dispatch: collect, promote, consume *)

Section Lifecycle.
Import frontend.

Variable functionAt : ptr → FunctionDefinition.t.

Local Abbreviation scheduled := (scheduled functionAt).
Local Abbreviation advances := (advances functionAt).
Local Abbreviation filed := (filed functionAt).

(** *** How a context advances *)

Lemma scheduled_advances function c c' :
  advances c c' → scheduled function c → scheduled function c'.
Proof.
  intros (_ & _ & Hqueue & Hfunctions & _) [Hq|Hg]; [left|right].
  - by apply Hqueue.
  - by rewrite Hfunctions.
Qed.

Global Instance advances_reflexive : Reflexive advances.
Proof.
  intros c. do 6 (split; [done|]).
  intros arity functions function Hd Hin. left. by rewrite Hd.
Qed.

Global Instance advances_transitive : Transitive advances.
Proof.
  intros c c1 c2 H1 H2.
  pose proof H1 as (Hm1 & Hk1 & Hq1 & Hf1 & Hi1 & Hr1 & Hs1).
  pose proof H2 as (Hm2 & Hk2 & Hq2 & Hf2 & Hi2 & Hr2 & Hs2).
  split; [intros arity; etrans; [apply Hm1|apply Hm2]|].
  split; [auto|].
  split; [etrans; [apply Hq1|apply Hq2]|].
  split; [congruence|]. split; [congruence|]. split; [congruence|].
  intros arity functions function Hd Hin.
  destruct (Hs2 _ _ _ Hd Hin) as [Hin1|?]; [|by right].
  destruct (m_internalDispatch c1 !! arity) as [functions1|] eqn:Hd1;
    [|by apply not_elem_of_empty in Hin1].
  destruct (Hs1 _ _ _ Hd1 Hin1) as [?|?]; [by left|right].
  by apply (scheduled_advances _ c1).
Qed.

(** A loop keeps what each turn of its body keeps. *)
Lemma forEach_respects {A S : Type} (R : relation S)
    `{!Reflexive R, !Transitive R} (body : A → S → Result S) l :
  (∀ x s s', x ∈ l → body x s = Ok s' → R s s') →
  ∀ s s', forEach body l s = Ok s' → R s s'.
Proof.
  induction l as [|x l IH]; intros Hbody s s' H; simpl in H.
  - by apply Ok_inj in H as <-.
  - apply bindR_Ok in H as (s1 & Hstep & Hrest).
    etrans; [apply (Hbody x); [left|done]|].
    apply IH; [|done]. intros y t t' Hy. apply Hbody. by right.
Qed.

Lemma enqueue_advances p c :
  advances c (enqueueFunctionForCodeGeneration functionAt p c).2 ∧
  scheduled p (enqueueFunctionForCodeGeneration functionAt p c).2.
Proof.
  unfold enqueueFunctionForCodeGeneration. cbn [snd].
  destruct (contains _ (m_functions c)) eqn:Hcontains.
  - split; [reflexivity|by right].
  - split; [|left; fields; set_solver].
    repeat split; try done; fields; [set_solver|].
    intros arity functions function Hd Hin. left. by rewrite Hd.
Qed.

Lemma enqueueAll_advances functions c :
  advances c (enqueueAll functionAt functions c) ∧
  ∀ function, function ∈ functions →
              scheduled function (enqueueAll functionAt functions c).
Proof.
  unfold enqueueAll.
  assert (∀ l c,
            advances c
              (foldl (λ c function,
                        (enqueueFunctionForCodeGeneration functionAt function c).2) c l) ∧
            ∀ function, function ∈ l →
              scheduled function
                (foldl (λ c function,
                          (enqueueFunctionForCodeGeneration functionAt function c).2) c l))
    as Hlist.
  { clear. intros l. induction l as [|p l IH]; intros c.
    - split; [reflexivity|]. intros function Hin. by apply elem_of_nil in Hin.
    - cbn [foldl].
      destruct (enqueue_advances p c) as [Hstep Hp].
      destruct (IH (enqueueFunctionForCodeGeneration functionAt p c).2) as [Hrest Hl].
      split; [by etrans|].
      intros function [->|Hin]%elem_of_cons; [|by apply Hl].
      by apply (scheduled_advances _ _ _ Hrest). }
  destruct (Hlist (iterate functions) c) as [Hadvances Hall].
  split; [done|]. intros function Hin. apply Hall. by apply elem_of_iterate.
Qed.

Lemma promoteCandidates_advances k c c' :
  promoteCandidates functionAt k c = Ok c' → advances c c'.
Proof.
  unfold promoteCandidates. intros H.
  apply bindR_Ok in H as ([] & Hassert & H). apply solAssert_Ok in Hassert.
  destruct (m_internalDispatchCandidates c !! k) as [candidates|] eqn:Hcand;
    [|apply Ok_inj in H as <-; reflexivity].
  apply Ok_inj in H as <-.
  rewrite orb_false_r in Hassert. apply bool_decide_eq_true in Hassert.
  destruct (enqueueAll_advances candidates c)
    as ((_ & _ & Hqueue & Hfunctions & Himmutables & Hreserved & _) & Hscheduled).
  destruct (enqueueAll_frame functionAt candidates c) as (Hd & Hc & _).
  unfold advances, members. fields. rewrite Hd, Hc.
  repeat split; try done.
  - intros arity. destruct (decide (arity = k)) as [->|Hne].
    + rewrite lookup_insert_eq, lookup_delete_eq, Hcand, Hassert. simpl.
      by rewrite union_empty_l_L, union_empty_r_L.
    + by rewrite lookup_insert_ne, lookup_delete_ne.
  - intros arity Harity. destruct (decide (arity = k)) as [->|Hne].
    + by rewrite lookup_insert_eq.
    + by rewrite lookup_insert_ne.
  - intros arity functions function Hlookup Hin.
    destruct (decide (arity = k)) as [->|Hne].
    + rewrite lookup_insert_eq in Hlookup. injection Hlookup as <-.
      right. destruct (Hscheduled function Hin) as [?|?]; [by left|by right].
    + rewrite lookup_insert_ne in Hlookup by done. left. by rewrite Hlookup.
Qed.

Lemma fileReference_advances p c c' :
  fileReference functionAt p c = Ok c' → advances c c'.
Proof.
  unfold fileReference. intros Hfile.
  apply bindR_Ok in Hfile as ([] & _ & Hfile).
  apply bindR_Ok in Hfile as (arity & _ & Hfile).
  apply bindR_Ok in Hfile as ([] & _ & Hfile).
  destruct (m_internalDispatch c !! arity) as [functions|] eqn:Hd.
  - apply Ok_inj in Hfile as <-.
    match goal with
    | |- advances c (enqueueFunctionForCodeGeneration _ _ ?c1).2 =>
        destruct (enqueue_advances p c1)
          as [(_ & _ & Hqueue & Hfunctions & Himmutables & Hreserved & _) Hscheduled];
        destruct (enqueue_frame functionAt p c1) as (Hd' & Hc' & _)
    end.
    unfold advances, members. rewrite Hd', Hc'. fields.
    split.
    { intros j. destruct (decide (j = arity)) as [->|Hne].
      - rewrite lookup_insert_eq, Hd. simpl.
        apply union_mono_r, union_subseteq_r.
      - by rewrite lookup_insert_ne. }
    split.
    { intros j Hj. destruct (decide (j = arity)) as [->|Hne].
      - by rewrite lookup_insert_eq.
      - by rewrite lookup_insert_ne. }
    do 4 (split; [done|]).
    intros j functions' function Hlookup Hin.
    destruct (decide (j = arity)) as [->|Hne].
    + rewrite lookup_insert_eq in Hlookup. injection Hlookup as <-.
      rewrite Hd. simpl.
      apply elem_of_union in Hin as [->%elem_of_singleton|?]; [by right|by left].
    + rewrite lookup_insert_ne in Hlookup by done. left. by rewrite Hlookup.
  - assert (∀ candidates,
              default ∅ (m_internalDispatchCandidates c !! arity) ⊆ candidates →
              advances c
                (set_internalDispatchCandidates
                   (<[arity := candidates]> (m_internalDispatchCandidates c)) c))
      as Hcandidates.
    { intros candidates Hsub. unfold advances, members. fields.
      split.
      { intros j. destruct (decide (j = arity)) as [->|Hne].
        - rewrite lookup_insert_eq. simpl. by apply union_mono_l.
        - by rewrite lookup_insert_ne. }
      do 5 (split; [done|]).
      intros j functions function Hlookup Hin. left. by rewrite Hlookup. }
    destruct (m_internalDispatchCandidates c !! arity) as [candidates|] eqn:Hc;
      apply Ok_inj in Hfile as <-; apply Hcandidates; rewrite ?Hc; simpl.
    + apply union_subseteq_r.
    + apply empty_subseteq.
Qed.

Lemma fileReference_files p c c' :
  fileReference functionAt p c = Ok c' → p ≠ nullptr ∧ filed p c'.
Proof.
  unfold fileReference. intros Hfile.
  apply bindR_Ok in Hfile as ([] & Hnull & Hfile). apply solAssert_Ok in Hnull.
  apply negb_true_iff, bool_decide_eq_false in Hnull. split; [done|].
  apply bindR_Ok in Hfile as (arity & Harity & Hfile).
  apply bindR_Ok in Hfile as ([] & _ & Hfile).
  exists arity. split; [done|].
  destruct (m_internalDispatch c !! arity) as [functions|] eqn:Hd.
  - apply Ok_inj in Hfile as <-.
    match goal with
    | |- context [(enqueueFunctionForCodeGeneration _ _ ?c1).2] =>
        destruct (enqueue_advances p c1) as [_ Hscheduled];
        destruct (enqueue_frame functionAt p c1) as (-> & _ & _)
    end.
    fields. rewrite lookup_insert_eq. split; [|done].
    apply elem_of_union_l. by apply elem_of_singleton.
  - destruct (m_internalDispatchCandidates c !! arity) as [candidates|] eqn:Hc;
      apply Ok_inj in Hfile as <-; fields; rewrite Hd, lookup_insert_eq;
      eexists; (split; [done|]).
    + apply elem_of_union_l. by apply elem_of_singleton.
    + by apply elem_of_singleton.
Qed.

Lemma fileReference_filed q p c c' :
  fileReference functionAt q c = Ok c' → filed p c → filed p c'.
Proof.
  intros Hfile (arity & Harity & Hfiled). exists arity. split; [done|].
  pose proof (fileReference_advances _ _ _ Hfile) as Hadvances.
  unfold fileReference in Hfile.
  apply bindR_Ok in Hfile as ([] & _ & Hfile).
  apply bindR_Ok in Hfile as (arity' & _ & Hfile).
  apply bindR_Ok in Hfile as ([] & _ & Hfile).
  destruct (m_internalDispatch c !! arity') as [functions|] eqn:Hd.
  - apply Ok_inj in Hfile as <-.
    match goal with
    | |- context [(enqueueFunctionForCodeGeneration _ _ ?c1).2] =>
        destruct (enqueue_frame functionAt q c1) as (-> & -> & _)
    end.
    fields. destruct (decide (arity = arity')) as [->|Hne].
    + rewrite lookup_insert_eq. rewrite Hd in Hfiled. destruct Hfiled as [Hin Hscheduled].
      split; [by apply elem_of_union_r|].
      by apply (scheduled_advances _ _ _ Hadvances).
    + rewrite lookup_insert_ne by done.
      destruct (m_internalDispatch c !! arity); [|done].
      destruct Hfiled as [Hin Hscheduled]. split; [done|].
      by apply (scheduled_advances _ _ _ Hadvances).
  - assert (∀ candidates',
              default ∅ (m_internalDispatchCandidates c !! arity') ⊆ candidates' →
              match
                m_internalDispatch
                  (set_internalDispatchCandidates
                     (<[arity' := candidates']> (m_internalDispatchCandidates c)) c)
                  !! arity
              with
              | Some functions =>
                  p ∈ functions ∧
                  scheduled p
                    (set_internalDispatchCandidates
                       (<[arity' := candidates']> (m_internalDispatchCandidates c)) c)
              | None =>
                  ∃ candidates,
                    m_internalDispatchCandidates
                      (set_internalDispatchCandidates
                         (<[arity' := candidates']> (m_internalDispatchCandidates c)) c)
                      !! arity = Some candidates ∧
                    p ∈ candidates
              end) as Hcandidates.
    { intros candidates' Hsub. fields.
      destruct (m_internalDispatch c !! arity) as [functions|] eqn:Hd'; [done|].
      destruct Hfiled as (candidates & Hc & Hin).
      destruct (decide (arity = arity')) as [->|Hne].
      - rewrite lookup_insert_eq. eexists. split; [done|].
        apply Hsub. by rewrite Hc.
      - rewrite lookup_insert_ne by done. eauto. }
    destruct (m_internalDispatchCandidates c !! arity') as [candidates'|] eqn:Hc;
      apply Ok_inj in Hfile as <-; apply Hcandidates; rewrite ?Hc; simpl.
    + apply union_subseteq_r.
    + apply empty_subseteq.
Qed.

Lemma fileReference_loop_files l :
  ∀ c c',
    forEach (fileReference functionAt) l c = Ok c' →
    (∀ p, filed p c → filed p c') ∧
    (∀ p, p ∈ l → p ≠ nullptr ∧ filed p c').
Proof.
  induction l as [|q l IH]; intros c c' Hloop; simpl in Hloop.
  - apply Ok_inj in Hloop as <-. split; [done|].
    intros p Hp. by apply elem_of_nil in Hp.
  - apply bindR_Ok in Hloop as (c1 & Hstep & Hrest).
    destruct (IH _ _ Hrest) as [Hkeep Hall].
    split.
    + intros p Hp. apply Hkeep. by apply (fileReference_filed q p c).
    + intros p [->|Hp]%elem_of_cons; [|by apply Hall].
      destruct (fileReference_files _ _ _ Hstep) as [Hnull Hfiled].
      split; [done|]. by apply Hkeep.
Qed.

Lemma elem_of_entriesByAddress_values {V : Type} (m : gmap ptr V) v :
  v ∈ (entriesByAddress m).*2 ↔ ∃ k, m !! k = Some v.
Proof.
  unfold entriesByAddress. rewrite merge_sort_Permutation.
  rewrite list_elem_of_fmap. split.
  - intros [[k v'] [-> Hin]]. apply elem_of_map_to_list in Hin. by exists k.
  - intros [k Hk]. exists (k, v). split; [done|]. by apply elem_of_map_to_list.
Qed.

Lemma moveCollectedReferencesToDispatch_advances c c' :
  moveCollectedReferencesToDispatch functionAt c = Ok c' → advances c c'.
Proof.
  unfold moveCollectedReferencesToDispatch. intros Hmove.
  apply bindR_Ok in Hmove as (c1 & Hloop1 & Hmove).
  apply bindR_Ok in Hmove as (c2 & Hloop2 & Hmove).
  apply Ok_inj in Hmove as <-.
  transitivity c1.
  { revert Hloop1. apply forEach_respects; [apply _..|].
    intros k s s' _. apply promoteCandidates_advances. }
  transitivity c2.
  { revert Hloop2. apply forEach_respects; [apply _..|].
    intros p s s' _. apply fileReference_advances. }
  unfold advances, members. fields. do 6 (split; [done|]).
  intros arity functions function Hd Hin. left. by rewrite Hd.
Qed.

(** After a completed promotion no arity is a key of both maps. *)
Lemma moveCollectedReferencesToDispatch_partitioned c c' :
  moveCollectedReferencesToDispatch functionAt c = Ok c' → partitioned c'.
Proof.
  unfold moveCollectedReferencesToDispatch. intros Hmove.
  apply bindR_Ok in Hmove as (c1 & Hloop1 & Hmove).
  apply bindR_Ok in Hmove as (c2 & Hloop2 & Hmove).
  apply Ok_inj in Hmove as <-.
  apply promoteCandidates_loop in Hloop1 as (Hkeys & _ & Hdisp & _).
  apply fileReference_loop in Hloop2; [exact Hloop2|].
  intros j [Hj1 Hj2].
  assert (j ∈ (entries (m_internalDispatch c)).*1) as Hin.
  { destruct (Hdisp j Hj1) as [?|?]; [|done]. by apply elem_of_entries_keys. }
  rewrite (Hkeys j Hin) in Hj2. by destruct Hj2.
Qed.

(** X16: a completed promotion loses nothing: every function on record
    under an arity (in its dispatch entry or among its candidates) is
    still on record under it; an arity with a dispatch entry keeps the
    entry, which then holds all the functions that were on record under
    the arity, candidates included, and the arity has no candidates left;
    the queue has only grown, and the collector and the immutables are
    untouched. *)
Theorem moveCollectedReferencesToDispatch_keeps c c' :
  moveCollectedReferencesToDispatch functionAt c = Ok c' →
  (∀ arity, members arity c ⊆ members arity c') ∧
  (∀ arity,
     is_Some (m_internalDispatch c !! arity) →
     ∃ functions,
       m_internalDispatch c' !! arity = Some functions ∧
       members arity c ⊆ functions ∧
       m_internalDispatchCandidates c' !! arity = None) ∧
  m_functionGenerationQueue c ⊆ m_functionGenerationQueue c' ∧
  m_functions c' = m_functions c ∧
  m_immutableVariables c' = m_immutableVariables c ∧
  m_reservedMemory c' = m_reservedMemory c.
Proof.
  intros Hmove.
  pose proof (moveCollectedReferencesToDispatch_partitioned _ _ Hmove) as Hpart.
  apply moveCollectedReferencesToDispatch_advances in Hmove
    as (Hmembers & Hkeys & Hqueue & Hfunctions & Himmutables & Hreserved & _).
  split; [done|]. split; [|done].
  intros arity Harity. destruct (Hkeys arity Harity) as [functions Hd].
  exists functions. split; [done|].
  destruct (m_internalDispatchCandidates c' !! arity) as [candidates|] eqn:Hc.
  { destruct (Hpart arity). rewrite Hd, Hc. by split. }
  split; [|done]. etrans; [apply Hmembers|].
  unfold members. rewrite Hd, Hc. simpl. by rewrite union_empty_r_L.
Qed.

(** X18: a function that a completed promotion has added to a dispatch
    entry is queued for code generation, unless the collector holds its
    name already. *)
Theorem moveCollectedReferencesToDispatch_schedules c c' arity functions function :
  moveCollectedReferencesToDispatch functionAt c = Ok c' →
  m_internalDispatch c' !! arity = Some functions → function ∈ functions →
  function ∈ default ∅ (m_internalDispatch c !! arity) ∨
  function ∈ m_functionGenerationQueue c' ∨
  contains (functionName (functionAt function)) (m_functions c') = true.
Proof.
  intros Hmove Hd Hin.
  apply moveCollectedReferencesToDispatch_advances in Hmove as (_ & _ & _ & _ & _ & _ & Hs).
  destruct (Hs _ _ _ Hd Hin) as [?|[?|?]]; auto.
Qed.

(** X17: a completed promotion has filed every pending reference: the
    function referred to is not null and has an arity; if that arity has
    a dispatch entry the function is in it and is queued for code
    generation (or the collector holds its name already); if not, the
    function is among the candidates of its arity. *)
Theorem moveCollectedReferencesToDispatch_files c c' expression function :
  moveCollectedReferencesToDispatch functionAt c = Ok c' →
  m_dispatchableInternalFunctionReferences c !! expression = Some function →
  function ≠ nullptr ∧
  ∃ arity,
    functionArity (functionAt function) = Ok arity ∧
    match m_internalDispatch c' !! arity with
    | Some functions =>
        function ∈ functions ∧
        (function ∈ m_functionGenerationQueue c' ∨
         contains (functionName (functionAt function)) (m_functions c') = true)
    | None =>
        ∃ candidates,
          m_internalDispatchCandidates c' !! arity = Some candidates ∧
          function ∈ candidates
    end.
Proof.
  unfold moveCollectedReferencesToDispatch. intros Hmove Href.
  apply bindR_Ok in Hmove as (c1 & Hloop1 & Hmove).
  apply bindR_Ok in Hmove as (c2 & Hloop2 & Hmove).
  apply Ok_inj in Hmove as <-.
  apply promoteCandidates_loop in Hloop1 as (_ & _ & _ & Hrefs).
  apply fileReference_loop_files in Hloop2 as [_ Hall].
  destruct (Hall function) as [Hnull Hfiled].
  { apply elem_of_entriesByAddress_values. exists expression. by rewrite Hrefs. }
  split; [done|]. exact Hfiled.
Qed.

Lemma promoteCandidates_idle k c :
  m_internalDispatchCandidates c !! k = None →
  promoteCandidates functionAt k c = Ok c.
Proof.
  intros Hnone. unfold promoteCandidates. rewrite Hnone.
  rewrite (bool_decide_eq_true_2 (None = None)) by done.
  by rewrite orb_true_r.
Qed.

Lemma promoteCandidates_loop_idle l c :
  (∀ k, k ∈ l → m_internalDispatchCandidates c !! k = None) →
  forEach (promoteCandidates functionAt) l c = Ok c.
Proof.
  induction l as [|k l IH]; intros Hnone; [done|].
  cbn [forEach]. rewrite promoteCandidates_idle by (apply Hnone; left).
  cbn [bindR]. apply IH. intros j Hj. apply Hnone. by right.
Qed.

Lemma set_dispatchableInternalFunctionReferences_same c :
  set_dispatchableInternalFunctionReferences
    (m_dispatchableInternalFunctionReferences c) c = c.
Proof. by destruct c. Qed.

(** X19: a promotion that follows a completed promotion completes as
    well and changes nothing. *)
Theorem moveCollectedReferencesToDispatch_idempotent c c' :
  moveCollectedReferencesToDispatch functionAt c = Ok c' →
  moveCollectedReferencesToDispatch functionAt c' = Ok c'.
Proof.
  intros Hmove.
  pose proof (moveCollectedReferencesToDispatch_partitioned _ _ Hmove) as Hpart.
  assert (m_dispatchableInternalFunctionReferences c' = ∅) as Hrefs.
  { unfold moveCollectedReferencesToDispatch in Hmove.
    apply bindR_Ok in Hmove as (c1 & _ & Hmove).
    apply bindR_Ok in Hmove as (c2 & _ & Hmove).
    by apply Ok_inj in Hmove as <-. }
  unfold moveCollectedReferencesToDispatch.
  rewrite promoteCandidates_loop_idle.
  - cbn [bindR].
    replace (entriesByAddress (m_dispatchableInternalFunctionReferences c'))
      with (@nil (ptr * ptr))
      by (rewrite Hrefs; unfold entriesByAddress; by rewrite map_to_list_empty).
    cbn [fmap list_fmap forEach bindR]. f_equal.
    rewrite <- Hrefs. apply set_dispatchableInternalFunctionReferences_same.
  - intros k Hk. apply elem_of_entries_keys in Hk.
    destruct (m_internalDispatchCandidates c' !! k) eqn:Hc; [|done].
    destruct (Hpart k). by rewrite Hc.
Qed.

(** The assertion of the first loop holds at every key it visits. *)
Lemma promoteCandidates_loop_asserts l :
  ∀ c c',
    forEach (promoteCandidates functionAt) l c = Ok c' →
    ∀ k functions,
      k ∈ l → m_internalDispatch c !! k = Some functions → functions ≠ ∅ →
      m_internalDispatchCandidates c !! k = None.
Proof.
  induction l as [|j l IH]; intros c c' Hloop k functions Hk Hd Hne.
  - by apply elem_of_nil in Hk.
  - simpl in Hloop. apply bindR_Ok in Hloop as (c1 & Hstep & Hrest).
    destruct (decide (k = j)) as [->|Hkj].
    + unfold promoteCandidates in Hstep.
      apply bindR_Ok in Hstep as ([] & Hassert & _). apply solAssert_Ok in Hassert.
      rewrite Hd in Hassert. simpl in Hassert.
      rewrite bool_decide_eq_false_2 in Hassert by done.
      by apply bool_decide_eq_true in Hassert.
    + destruct (promoteCandidates_others _ _ _ _ Hstep k Hkj) as [Hd1 Hc1].
      rewrite <- Hc1. apply (IH _ _ Hrest k functions); [|by rewrite Hd1|done].
      by apply elem_of_cons in Hk as [?|?].
Qed.



(** X14: [consumeInternalDispatchMap] fails while references are
    pending; otherwise it returns the dispatch map and the candidates and
    leaves a context whose dispatch state is clean, with the queue, the
    collector and the immutables as they were, so that
    [setInternalDispatchCandidates] is then accepted.  It succeeds after
    every completed promotion, and it gives back the candidates that
    [setInternalDispatchCandidates] has put into a clean context, leaving
    that context. *)
Theorem consumeInternalDispatchMap_resets c :
  (m_dispatchableInternalFunctionReferences c ≠ ∅ →
   consumeInternalDispatchMap c
   = Throw (InternalCompilerError
              "You must call moveCollectedReferencesToDispatch() before constructing internal dispatch map.")) ∧
  (m_dispatchableInternalFunctionReferences c = ∅ →
   ∃ c',
     consumeInternalDispatchMap c
       = Ok (m_internalDispatch c, m_internalDispatchCandidates c, c') ∧
     internalDispatchClean c' = true ∧
     consumeInternalDispatchMap c' = Ok (∅, ∅, c') ∧
     (∀ candidates,
        setInternalDispatchCandidates candidates c'
        = Ok (set_internalDispatchCandidates candidates c')) ∧
     m_functionGenerationQueue c' = m_functionGenerationQueue c ∧
     m_functions c' = m_functions c ∧
     m_immutableVariables c' = m_immutableVariables c ∧
     m_reservedMemory c' = m_reservedMemory c) ∧
  (∀ c1,
     moveCollectedReferencesToDispatch functionAt c = Ok c1 →
     ∃ c2,
       consumeInternalDispatchMap c1
       = Ok (m_internalDispatch c1, m_internalDispatchCandidates c1, c2)) ∧
  (∀ candidates,
     internalDispatchClean c = true →
     ∃ c1,
       setInternalDispatchCandidates candidates c = Ok c1 ∧
       consumeInternalDispatchMap c1 = Ok (∅, candidates, c)).
Proof.
  unfold consumeInternalDispatchMap, setInternalDispatchCandidates.
  split; [|split; [|split]].
  - intros Hpending. by rewrite bool_decide_eq_false_2.
  - intros Hempty. rewrite bool_decide_eq_true_2 by done.
    eexists. split; [done|]. unfold internalDispatchClean. fields.
    rewrite Hempty. by rewrite !bool_decide_eq_true_2 by done.
  - intros c1 Hmove. unfold moveCollectedReferencesToDispatch in Hmove.
    apply bindR_Ok in Hmove as (c' & _ & Hmove).
    apply bindR_Ok in Hmove as (c'' & _ & Hmove).
    apply Ok_inj in Hmove as <-. fields. by eexists.
  - intros candidates Hclean. rewrite Hclean. eexists. split; [done|].
    unfold internalDispatchClean in Hclean.
    apply andb_true_iff in Hclean as [[Hd Hc]%andb_true_iff Hr].
    apply bool_decide_eq_true in Hd, Hc, Hr. fields.
    rewrite Hr, Hd. rewrite bool_decide_eq_true_2 by done. cbn [solAssert bindR].
    do 2 f_equal. destruct c. simpl in *. by subst.
Qed.

(** X13: [collectDispatchableReference] on an expression that is not
    pending records the reference and returns the name of the dispatcher
    of the function's arity, the name that [registerInternalDispatch]
    returns for that arity; [forgetDispatchableReference] then restores
    the context as it was.  To collect an expression that is pending
    fails, and so does to forget one that is not. *)
Theorem collectDispatchableReference_forget _expression _function c :
  (m_dispatchableInternalFunctionReferences c !! _expression = None →
   ∀ arity,
     functionArity (functionAt _function) = Ok arity →
     ∃ c1,
       collectDispatchableReference functionAt _expression _function c
         = Ok (internalDispatchFunctionName arity, c1) ∧
       (registerInternalDispatch arity c1).1 = internalDispatchFunctionName arity ∧
       m_dispatchableInternalFunctionReferences c1 !! _expression = Some _function ∧
       forgetDispatchableReference _expression c1 = Ok c ∧
       ∀ again,
         collectDispatchableReference functionAt _expression again c1
         = Throw (InternalCompilerError "")) ∧
  (is_Some (m_dispatchableInternalFunctionReferences c !! _expression) →
   collectDispatchableReference functionAt _expression _function c
   = Throw (InternalCompilerError "")) ∧
  (m_dispatchableInternalFunctionReferences c !! _expression = None →
   forgetDispatchableReference _expression c = Throw (InternalCompilerError "")).
Proof.
  unfold collectDispatchableReference, forgetDispatchableReference.
  split; [|split].
  - intros Hnone arity Harity. rewrite Hnone, Harity.
    rewrite (bool_decide_eq_true_2 (None = None)) by done. cbn [solAssert bindR].
    eexists. split; [done|]. split; [done|]. fields.
    rewrite lookup_insert_eq. split; [done|]. split.
    + rewrite bool_decide_eq_true_2 by eauto. cbn [solAssert bindR]. f_equal.
      rewrite delete_insert_id by done. by destruct c.
    + intros again. by rewrite bool_decide_eq_false_2.
  - intros [present Hpresent]. rewrite Hpresent.
    by rewrite bool_decide_eq_false_2.
  - intros Hnone. rewrite Hnone. by rewrite bool_decide_eq_false_2 by by intros [? ?].
Qed.

Lemma set_functions_same c : set_functions (m_functions c) c = c.
Proof. by destruct c. Qed.

(** X20: [internalDispatch] generates the dispatcher of an arity once:
    after a call that has returned, the collector holds the dispatcher's
    name, and every further call for that arity, with whatever functions
    that pass the assertions, returns the same name and leaves the
    context as it is. *)
Theorem internalDispatch_memoized arity functions c name c1 :
  internalDispatch functionAt arity functions c = Ok (name, c1) →
  name = internalDispatchFunctionName arity ∧
  contains name (m_functions c1) = true ∧
  (contains name (m_functions c) = true → c1 = c) ∧
  ∀ others,
    (∀ p, p ∈ others → dispatchable functionAt arity p) →
    internalDispatch functionAt arity others c1 = Ok (name, c1).
Proof.
  unfold internalDispatch. intros Hfirst.
  apply bindR_Ok in Hfirst as (cases & _ & Hfirst).
  apply bindR_Ok in Hfirst as ([name' collector] & Hcreate & Hfirst).
  apply Ok_inj in Hfirst. cbn [fst snd] in Hfirst. injection Hfirst as -> <-.
  unfold createFunction in Hcreate.
  assert (name = internalDispatchFunctionName arity ∧
          contains name collector = true ∧
          (contains name (m_functions c) = true → collector = m_functions c))
    as (-> & Hcontains & Hsame).
  { destruct (contains _ (m_functions c)) eqn:Hc.
    - by injection Hcreate as <- <-.
    - apply bindR_Ok in Hcreate as (code & _ & Hcreate).
      injection Hcreate as <- <-. split; [done|]. split; [|by rewrite Hc].
      unfold contains. cbn [m_requestedFunctions].
      apply bool_decide_eq_true. apply elem_of_union_l. by apply elem_of_singleton. }
  split; [done|]. fields. split; [done|].
  split; [intros Hc; rewrite (Hsame Hc); apply set_functions_same|].
  intros others Hothers.
  rewrite (collect_dispatchable functionAt arity (iterate others))
    by (intros p Hp; apply Hothers; by apply elem_of_iterate).
  cbn [bindR]. unfold createFunction. fields. rewrite Hcontains.
  cbn [bindR fst snd]. by destruct c.
Qed.

End Lifecycle.

Lemma moveCollectedReferencesToDispatch_keeps_witness :
  frontend.moveCollectedReferencesToDispatch example.functionAt example.collected
    = Ok example.promoted ∧
  (∀ arity,
     frontend.members arity example.collected
       ⊆ frontend.members arity example.promoted) ∧
  (∀ arity,
     is_Some (frontend.m_internalDispatch example.collected !! arity) →
     ∃ functions,
       frontend.m_internalDispatch example.promoted !! arity = Some functions ∧
       frontend.members arity example.collected ⊆ functions ∧
       frontend.m_internalDispatchCandidates example.promoted !! arity = None) ∧
  frontend.m_functionGenerationQueue example.collected
    ⊆ frontend.m_functionGenerationQueue example.promoted ∧
  frontend.m_functions example.promoted = frontend.m_functions example.collected ∧
  frontend.m_immutableVariables example.promoted
    = frontend.m_immutableVariables example.collected ∧
  frontend.m_reservedMemory example.promoted
    = frontend.m_reservedMemory example.collected.
Proof.
  assert (frontend.moveCollectedReferencesToDispatch example.functionAt
            example.collected = Ok example.promoted) as Hmove
    by (vm_compute; reflexivity).
  split; [exact Hmove|].
  exact (moveCollectedReferencesToDispatch_keeps example.functionAt
           example.collected example.promoted Hmove).
Defined.

Lemma moveCollectedReferencesToDispatch_files_witness :
  frontend.moveCollectedReferencesToDispatch example.functionAt example.collected
    = Ok example.promoted ∧
  frontend.m_dispatchableInternalFunctionReferences example.collected !! 1000
    = Some 100 ∧
  100 ≠ nullptr ∧
  ∃ arity,
    frontend.functionArity (example.functionAt 100) = Ok arity ∧
    match frontend.m_internalDispatch example.promoted !! arity with
    | Some functions =>
        100 ∈ functions ∧
        (100 ∈ frontend.m_functionGenerationQueue example.promoted ∨
         frontend.contains (frontend.functionName (example.functionAt 100))
           (frontend.m_functions example.promoted) = true)
    | None =>
        ∃ candidates,
          frontend.m_internalDispatchCandidates example.promoted !! arity
            = Some candidates ∧
          100 ∈ candidates
    end.
Proof.
  assert (frontend.moveCollectedReferencesToDispatch example.functionAt
            example.collected = Ok example.promoted) as Hmove
    by (vm_compute; reflexivity).
  assert (frontend.m_dispatchableInternalFunctionReferences example.collected !! 1000
          = Some 100) as Href by (vm_compute; reflexivity).
  split; [exact Hmove|]. split; [exact Href|].
  exact (moveCollectedReferencesToDispatch_files example.functionAt
           example.collected example.promoted 1000 100 Hmove Href).
Defined.

Lemma moveCollectedReferencesToDispatch_schedules_witness :
  frontend.moveCollectedReferencesToDispatch example.functionAt example.collected
    = Ok example.promoted ∧
  frontend.m_internalDispatch example.promoted
    !! {| frontend.in_ := 1; frontend.out := 1 |} = Some {[ 100; 200 ]} ∧
  200 ∈ ({[ 100; 200 ]} : gset ptr) ∧
  (200 ∈ default ∅ (frontend.m_internalDispatch example.collected
                      !! {| frontend.in_ := 1; frontend.out := 1 |}) ∨
   200 ∈ frontend.m_functionGenerationQueue example.promoted ∨
   frontend.contains (frontend.functionName (example.functionAt 200))
     (frontend.m_functions example.promoted) = true).
Proof.
  assert (frontend.moveCollectedReferencesToDispatch example.functionAt
            example.collected = Ok example.promoted) as Hmove
    by (vm_compute; reflexivity).
  assert (frontend.m_internalDispatch example.promoted
            !! {| frontend.in_ := 1; frontend.out := 1 |} = Some {[ 100; 200 ]})
    as Hentry by (vm_compute; reflexivity).
  assert (200 ∈ ({[ 100; 200 ]} : gset ptr)) as Hin by compute_done.
  split; [exact Hmove|]. split; [exact Hentry|]. split; [exact Hin|].
  exact (moveCollectedReferencesToDispatch_schedules example.functionAt
           example.collected example.promoted _ _ 200 Hmove Hentry Hin).
Defined.

Lemma moveCollectedReferencesToDispatch_idempotent_witness :
  frontend.moveCollectedReferencesToDispatch example.functionAt example.collected
    = Ok example.promoted ∧
  frontend.moveCollectedReferencesToDispatch example.functionAt example.promoted
    = Ok example.promoted.
Proof.
  assert (frontend.moveCollectedReferencesToDispatch example.functionAt
            example.collected = Ok example.promoted) as Hmove
    by (vm_compute; reflexivity).
  split; [exact Hmove|].
  exact (moveCollectedReferencesToDispatch_idempotent example.functionAt
           example.collected example.promoted Hmove).
Defined.

Lemma internalDispatch_memoized_witness :
  ∃ c1,
    frontend.internalDispatch example.functionAt
      {| frontend.in_ := 1; frontend.out := 1 |} {[ 100; 200 ]} frontend.initialContext
    = Ok ("dispatch_internal_in_1_out_1", c1) ∧
    "dispatch_internal_in_1_out_1"
    = frontend.internalDispatchFunctionName {| frontend.in_ := 1; frontend.out := 1 |} ∧
    frontend.contains "dispatch_internal_in_1_out_1" (frontend.m_functions c1) = true ∧
    (frontend.contains "dispatch_internal_in_1_out_1"
       (frontend.m_functions frontend.initialContext) = true →
     c1 = frontend.initialContext) ∧
    ∀ others,
      (∀ p, p ∈ others →
            frontend.dispatchable example.functionAt
              {| frontend.in_ := 1; frontend.out := 1 |} p) →
      frontend.internalDispatch example.functionAt
        {| frontend.in_ := 1; frontend.out := 1 |} others c1
      = Ok ("dispatch_internal_in_1_out_1", c1).
Proof.
  eexists. split; [vm_compute; reflexivity|].
  apply (internalDispatch_memoized example.functionAt
           {| frontend.in_ := 1; frontend.out := 1 |} {[ 100; 200 ]}
           frontend.initialContext).
  vm_compute. reflexivity.
Defined.

(** ** Registration and generation, composed *)

Section Composition.
Import frontend.

Variable functionAt : ptr → FunctionDefinition.t.

(** X28: the candidates of an arity stay candidates when the arity is
    registered with [registerInternalDispatch]; the promotion that
    follows, if it completes, has moved them all to the dispatch entry of
    the arity, which has no candidates left, and every function of that
    entry is queued for code generation, unless the collector holds its
    name already. *)
Theorem registerInternalDispatch_promotes arity candidates c c' :
  m_internalDispatchCandidates c !! arity = Some candidates →
  moveCollectedReferencesToDispatch functionAt (registerInternalDispatch arity c).2
    = Ok c' →
  m_internalDispatchCandidates (registerInternalDispatch arity c).2 !! arity
    = Some candidates ∧
  ∃ functions,
    m_internalDispatch c' !! arity = Some functions ∧
    candidates ⊆ functions ∧
    m_internalDispatchCandidates c' !! arity = None ∧
    ∀ function,
      function ∈ functions →
      function ∈ m_functionGenerationQueue c' ∨
      contains (functionName (functionAt function)) (m_functions c') = true.
Proof.
  intros Hcandidates Hmove. split; [done|].
  pose proof (moveCollectedReferencesToDispatch_partitioned _ _ _ Hmove) as Hpart.
  pose proof (moveCollectedReferencesToDispatch_advances _ _ _ Hmove)
    as (Hmembers & Hkeys & _ & _ & _ & _ & Hscheduled).
  assert (m_internalDispatch (registerInternalDispatch arity c).2 !! arity = Some ∅)
    as Hentry.
  { unfold moveCollectedReferencesToDispatch in Hmove.
    apply bindR_Ok in Hmove as (c1 & Hloop1 & _).
    unfold registerInternalDispatch, try_emplace in *. cbn [snd] in *. fields.
    destruct (m_internalDispatch c !! arity) as [present|] eqn:Hpresent;
      [|by rewrite lookup_insert_eq].
    rewrite Hpresent. f_equal.
    destruct (decide (present = ∅)) as [->|Hne]; [done|].
    apply (promoteCandidates_loop_asserts _ _ _ _ Hloop1 arity present) in Hne.
    + fields. by rewrite Hcandidates in Hne.
    + apply elem_of_entries_keys. fields. by rewrite Hpresent.
    + fields. by rewrite Hpresent. }
  destruct (Hkeys arity) as [functions Hfunctions]; [by rewrite Hentry|].
  exists functions. split; [done|].
  assert (m_internalDispatchCandidates c' !! arity = None) as Hnone.
  { destruct (m_internalDispatchCandidates c' !! arity) eqn:Hc; [|done].
    destruct (Hpart arity). by rewrite Hfunctions, Hc. }
  split; [|split; [done|]].
  - etrans; [|etrans; [apply (Hmembers arity)|]].
    + unfold members. rewrite Hentry. cbn [snd registerInternalDispatch]. fields.
      rewrite Hcandidates. simpl. by rewrite union_empty_l_L.
    + unfold members. rewrite Hfunctions, Hnone. simpl. by rewrite union_empty_r_L.
  - intros function Hin.
    destruct (Hscheduled arity functions function Hfunctions Hin) as [Hbefore|[?|?]];
      [|by left|by right].
    rewrite Hentry in Hbefore. by apply not_elem_of_empty in Hbefore.
Qed.



End Composition.

Lemma registerInternalDispatch_promotes_witness :
  frontend.m_internalDispatchCandidates example.collected
    !! {| frontend.in_ := 2; frontend.out := 1 |} = Some {[ 300 ]} ∧
  ∃ c',
    frontend.moveCollectedReferencesToDispatch example.functionAt
      (frontend.registerInternalDispatch {| frontend.in_ := 2; frontend.out := 1 |}
         example.collected).2 = Ok c' ∧
    frontend.m_internalDispatchCandidates
      (frontend.registerInternalDispatch {| frontend.in_ := 2; frontend.out := 1 |}
         example.collected).2
      !! {| frontend.in_ := 2; frontend.out := 1 |} = Some {[ 300 ]} ∧
    ∃ functions,
      frontend.m_internalDispatch c' !! {| frontend.in_ := 2; frontend.out := 1 |}
        = Some functions ∧
      {[ 300 ]} ⊆ functions ∧
      frontend.m_internalDispatchCandidates c'
        !! {| frontend.in_ := 2; frontend.out := 1 |} = None ∧
      ∀ function,
        function ∈ functions →
        function ∈ frontend.m_functionGenerationQueue c' ∨
        frontend.contains (frontend.functionName (example.functionAt function))
          (frontend.m_functions c') = true.
Proof.
  assert (frontend.m_internalDispatchCandidates example.collected
            !! {| frontend.in_ := 2; frontend.out := 1 |} = Some {[ 300 ]})
    as Hcandidates by (vm_compute; reflexivity).
  split; [exact Hcandidates|].
  eexists. split; [vm_compute; reflexivity|].
  apply (registerInternalDispatch_promotes example.functionAt
           {| frontend.in_ := 2; frontend.out := 1 |} {[ 300 ]} example.collected).
  - exact Hcandidates.
  - vm_compute. reflexivity.
Defined.


(** * Further properties of the simplifier *)

(** ** Loops and exceptions *)

Lemma bindR_Throw {A B : Type} (m : Result A) (k : A → Result B) e :
  bindR m k = Throw e → m = Throw e ∨ ∃ a, m = Ok a ∧ k a = Throw e.
Proof. destruct m as [a|e']; simpl; [eauto|]. intros [= ->]. by left. Qed.

(** A loop relates each element to its result as its body does. *)
Lemma traverse_Forall2 {A B S : Type} (R : A → B → Prop)
    (f : A → S → Result (B * S)) l :
  Forall (λ x, ∀ s r, f x s = Ok r → R x r.1) l →
  ∀ s r, traverse f l s = Ok r → Forall2 R l r.1.
Proof.
  induction 1 as [|x l Hx _ IH]; intros s r Hr.
  - apply Ok_inj in Hr as <-. constructor.
  - rewrite traverse_cons in Hr.
    apply bindR_Ok in Hr as (first & Hfirst & Hr).
    apply bindR_Ok in Hr as (others & Hothers & Hr).
    apply Ok_inj in Hr as <-. constructor; eauto.
Qed.

(** A loop throws what its body throws. *)
Lemma traverse_throws {A B S : Type} (P : Error → Prop)
    (f : A → S → Result (B * S)) l :
  Forall (λ x, ∀ s e, f x s = Throw e → P e) l →
  ∀ s e, traverse f l s = Throw e → P e.
Proof.
  induction 1 as [|x l Hx _ IH]; intros s e He; [done|].
  rewrite traverse_cons in He.
  apply bindR_Throw in He as [He|(first & _ & He)]; [eauto|].
  apply bindR_Throw in He as [He|(others & _ & He)]; [eauto|done].
Qed.

Lemma Forall2_map_eq {A B : Type} (f : A → B) l l' :
  Forall2 (λ x y, f y = f x) l l' → map f l' = map f l.
Proof. induction 1; [done|]. simpl. congruence. Qed.

Lemma Forall2_flat_map {A B : Type} (R : B → B → Prop) (f : A → list B) l l' :
  Forall2 (λ x y, Forall2 R (f x) (f y)) l l' →
  Forall2 R (flat_map f l) (flat_map f l').
Proof. induction 1; [constructor|]. simpl. by apply Forall2_app. Qed.

Lemma Forall2_same {A : Type} (l l' : list A) :
  Forall2 (λ x y, y = x) l l' → l' = l.
Proof. induction 1; congruence. Qed.

(** ** What the walk does to the program and to the solver *)

Section Rewriting.
Import yul.

Variable m_dialect : Dialect.
Variable m_ssaVariables : gset YulString.
Variable decide : list smt.Expression → smt.CheckResult.
Variable valueOfLiteral : LiteralKind → YulString → Z.

Local Abbreviation encodeExpression :=
  (encodeExpression m_dialect m_ssaVariables valueOfLiteral).
Local Abbreviation visit := (visit m_dialect m_ssaVariables decide valueOfLiteral).
Local Abbreviation visitBlock :=
  (visitBlock m_dialect m_ssaVariables decide valueOfLiteral).
Local Abbreviation visitVariableDeclaration :=
  (visitVariableDeclaration m_dialect m_ssaVariables valueOfLiteral).
Local Abbreviation namedBindings := (namedBindings m_ssaVariables).
Local Abbreviation keepsBindings := (keepsBindings m_ssaVariables).

(** *** What the encoding leaves behind *)

Global Instance declares_reflexive : Reflexive declares.
Proof. intros s. by exists []. Qed.

Global Instance declares_transitive : Transitive declares.
Proof.
  intros a b c (names & Hnames & Hall) (names' & Hnames' & Hall').
  exists (names' ++ names)%list. split.
  - by rewrite Hnames', Hnames, (assoc_L app).
  - by apply Forall_app.
Qed.

Lemma newVariable_declares s : declares s (newVariable s).2.
Proof.
  exists ["expr_" +:+ to_string_N (m_varCounter s)]. split; [done|].
  apply Forall_singleton. by eexists.
Qed.

Lemma encodeInstruction_declares i arguments s r :
  encodeInstruction i arguments s = Ok r → declares s r.2.
Proof.
  unfold encodeInstruction. intros Hr.
  repeat case_match;
    try (apply bindR_Ok in Hr as (a & _ & Hr);
         apply bindR_Ok in Hr as (b & _ & Hr));
    apply Ok_inj in Hr as <-; cbn [fst snd]; try reflexivity.
  apply newVariable_declares.
Qed.

Lemma encodeExpression_declares e :
  ∀ s r, encodeExpression e s = Ok r → declares s r.2.
Proof.
  induction e as [functionName arguments IH|name|kind value]
    using Expression_nested_ind; intros s r Hr.
  - rewrite encodeExpression_call in Hr.
    destruct (instructionOf m_dialect functionName) as [i|].
    + unfold encodeBuiltin in Hr.
      apply bindR_Ok in Hr as (encoded & Hencoded & Hr).
      transitivity encoded.2.
      * by apply (traverse_respects declares _ _ IH) in Hencoded.
      * by apply encodeInstruction_declares in Hr.
    + apply Ok_inj in Hr as <-. apply newVariable_declares.
  - cbn [yul.encodeExpression] in Hr. case_match; apply Ok_inj in Hr as <-.
    + reflexivity.
    + apply newVariable_declares.
  - apply Ok_inj in Hr as <-. reflexivity.
Qed.

(** X30: the encoding of an expression asserts nothing: it leaves the
    scopes with their assertions, the assertions outside every scope and
    the bindings of the Yul variables as they are, and does no more to
    the solver than declare variables of names [expr_<k>]; a literal,
    and an identifier of a single-assignment variable that is bound, are
    encoded with no change of state at all. *)
Theorem encodeExpression_asserts_nothing e s r :
  encodeExpression e s = Ok r →
  smt.scopes (m_solver r.2) = smt.scopes (m_solver s) ∧
  smt.ground (m_solver r.2) = smt.ground (m_solver s) ∧
  smt.assertions (m_solver r.2) = smt.assertions (m_solver s) ∧
  m_variables r.2 = m_variables s ∧
  (∃ names,
     smt.declared (m_solver r.2) = (names ++ smt.declared (m_solver s))%list ∧
     Forall (λ name, ∃ k, name = "expr_" +:+ to_string_N k) names) ∧
  ((∃ kind value, e = Literal kind value) ∨
   (∃ name, e = Identifier name ∧ name ∈ m_ssaVariables ∧
            is_Some (m_variables s !! name)) →
   r.2 = s).
Proof.
  intros Hr.
  pose proof (encodeExpression_sameAssertions _ _ _ _ _ _ Hr)
    as (Hscopes & Hground & Hvariables).
  split; [done|]. split; [done|]. split; [by apply assertions_same|].
  split; [done|]. split; [by apply encodeExpression_declares in Hr|].
  intros [(kind & value & ->)|(name & -> & Hssa & Hbound)].
  - by apply Ok_inj in Hr as <-.
  - cbn [yul.encodeExpression] in Hr.
    rewrite !bool_decide_eq_true_2 in Hr by done. by apply Ok_inj in Hr as <-.
Qed.

(** *** Rewrites *)

Lemma simplified_list l l' :
  Forall2 simplified l l' →
  map skeleton l' = map skeleton l ∧
  Forall2 decided (flat_map conditions l) (flat_map conditions l').
Proof.
  intros H. split.
  - apply Forall2_map_eq. eapply Forall2_impl; [exact H|]. by intros x y [? ?].
  - apply Forall2_flat_map. eapply Forall2_impl; [exact H|]. by intros x y [? ?].
Qed.

Lemma rewritten_decided ifZero ifNotZero _condition :
  decided _condition (rewritten ifZero ifNotZero _condition).
Proof. unfold decided, rewritten. repeat case_bool_decide; auto. Qed.

Lemma visit_simplified statement :
  ∀ s r, visit statement s = Ok r → simplified statement r.1.
Proof.
  induction statement
    as [e|names value|variables value|name parameters returnVariables body IH
       |condition body IH|e cases IH|pre condition post body IHpre IHpost IHbody
       | | | |statements IH] using Statement_nested_ind; intros s r Hr;
    try (apply Ok_inj in Hr as <-; split; [done|constructor]).
  - cbn [yul.visit] in Hr. apply bindR_Ok in Hr as (s1 & Hs1 & Hr).
    apply Ok_inj in Hr as <-. split; [done|constructor].
  - cbn [yul.visit] in Hr. apply bindR_Ok in Hr as (walkedBody & Hwalked & Hr).
    apply Ok_inj in Hr as <-.
    apply (traverse_Forall2 simplified _ _ IH), simplified_list in Hwalked as [Hskeleton Hconditions].
    split; cbn [fst skeleton conditions]; [by rewrite Hskeleton|done].
  - apply visit_If_steps in Hr as (encoded & walkedBody & _ & Hwalked & _ & -> & _).
    unfold yul.visitBlock in Hwalked.
    apply (traverse_Forall2 simplified _ _ IH), simplified_list in Hwalked as [Hskeleton Hconditions].
    split; cbn [skeleton conditions]; [by rewrite Hskeleton|].
    constructor; [apply rewritten_decided|done].
  - cbn [yul.visit] in Hr. apply bindR_Ok in Hr as (walkedCases & Hwalked & Hr).
    apply Ok_inj in Hr as <-. cbn [fst skeleton conditions].
    apply (traverse_Forall2
             (λ _case _case',
                _case'.1 = _case.1 ∧ Forall2 simplified _case.2 _case'.2)) in Hwalked.
    2:{ eapply Forall_impl; [exact IH|]. intros _case IHcase s' r' Hr'.
        apply bindR_Ok in Hr' as (walkedBody & Hbody & Hr').
        apply Ok_inj in Hr' as <-. split; [done|].
        by apply (traverse_Forall2 simplified _ _ IHcase) in Hbody. }
    split; cbn [skeleton conditions].
    + f_equal. apply Forall2_map_eq. eapply Forall2_impl; [exact Hwalked|].
      intros x y [Hlabel [Hskeleton _]%simplified_list]. simpl. congruence.
    + apply Forall2_flat_map. eapply Forall2_impl; [exact Hwalked|].
      by intros x y [_ [_ ?]%simplified_list].
  - cbn [yul.visit] in Hr.
    apply bindR_Ok in Hr as (walkedPre & HwalkedPre & Hr).
    apply bindR_Ok in Hr as (walkedPost & HwalkedPost & Hr).
    apply bindR_Ok in Hr as (walkedBody & HwalkedBody & Hr).
    apply Ok_inj in Hr as <-. cbn [fst skeleton conditions].
    apply (traverse_Forall2 simplified _ _ IHpre), simplified_list in HwalkedPre as [? ?].
    apply (traverse_Forall2 simplified _ _ IHpost), simplified_list in HwalkedPost as [? ?].
    apply (traverse_Forall2 simplified _ _ IHbody), simplified_list in HwalkedBody as [? ?].
    split; cbn [skeleton conditions]; [congruence|]. by repeat apply Forall2_app.
  - cbn [yul.visit] in Hr. apply bindR_Ok in Hr as (walkedBody & Hwalked & Hr).
    apply Ok_inj in Hr as <-.
    apply (traverse_Forall2 simplified _ _ IH), simplified_list in Hwalked as [Hskeleton Hconditions].
    split; cbn [fst skeleton conditions]; [by rewrite Hskeleton|done].
Qed.

(** X21: the simplifier changes nothing of a program but conditions of
    [if] statements: the result has the statements of the program, in
    their places, and each of its conditions is the condition of the
    program, the literal "0" or the literal "1". *)
Theorem run_only_conditions :
  (∀ statement s r,
     visit statement s = Ok r →
     skeleton r.1 = skeleton statement ∧
     Forall2 decided (conditions statement) (conditions r.1)) ∧
  (∀ _ast ast',
     run m_dialect m_ssaVariables decide valueOfLiteral _ast = Ok ast' →
     map skeleton ast' = map skeleton _ast ∧
     Forall2 decided (flat_map conditions _ast) (flat_map conditions ast')).
Proof.
  split; [apply visit_simplified|].
  intros _ast ast' Hrun. unfold run, yul.visitBlock in Hrun.
  apply bindR_Ok in Hrun as (result & Hwalked & Hrun).
  apply Ok_inj in Hrun as <-.
  apply simplified_list. revert Hwalked. apply traverse_Forall2.
  apply Forall_forall. intros statement _. apply visit_simplified.
Qed.

Lemma visit_unchanged statement :
  (∀ assertions, decide assertions ≠ smt.UNSATISFIABLE) →
  ∀ s r, visit statement s = Ok r → r.1 = statement.
Proof.
  intros Hdecide.
  induction statement
    as [e|names value|variables value|name parameters returnVariables body IH
       |condition body IH|e cases IH|pre condition post body IHpre IHpost IHbody
       | | | |statements IH] using Statement_nested_ind; intros s r Hr;
    try (by apply Ok_inj in Hr as <-).
  - cbn [yul.visit] in Hr. apply bindR_Ok in Hr as (s1 & Hs1 & Hr).
    by apply Ok_inj in Hr as <-.
  - cbn [yul.visit] in Hr. apply bindR_Ok in Hr as (walkedBody & Hwalked & Hr).
    apply Ok_inj in Hr as <-.
    apply (traverse_Forall2 (λ x y, y = x) _ _ IH), Forall2_same in Hwalked.
    cbn [fst]. by rewrite Hwalked.
  - apply visit_If_steps in Hr as (encoded & walkedBody & _ & Hwalked & _ & -> & _).
    unfold yul.visitBlock in Hwalked.
    apply (traverse_Forall2 (λ x y, y = x) _ _ IH), Forall2_same in Hwalked.
    rewrite Hwalked. f_equal.
    by apply rewritten_cases.
  - cbn [yul.visit] in Hr. apply bindR_Ok in Hr as (walkedCases & Hwalked & Hr).
    apply Ok_inj in Hr as <-. cbn [fst].
    apply (traverse_Forall2 (λ x y, y = x)), Forall2_same in Hwalked;
      [by rewrite Hwalked|].
    eapply Forall_impl; [exact IH|]. intros [label body] IHcase s' r' Hr'.
    apply bindR_Ok in Hr' as (walkedBody & Hbody & Hr').
    apply Ok_inj in Hr' as <-. cbn [fst snd] in *.
    apply (traverse_Forall2 (λ x y, y = x) _ _ IHcase), Forall2_same in Hbody.
    by rewrite Hbody.
  - cbn [yul.visit] in Hr.
    apply bindR_Ok in Hr as (walkedPre & HwalkedPre & Hr).
    apply bindR_Ok in Hr as (walkedPost & HwalkedPost & Hr).
    apply bindR_Ok in Hr as (walkedBody & HwalkedBody & Hr).
    apply Ok_inj in Hr as <-. cbn [fst].
    apply (traverse_Forall2 (λ x y, y = x) _ _ IHpre), Forall2_same in HwalkedPre.
    apply (traverse_Forall2 (λ x y, y = x) _ _ IHpost), Forall2_same in HwalkedPost.
    apply (traverse_Forall2 (λ x y, y = x) _ _ IHbody), Forall2_same in HwalkedBody.
    congruence.
  - cbn [yul.visit] in Hr. apply bindR_Ok in Hr as (walkedBody & Hwalked & Hr).
    apply Ok_inj in Hr as <-.
    apply (traverse_Forall2 (λ x y, y = x) _ _ IH), Forall2_same in Hwalked.
    cbn [fst]. by rewrite Hwalked.
Qed.

(** X22: with a prover that never answers "unsatisfiable", a run that
    returns returns the program unchanged. *)
Theorem run_unchanged _ast ast' :
  (∀ assertions, decide assertions ≠ smt.UNSATISFIABLE) →
  run m_dialect m_ssaVariables decide valueOfLiteral _ast = Ok ast' →
  ast' = _ast.
Proof.
  intros Hdecide Hrun. unfold run, yul.visitBlock in Hrun.
  apply bindR_Ok in Hrun as (result & Hwalked & Hrun).
  apply Ok_inj in Hrun as <-.
  apply Forall2_same. revert Hwalked. apply traverse_Forall2.
  apply Forall_forall. intros statement _. by apply visit_unchanged.
Qed.

(** *** Exceptions *)

Lemma encodeInstruction_throws i arguments s e :
  encodeInstruction i arguments s = Throw e → e = OutOfRange.
Proof.
  unfold encodeInstruction, at_. intros He.
  destruct (arguments !! 0%nat), (arguments !! 1%nat);
    destruct (i =? LT), (i =? GT), (i =? ADD); simpl in He; congruence.
Qed.

Lemma encodeExpression_throws e :
  ∀ s error, encodeExpression e s = Throw error → error = OutOfRange.
Proof.
  induction e as [functionName arguments IH|name|kind value]
    using Expression_nested_ind; intros s error He.
  - rewrite encodeExpression_call in He.
    destruct (instructionOf m_dialect functionName) as [i|]; [|done].
    unfold encodeBuiltin in He.
    apply bindR_Throw in He as [He|(encoded & _ & He)].
    + revert He. by apply (traverse_throws (λ error, error = OutOfRange)).
    + by apply encodeInstruction_throws in He.
  - cbn [yul.encodeExpression] in He. by case_match.
  - done.
Qed.

Lemma visitVariableDeclaration_throws variables value s error :
  visitVariableDeclaration variables value s = Throw error → error = OutOfRange.
Proof.
  unfold yul.visitVariableDeclaration. intros He.
  destruct variables as [|varName [|]]; try done.
  destruct value as [value|]; [|done].
  destruct (negb (bool_decide (varName ∈ m_ssaVariables))); [done|].
  cbn [smt.newVariable] in He.
  apply bindR_Throw in He as [He|(encoded & _ & He)]; [|done].
  by apply encodeExpression_throws in He.
Qed.

Lemma visit_throws statement :
  ∀ s error, visit statement s = Throw error → error = OutOfRange.
Proof.
  induction statement
    as [e|names value|variables value|name parameters returnVariables body IH
       |condition body IH|e cases IH|pre condition post body IHpre IHpost IHbody
       | | | |statements IH] using Statement_nested_ind; intros s error He;
    try done.
  - cbn [yul.visit] in He. apply bindR_Throw in He as [He|(s1 & _ & He)]; [|done].
    by apply visitVariableDeclaration_throws in He.
  - cbn [yul.visit] in He. apply bindR_Throw in He as [He|(? & _ & He)]; [|done].
    revert He. by apply (traverse_throws (λ error, error = OutOfRange)).
  - rewrite visit_If in He.
    apply bindR_Throw in He as [He|(encoded & Hencoded & He)];
      [by apply encodeExpression_throws in He|].
    rewrite simplifyCondition_closed in He. cbn [bindR fst snd] in He.
    apply bindR_Throw in He as [He|(walkedBody & Hwalked & He)];
      [revert He; by apply (traverse_throws (λ error, error = OutOfRange))|].
    apply bindR_Throw in He as [He|(? & _ & He)]; [|done].
    unfold yul.visitBlock in Hwalked.
    apply (traverse_respects grows) in Hwalked.
    2:{ apply Forall_forall. intros x _. apply visit_grows. }
    apply pop_extends in Hwalked as (popped & Hpopped & _).
    by rewrite Hpopped in He.
  - cbn [yul.visit] in He. apply bindR_Throw in He as [He|(? & _ & He)]; [|done].
    revert He. apply (traverse_throws (λ error, error = OutOfRange)).
    eapply Forall_impl; [exact IH|]. intros _case IHcase s' error' He'.
    apply bindR_Throw in He' as [He'|(? & _ & He')]; [|done].
    revert He'. by apply (traverse_throws (λ error, error = OutOfRange)).
  - cbn [yul.visit] in He.
    apply bindR_Throw in He as [He|(? & _ & He)];
      [revert He; by apply (traverse_throws (λ error, error = OutOfRange))|].
    apply bindR_Throw in He as [He|(? & _ & He)];
      [revert He; by apply (traverse_throws (λ error, error = OutOfRange))|].
    apply bindR_Throw in He as [He|(? & _ & He)]; [|done].
    revert He. by apply (traverse_throws (λ error, error = OutOfRange)).
  - cbn [yul.visit] in He. apply bindR_Throw in He as [He|(? & _ & He)]; [|done].
    revert He. by apply (traverse_throws (λ error, error = OutOfRange)).
Qed.

(** X23: a run can throw nothing but the [std::out_of_range] of
    [std::vector::at], and throws it only on a program that is not well
    formed (a call of [lt], [gt] or [add] with fewer than two arguments):
    no [pop] of the walk ever meets an empty stack of scopes. *)
Theorem run_throws_only_OutOfRange _ast error :
  run m_dialect m_ssaVariables decide valueOfLiteral _ast = Throw error →
  error = OutOfRange ∧ forallb (wellFormedStatement m_dialect) _ast = false.
Proof.
  intros Hrun. split.
  - unfold run, yul.visitBlock in Hrun.
    apply bindR_Throw in Hrun as [Hrun|(? & _ & Hrun)]; [|done].
    revert Hrun. apply (traverse_throws (λ error, error = OutOfRange)).
    apply Forall_forall. intros statement _. apply visit_throws.
  - destruct (forallb _ _ast) eqn:Hwell; [|done].
    unfold run, yul.visitBlock in Hrun.
    destruct (traverse_returns_on (wellFormedStatement m_dialect) visit _ast)
      with (s := newSimplifier) as [r Hr]; [|done|by rewrite Hr in Hrun].
    apply Forall_forall. intros statement _. apply visit_returns.
Qed.

(** *** Bindings *)

Global Instance keepsBindings_reflexive : Reflexive keepsBindings.
Proof. by intros s. Qed.

Global Instance keepsBindings_transitive : Transitive keepsBindings.
Proof.
  intros a b c [Hab Hab'] [Hbc Hbc']. split; [by etrans|auto].
Qed.

Lemma keepsBindings_same s s' :
  m_variables s' = m_variables s → keepsBindings s s'.
Proof.
  intros Hsame. unfold keepsBindings, namedBindings. by rewrite Hsame.
Qed.

Lemma encodeExpression_keepsBindings e s r :
  encodeExpression e s = Ok r → keepsBindings s r.2.
Proof.
  intros Hr. apply keepsBindings_same.
  by apply encodeExpression_sameAssertions in Hr as (_ & _ & ?).
Qed.

Lemma insertIfAbsent_lookup name variable m :
  insertIfAbsent name variable m !! name = Some (default variable (m !! name)) ∧
  ∀ other, other ≠ name → insertIfAbsent name variable m !! other = m !! other.
Proof.
  unfold insertIfAbsent. destruct (m !! name) as [present|] eqn:Hm.
  - by rewrite Hm.
  - rewrite lookup_insert_eq. split; [done|].
    intros other Hother. by rewrite lookup_insert_ne.
Qed.

Lemma visitVariableDeclaration_keepsBindings variables value s s' :
  visitVariableDeclaration variables value s = Ok s' → keepsBindings s s'.
Proof.
  unfold yul.visitVariableDeclaration. intros Hs'.
  destruct variables as [|varName [|]]; try (apply Ok_inj in Hs' as <-; reflexivity).
  destruct value as [value|]; [|apply Ok_inj in Hs' as <-; reflexivity].
  destruct (bool_decide (varName ∈ m_ssaVariables)) eqn:Hssa;
    [|apply Ok_inj in Hs' as <-; reflexivity].
  apply bool_decide_eq_true in Hssa.
  cbn [negb smt.newVariable] in Hs'.
  apply bindR_Ok in Hs' as (encoded & Hencoded & Hs').
  apply Ok_inj in Hs' as <-.
  apply encodeExpression_keepsBindings in Hencoded.
  etrans; [|etrans; [exact Hencoded|by apply keepsBindings_same]].
  destruct (insertIfAbsent_lookup varName (smt.Var ("yul_" +:+ varName))
              (m_variables s)) as [Hname Hothers].
  split; cbn [m_variables].
  - apply map_subseteq_spec. intros name variable Hlookup.
    destruct (base.decide (name = varName)) as [->|Hne].
    + by rewrite Hname, Hlookup.
    + by rewrite Hothers.
  - intros Hnamed name variable Hlookup. cbn [m_variables] in Hlookup.
    destruct (base.decide (name = varName)) as [->|Hne].
    + rewrite Hname in Hlookup. injection Hlookup as Hlookup.
      destruct (m_variables s !! varName) as [present|] eqn:Hpresent.
      * simpl in Hlookup. subst. by apply Hnamed.
      * simpl in Hlookup. by subst.
    + rewrite Hothers in Hlookup by done. by apply Hnamed.
Qed.

Lemma visit_keepsBindings statement :
  ∀ s r, visit statement s = Ok r → keepsBindings s r.2.
Proof.
  induction statement
    as [e|names value|variables value|name parameters returnVariables body IH
       |condition body IH|e cases IH|pre condition post body IHpre IHpost IHbody
       | | | |statements IH] using Statement_nested_ind; intros s r Hr;
    try (apply Ok_inj in Hr as <-; reflexivity).
  - cbn [yul.visit] in Hr. apply bindR_Ok in Hr as (s1 & Hs1 & Hr).
    apply Ok_inj in Hr as <-. by apply visitVariableDeclaration_keepsBindings in Hs1.
  - cbn [yul.visit] in Hr. apply bindR_Ok in Hr as (walkedBody & Hwalked & Hr).
    apply Ok_inj in Hr as <-.
    by apply (traverse_respects keepsBindings _ _ IH) in Hwalked.
  - rewrite visit_If in Hr.
    apply bindR_Ok in Hr as (encoded & Hencoded & Hr).
    rewrite simplifyCondition_closed in Hr. cbn [bindR fst snd] in Hr.
    apply bindR_Ok in Hr as (walkedBody & Hwalked & Hr).
    apply bindR_Ok in Hr as (solver & Hsolver & Hr).
    apply Ok_inj in Hr as <-.
    apply encodeExpression_keepsBindings in Hencoded.
    unfold yul.visitBlock in Hwalked.
    apply (traverse_respects keepsBindings _ _ IH) in Hwalked.
    etrans; [exact Hencoded|]. etrans; [by apply keepsBindings_same|].
    etrans; [exact Hwalked|]. by apply keepsBindings_same.
  - cbn [yul.visit] in Hr. apply bindR_Ok in Hr as (walkedCases & Hwalked & Hr).
    apply Ok_inj in Hr as <-.
    refine (traverse_respects keepsBindings _ _ _ _ _ Hwalked).
    eapply Forall_impl; [exact IH|]. intros _case IHcase s' r' Hr'.
    apply bindR_Ok in Hr' as (walkedBody & Hbody & Hr').
    apply Ok_inj in Hr' as <-.
    by apply (traverse_respects keepsBindings _ _ IHcase) in Hbody.
  - cbn [yul.visit] in Hr.
    apply bindR_Ok in Hr as (walkedPre & HwalkedPre & Hr).
    apply bindR_Ok in Hr as (walkedPost & HwalkedPost & Hr).
    apply bindR_Ok in Hr as (walkedBody & HwalkedBody & Hr).
    apply Ok_inj in Hr as <-.
    apply (traverse_respects keepsBindings _ _ IHpre) in HwalkedPre.
    apply (traverse_respects keepsBindings _ _ IHpost) in HwalkedPost.
    apply (traverse_respects keepsBindings _ _ IHbody) in HwalkedBody.
    etrans; [exact HwalkedPre|]. etrans; [exact HwalkedPost|]. exact HwalkedBody.
  - cbn [yul.visit] in Hr. apply bindR_Ok in Hr as (walkedBody & Hwalked & Hr).
    apply Ok_inj in Hr as <-.
    by apply (traverse_respects keepsBindings _ _ IH) in Hwalked.
Qed.

(** X26: the visit of a statement keeps every binding of a Yul variable
    to its solver variable, bindings made in the body of an [if]
    included, although the assertions of that body are dropped; and if
    every binding is of a single-assignment variable [x] to [yul_x]
    before the visit, so it is after. *)
Theorem visit_bindings_permanent statement s r :
  visit statement s = Ok r →
  (∀ name variable,
     m_variables s !! name = Some variable →
     m_variables r.2 !! name = Some variable) ∧
  ((∀ name variable,
      m_variables s !! name = Some variable →
      name ∈ m_ssaVariables ∧ variable = smt.Var ("yul_" +:+ name)) →
   ∀ name variable,
     m_variables r.2 !! name = Some variable →
     name ∈ m_ssaVariables ∧ variable = smt.Var ("yul_" +:+ name)).
Proof.
  intros Hr. apply visit_keepsBindings in Hr as [Hsub Hnamed].
  split; [|exact Hnamed].
  intros name variable. by apply map_subseteq_spec.
Qed.

(** *** Declarations *)



(** *** The names of auxiliary variables *)

Lemma freshNames_same s s' :
  smt.declared (m_solver s') = smt.declared (m_solver s) →
  m_varCounter s' = m_varCounter s →
  freshNames s → freshNames s'.
Proof.
  unfold freshNames, namesBelowCounter, distinctNames. by intros -> ->.
Qed.

Lemma freshNames_declare name s :
  (∀ k, name ≠ "expr_" +:+ to_string_N k) →
  freshNames s →
  freshNames {| m_solver := (smt.newVariable name (m_solver s)).2;
                m_variables := m_variables s;
                m_varCounter := m_varCounter s |}.
Proof.
  intros Hname [Hbelow Hdistinct]. split.
  - intros k Hk. cbn [m_solver smt.newVariable snd smt.declared m_varCounter] in *.
    apply elem_of_cons in Hk as [Hk|Hk]; [by destruct (Hname k)|by apply Hbelow].
  - intros i j k. cbn [m_solver smt.newVariable snd smt.declared].
    destruct i as [|i], j as [|j]; simpl; try done.
    + intros [= Hk]. by destruct (Hname k).
    + intros _ [= Hk]. by destruct (Hname k).
    + intros Hi Hj. f_equal. by apply (Hdistinct i j k).
Qed.

Lemma newVariable_freshNames s :
  m_varCounter s + 1 < 2 ^ 64 → freshNames s →
  freshNames (newVariable s).2 ∧ m_varCounter (newVariable s).2 = m_varCounter s + 1.
Proof.
  intros Hbound [Hbelow Hdistinct].
  destruct (newVariable_fresh s Hbelow) as [Hnotin Hnew].
  destruct (Hnew Hbound) as [Hbelow' Hcounter]. split; [|done]. split; [done|].
  intros i j k. unfold newVariable. simpl.
  destruct i as [|i], j as [|j]; simpl; try done.
  - intros Hk Hj. apply (inj Some), uniqueName_inj in Hk as <-.
    destruct Hnotin. by apply list_elem_of_lookup_2 in Hj.
  - intros Hi Hk. apply (inj Some), uniqueName_inj in Hk as <-.
    destruct Hnotin. by apply list_elem_of_lookup_2 in Hi.
  - intros Hi Hj. f_equal. by apply (Hdistinct i j k).
Qed.

Lemma encodeInstruction_freshNames i arguments s r :
  encodeInstruction i arguments s = Ok r →
  m_varCounter s + 1 < 2 ^ 64 → freshNames s →
  freshNames r.2 ∧ m_varCounter s ≤ m_varCounter r.2 ∧
  m_varCounter r.2 ≤ m_varCounter s + 1.
Proof.
  unfold encodeInstruction. intros Hr Hbound Hfresh.
  repeat case_match;
    try (apply bindR_Ok in Hr as (a & _ & Hr);
         apply bindR_Ok in Hr as (b & _ & Hr));
    apply Ok_inj in Hr as <-; cbn [fst snd]; try (split; [done|lia]).
  destruct (newVariable_freshNames s Hbound Hfresh) as [? ->]. split; [done|lia].
Qed.

Lemma encodeExpression_freshNames e :
  ∀ s r, encodeExpression e s = Ok r →
         m_varCounter s + size e < 2 ^ 64 → freshNames s →
         freshNames r.2 ∧ m_varCounter s ≤ m_varCounter r.2 ∧
         m_varCounter r.2 ≤ m_varCounter s + size e.
Proof.
  induction e as [functionName arguments IH|name|kind value]
    using Expression_nested_ind; intros s r Hr Hbound Hfresh.
  - rewrite encodeExpression_call in Hr. cbn [size] in *.
    destruct (instructionOf m_dialect functionName) as [i|].
    + unfold encodeBuiltin in Hr.
      apply bindR_Ok in Hr as (encoded & Hencoded & Hr).
      destruct (traverse_bounded freshNames m_varCounter (2 ^ 64)
                  encodeExpression size arguments IH _ _ Hencoded)
        as (Hfresh1 & Hle1 & Hle1'); [lia|done|].
      destruct (encodeInstruction_freshNames _ _ _ _ Hr) as (Hfresh2 & Hle2 & Hle2');
        [lia|done|].
      split; [done|lia].
    + apply Ok_inj in Hr as <-.
      destruct (newVariable_freshNames s) as [? ->]; [lia|done|]. split; [done|lia].
  - cbn [yul.encodeExpression size] in *. case_match; apply Ok_inj in Hr as <-.
    + split; [done|]. cbn [snd]. lia.
    + destruct (newVariable_freshNames s) as [? ->]; [lia|done|]. split; [done|lia].
  - apply Ok_inj in Hr as <-. split; [done|]. cbn [snd size]. lia.
Qed.

Lemma visitVariableDeclaration_freshNames variables value s s' :
  visitVariableDeclaration variables value s = Ok s' →
  m_varCounter s + encodedSize (VariableDeclaration variables value) < 2 ^ 64 →
  freshNames s →
  freshNames s' ∧ m_varCounter s ≤ m_varCounter s' ∧
  m_varCounter s' ≤ m_varCounter s + encodedSize (VariableDeclaration variables value).
Proof.
  unfold yul.visitVariableDeclaration. intros Hs' Hbound Hfresh.
  destruct variables as [|varName [|]];
    try (apply Ok_inj in Hs' as <-; split; [done|lia]).
  destruct value as [value|]; [|apply Ok_inj in Hs' as <-; split; [done|lia]].
  destruct (negb (bool_decide (varName ∈ m_ssaVariables)));
    [apply Ok_inj in Hs' as <-; split; [done|lia]|].
  cbn [encodedSize] in *.
  apply bindR_Ok in Hs' as (encoded & Hencoded & Hs').
  apply Ok_inj in Hs' as <-.
  apply encodeExpression_freshNames in Hencoded as (Hfresh' & Hle & Hle');
    [|done|].
  - split; [|done].
    revert Hfresh'. apply freshNames_same; [|done].
    cbn [m_solver set_solver]. apply declared_addAssertion.
  - apply (freshNames_same
             {| m_solver := (smt.newVariable ("yul_" +:+ varName) (m_solver s)).2;
                m_variables := m_variables s;
                m_varCounter := m_varCounter s |}); [done..|].
    by apply freshNames_declare.
Qed.

Lemma visit_freshNames statement :
  ∀ s r, visit statement s = Ok r →
         m_varCounter s + encodedSize statement < 2 ^ 64 → freshNames s →
         freshNames r.2 ∧ m_varCounter s ≤ m_varCounter r.2 ∧
         m_varCounter r.2 ≤ m_varCounter s + encodedSize statement.
Proof.
  induction statement
    as [e|names value|variables value|name parameters returnVariables body IH
       |condition body IH|e cases IH|pre condition post body IHpre IHpost IHbody
       | | | |statements IH] using Statement_nested_ind; intros s r Hr Hbound Hfresh;
    try (apply Ok_inj in Hr as <-; split; [done|cbn [snd]; lia]).
  - cbn [yul.visit] in Hr. apply bindR_Ok in Hr as (s1 & Hs1 & Hr).
    apply Ok_inj in Hr as <-. by apply visitVariableDeclaration_freshNames in Hs1.
  - cbn [yul.visit encodedSize] in *.
    apply bindR_Ok in Hr as (walkedBody & Hwalked & Hr). apply Ok_inj in Hr as <-.
    by apply (traverse_bounded freshNames m_varCounter (2 ^ 64)
                visit encodedSize body IH) in Hwalked.
  - rewrite visit_If in Hr. cbn [encodedSize] in *.
    apply bindR_Ok in Hr as (encoded & Hencoded & Hr).
    rewrite simplifyCondition_closed in Hr. cbn [bindR fst snd] in Hr.
    apply bindR_Ok in Hr as (walkedBody & Hwalked & Hr).
    apply bindR_Ok in Hr as (solver & Hsolver & Hr).
    apply Ok_inj in Hr as <-. cbn [fst snd].
    apply encodeExpression_freshNames in Hencoded as (Hfresh1 & Hle1 & Hle1');
      [|lia|done].
    apply (traverse_bounded freshNames m_varCounter (2 ^ 64)
             visit encodedSize body IH) in Hwalked as (Hfresh2 & Hle2 & Hle2').
    + cbn [m_varCounter set_solver] in *. split; [|lia].
      revert Hfresh2. apply freshNames_same; [|done].
      cbn [m_solver set_solver]. by apply declared_pop.
    + cbn [m_varCounter set_solver]. lia.
    + revert Hfresh1. apply freshNames_same; [|done].
      cbn [m_solver set_solver]. unfold enterBody.
      by rewrite declared_addAssertion.
  - cbn [yul.visit encodedSize] in *.
    apply bindR_Ok in Hr as (walkedCases & Hwalked & Hr). apply Ok_inj in Hr as <-.
    refine (traverse_bounded freshNames m_varCounter (2 ^ 64) _
              (λ _case, foldr (λ x n, encodedSize x + n) 0 _case.2)
              cases _ _ _ Hwalked Hbound Hfresh).
    eapply Forall_impl; [exact IH|]. intros _case IHcase s' r' Hr' Hbound' Hfresh'.
    apply bindR_Ok in Hr' as (walkedBody & HwalkedBody & Hr').
    apply Ok_inj in Hr' as <-.
    by apply (traverse_bounded freshNames m_varCounter (2 ^ 64)
                visit encodedSize _case.2 IHcase) in HwalkedBody.
  - cbn [yul.visit encodedSize] in *.
    apply bindR_Ok in Hr as (walkedPre & HwalkedPre & Hr).
    apply bindR_Ok in Hr as (walkedPost & HwalkedPost & Hr).
    apply bindR_Ok in Hr as (walkedBody & HwalkedBody & Hr).
    apply Ok_inj in Hr as <-. cbn [fst snd].
    apply (traverse_bounded freshNames m_varCounter (2 ^ 64)
             visit encodedSize pre IHpre) in HwalkedPre as (Hfresh1 & ? & ?);
      [|lia|done].
    apply (traverse_bounded freshNames m_varCounter (2 ^ 64)
             visit encodedSize post IHpost) in HwalkedPost as (Hfresh2 & ? & ?);
      [|lia|done].
    apply (traverse_bounded freshNames m_varCounter (2 ^ 64)
             visit encodedSize body IHbody) in HwalkedBody as (Hfresh3 & ? & ?);
      [|lia|done].
    split; [done|lia].
  - cbn [yul.visit encodedSize] in *.
    apply bindR_Ok in Hr as (walkedBody & Hwalked & Hr). apply Ok_inj in Hr as <-.
    by apply (traverse_bounded freshNames m_varCounter (2 ^ 64)
                visit encodedSize statements IH) in Hwalked.
Qed.

(** X27: in a walk from the state that the constructor sets up, on a
    program small enough for the counter not to overflow, no name
    [expr_<k>] is declared to the solver twice; the names declared are
    those of the values that the counter has passed, and the counter has
    counted at most one name per call, identifier and literal that the
    walk has encoded. *)
Theorem visitBlock_names_distinct _ast r :
  visitBlock _ast newSimplifier = Ok r →
  foldr (λ statement n, encodedSize statement + n) 0 _ast < 2 ^ 64 →
  m_varCounter r.2 ≤ foldr (λ statement n, encodedSize statement + n) 0 _ast ∧
  (∀ k, ("expr_" +:+ to_string_N k) ∈ smt.declared (m_solver r.2) →
        k < m_varCounter r.2) ∧
  (∀ i j k,
     smt.declared (m_solver r.2) !! i = Some ("expr_" +:+ to_string_N k) →
     smt.declared (m_solver r.2) !! j = Some ("expr_" +:+ to_string_N k) →
     i = j).
Proof.
  intros Hr Hbound. unfold yul.visitBlock in Hr.
  apply (traverse_bounded freshNames m_varCounter (2 ^ 64) visit encodedSize)
    in Hr as ([Hbelow Hdistinct] & _ & Hle).
  - cbn [m_varCounter newSimplifier] in Hle. rewrite N.add_0_l in Hle. done.
  - apply Forall_forall. intros statement _. apply visit_freshNames.
  - cbn [m_varCounter newSimplifier]. by rewrite N.add_0_l.
  - split.
    + intros k Hk. by apply elem_of_nil in Hk.
    + by intros i j k Hi.
Qed.

(** X24: the visit of any statement, of whatever kind, leaves as many
    scopes open as it found, the outer scopes as they were, and the
    assertions that were in force still in force, after those that the
    visit has added to the innermost scope. *)
Theorem visit_balanced statement s r :
  visit statement s = Ok r →
  length (smt.scopes (m_solver r.2)) = length (smt.scopes (m_solver s)) ∧
  tail (smt.scopes (m_solver r.2)) = tail (smt.scopes (m_solver s)) ∧
  ∃ added,
    smt.assertions (m_solver r.2) = (added ++ smt.assertions (m_solver s))%list.
Proof.
  intros Hr. apply visit_grows in Hr. unfold grows, extends in Hr.
  unfold smt.assertions.
  destruct (smt.scopes (m_solver s)) as [|innermost outer],
           (smt.scopes (m_solver r.2)) as [|innermost' outer']; [|done..|].
  - destruct Hr as [added Hadded]. split; [done|]. split; [done|].
    exists added. by rewrite Hadded.
  - destruct Hr as ([added Hadded] & Houter & Hground). subst innermost' outer'.
    split; [done|]. split; [done|].
    exists added. rewrite Hground. simpl. by rewrite <- !(assoc_L app).
Qed.

End Rewriting.

Lemma run_unchanged_witness :
  (∀ assertions, example.undecided assertions ≠ smt.UNSATISFIABLE) ∧
  ∃ ast',
    yul.run example.dialect {[ "x" ]} example.undecided example.valueOfLiteral
      example.nested = Ok ast' ∧
    ast' = example.nested.
Proof.
  assert (∀ assertions, example.undecided assertions ≠ smt.UNSATISFIABLE)
    as Hundecided by (intros assertions; discriminate).
  split; [exact Hundecided|].
  eexists. split; [vm_compute; reflexivity|].
  apply (run_unchanged example.dialect {[ "x" ]} example.undecided
           example.valueOfLiteral example.nested _ Hundecided).
  vm_compute. reflexivity.
Defined.

Lemma run_throws_only_OutOfRange_witness :
  ∃ error,
    yul.run example.dialect {[ "x" ]} example.decide example.valueOfLiteral
      [example.malformedIf] = Throw error ∧
    error = OutOfRange ∧
    forallb (yul.wellFormedStatement example.dialect) [example.malformedIf] = false.
Proof.
  eexists. split; [vm_compute; reflexivity|].
  apply (run_throws_only_OutOfRange example.dialect {[ "x" ]} example.decide
           example.valueOfLiteral [example.malformedIf]).
  vm_compute. reflexivity.
Defined.

Lemma visit_balanced_witness :
  ∃ r,
    yul.visit example.dialect {[ "x"; "y" ]} example.decide example.valueOfLiteral
      example.declaringIf example.atInnerIf = Ok r ∧
    length (smt.scopes (yul.m_solver r.2))
      = length (smt.scopes (yul.m_solver example.atInnerIf)) ∧
    tail (smt.scopes (yul.m_solver r.2))
      = tail (smt.scopes (yul.m_solver example.atInnerIf)) ∧
    ∃ added,
      smt.assertions (yul.m_solver r.2)
      = (added ++ smt.assertions (yul.m_solver example.atInnerIf))%list.
Proof.
  eexists. split; [vm_compute; reflexivity|].
  apply (visit_balanced example.dialect {[ "x"; "y" ]} example.decide
           example.valueOfLiteral example.declaringIf example.atInnerIf).
  vm_compute. reflexivity.
Defined.

Lemma visit_bindings_permanent_witness :
  yul.visit example.dialect {[ "x"; "y" ]} example.decide example.valueOfLiteral
    example.declaringIf example.afterDeclaration
  = Ok (yul.If (yul.Literal yul.Number "1")
          [ yul.VariableDeclaration ["y"] (Some (yul.Identifier "x")) ],
        example.afterBody) ∧
  (∀ name variable,
     yul.m_variables example.afterDeclaration !! name = Some variable →
     yul.m_variables example.afterBody !! name = Some variable) ∧
  ((∀ name variable,
      yul.m_variables example.afterDeclaration !! name = Some variable →
      name ∈ ({[ "x"; "y" ]} : gset string) ∧ variable = smt.Var ("yul_" +:+ name)) →
   ∀ name variable,
     yul.m_variables example.afterBody !! name = Some variable →
     name ∈ ({[ "x"; "y" ]} : gset string) ∧ variable = smt.Var ("yul_" +:+ name)).
Proof.
  assert (yul.visit example.dialect {[ "x"; "y" ]} example.decide
            example.valueOfLiteral example.declaringIf example.afterDeclaration
          = Ok (yul.If (yul.Literal yul.Number "1")
                  [ yul.VariableDeclaration ["y"] (Some (yul.Identifier "x")) ],
                example.afterBody)) as Hvisit
    by (vm_compute; reflexivity).
  split; [exact Hvisit|].
  exact (visit_bindings_permanent example.dialect {[ "x"; "y" ]} example.decide
           example.valueOfLiteral example.declaringIf example.afterDeclaration
           _ Hvisit).
Defined.

Lemma visitBlock_names_distinct_witness :
  ∃ r,
    yul.visitBlock example.dialect {[ "x" ]} example.decide example.valueOfLiteral
      (example.branchOn
         (example.lt (yul.FunctionCall "mul" [yul.Identifier "x"; example.number "2"])
                     (yul.Identifier "y")))
      yul.newSimplifier = Ok r ∧
    smt.declared (yul.m_solver r.2) = ["expr_1"; "expr_0"; "yul_x"] ∧
    foldr (λ statement n, yul.encodedSize statement + n) 0
      (example.branchOn
         (example.lt (yul.FunctionCall "mul" [yul.Identifier "x"; example.number "2"])
                     (yul.Identifier "y")))
      < 2 ^ 64 ∧
    yul.m_varCounter r.2
      ≤ foldr (λ statement n, yul.encodedSize statement + n) 0
          (example.branchOn
             (example.lt
                (yul.FunctionCall "mul" [yul.Identifier "x"; example.number "2"])
                (yul.Identifier "y"))) ∧
    (∀ k, ("expr_" +:+ to_string_N k) ∈ smt.declared (yul.m_solver r.2) →
          k < yul.m_varCounter r.2) ∧
    (∀ i j k,
       smt.declared (yul.m_solver r.2) !! i = Some ("expr_" +:+ to_string_N k) →
       smt.declared (yul.m_solver r.2) !! j = Some ("expr_" +:+ to_string_N k) →
       i = j).
Proof.
  eexists. split; [vm_compute; reflexivity|]. split; [vm_compute; reflexivity|].
  assert (foldr (λ statement n, yul.encodedSize statement + n) 0
            (example.branchOn
               (example.lt
                  (yul.FunctionCall "mul" [yul.Identifier "x"; example.number "2"])
                  (yul.Identifier "y")))
          < 2 ^ 64) as Hbound by (vm_compute; reflexivity).
  split; [exact Hbound|].
  apply (visitBlock_names_distinct example.dialect {[ "x" ]} example.decide
           example.valueOfLiteral
           (example.branchOn
              (example.lt
                 (yul.FunctionCall "mul" [yul.Identifier "x"; example.number "2"])
                 (yul.Identifier "y")))).
  - vm_compute. reflexivity.
  - exact Hbound.
Defined.

Lemma encodeExpression_asserts_nothing_witness :
  ∃ r,
    yul.encodeExpression example.dialect {[ "x" ]} example.valueOfLiteral
      (example.lt
         (yul.FunctionCall "mul" [yul.Identifier "x"; example.number "2"])
         (yul.Identifier "y"))
      example.atInnerIf = Ok r ∧
    smt.declared (yul.m_solver r.2) = ["expr_1"; "expr_0"; "yul_x"] ∧
    smt.scopes (yul.m_solver r.2) = smt.scopes (yul.m_solver example.atInnerIf) ∧
    smt.ground (yul.m_solver r.2) = smt.ground (yul.m_solver example.atInnerIf) ∧
    smt.assertions (yul.m_solver r.2)
      = smt.assertions (yul.m_solver example.atInnerIf) ∧
    yul.m_variables r.2 = yul.m_variables example.atInnerIf ∧
    (∃ names,
       smt.declared (yul.m_solver r.2)
         = (names ++ smt.declared (yul.m_solver example.atInnerIf))%list ∧
       Forall (λ name, ∃ k, name = "expr_" +:+ to_string_N k) names) ∧
    ((∃ kind value,
        example.lt
          (yul.FunctionCall "mul" [yul.Identifier "x"; example.number "2"])
          (yul.Identifier "y") = yul.Literal kind value) ∨
     (∃ name,
        example.lt
          (yul.FunctionCall "mul" [yul.Identifier "x"; example.number "2"])
          (yul.Identifier "y") = yul.Identifier name ∧
        name ∈ ({[ "x" ]} : gset string) ∧
        is_Some (yul.m_variables example.atInnerIf !! name)) →
     r.2 = example.atInnerIf).
Proof.
  eexists. split; [vm_compute; reflexivity|]. split; [vm_compute; reflexivity|].
  apply (encodeExpression_asserts_nothing example.dialect {[ "x" ]}
           example.valueOfLiteral
           (example.lt
              (yul.FunctionCall "mul" [yul.Identifier "x"; example.number "2"])
              (yul.Identifier "y"))
           example.atInnerIf).
  vm_compute. reflexivity.
Defined.
